(** * Vocabulary flashcards: card store, selectors, bulk import and persistence

  A shallow embedding of the state and persistence engine of the
  vocabulary-flashcards application:

  - [contexts/CardContext.tsx]: [initialState], [cardReducer], the
    persistence effect of [CardProvider];
  - [utils/cardSelectors.ts]: [getVisibleCards], [getCurrentCard];
  - [utils/bulkImport.ts]: [parseBulkImportText] (current and legacy
    version);
  - [hooks/useLocalStorage.ts]: [loadFromLocalStorage],
    [saveToLocalStorage], [migrateData];
  - [types/flashcard.ts]: [Flashcard], [CardState], [CardAction],
    [UpdateFlashcardInput], [StorageSchema], [FLASHCARD_CONSTRAINTS].

  Conventions.  A JavaScript string is a [string] whose characters stand
  for code units below 256.  A JavaScript [number] that holds an index is
  a [Z]; array lengths are [nat].  The results of [crypto.randomUUID()],
  [new Date().toISOString()], [Date.now()] and [Math.random()] are inputs
  of the functions that call them. *)

From Stdlib Require Import ZArith NArith Lia Ascii.
From stdpp Require Import base list strings gmap pretty.

Local Open Scope Z_scope.

(** ** JavaScript string primitives used by the sources *)

Module JsString.

(** The double quote character, for messages that contain one. *)
Definition dquote : string := String "034"%char EmptyString.

(** [!s] for a string: only the empty string is falsy. *)
Definition is_empty (s : string) : bool :=
  match s with
  | EmptyString => true
  | String _ _ => false
  end.

(** White space and line terminators of ECMAScript among the code units
    below 256: TAB, LF, VT, FF, CR, SPACE and NBSP. *)
Definition is_white_space (c : ascii) : bool :=
  let n := Ascii.N_of_ascii c in
  ((n =? 9) || (n =? 10) || (n =? 11) || (n =? 12) || (n =? 13)
   || (n =? 32) || (n =? 160))%N.

Fixpoint trimStart (s : string) : string :=
  match s with
  | EmptyString => EmptyString
  | String c r => if is_white_space c then trimStart r else s
  end.

Fixpoint trimEnd (s : string) : string :=
  match s with
  | EmptyString => EmptyString
  | String c r =>
      match trimEnd r with
      | EmptyString =>
          if is_white_space c then EmptyString else String c EmptyString
      | String d r' => String c (String d r')
      end
  end.

(** [s.trim()] *)
Definition trim (s : string) : string := trimEnd (trimStart s).

(** [s.includes(c)] for a one-character pattern. *)
Fixpoint includes (c : ascii) (s : string) : bool :=
  match s with
  | EmptyString => false
  | String d r => Ascii.eqb d c || includes c r
  end.

(** [s.split(sep)] for a one-character separator: the pieces between the
    separators, the empty ones included; never the empty list. *)
Fixpoint split (sep : ascii) (s : string) : list string :=
  match s with
  | EmptyString => [EmptyString]
  | String c r =>
      if Ascii.eqb c sep then EmptyString :: split sep r
      else match split sep r with
           | piece :: pieces => String c piece :: pieces
           | [] => [String c EmptyString]
           end
  end.

(** [pieces.join(sep)] for a one-character separator. *)
Definition join (sep : ascii) (pieces : list string) : string :=
  String.concat (String sep EmptyString) pieces.

(** [s.indexOf(c)], with [None] for [-1]. *)
Fixpoint indexOf (c : ascii) (s : string) : option nat :=
  match s with
  | EmptyString => None
  | String d r =>
      if Ascii.eqb d c then Some 0%nat else S <$> indexOf c r
  end.

(** [s.substring(a)] and [s.substring(0, b)] for indices in range. *)
Fixpoint substring_from (a : nat) (s : string) : string :=
  match a, s with
  | O, _ => s
  | S a', String _ r => substring_from a' r
  | S _, EmptyString => EmptyString
  end.

Fixpoint substring_to (b : nat) (s : string) : string :=
  match b, s with
  | O, _ => EmptyString
  | S b', String c r => String c (substring_to b' r)
  | S _, EmptyString => EmptyString
  end.

(** Decimal rendering of a length inside a template literal. *)
Definition of_nat (n : nat) : string := pretty n.

(** [hay] contains [needle] as a contiguous run of characters. *)
Definition contains (needle hay : string) : Prop :=
  exists before after, hay = before +:+ needle +:+ after.

End JsString.

(** ** Types of [types/flashcard.ts], the reducer and the selectors *)

Module Flashcards.

(** [FLASHCARD_CONSTRAINTS], the entries the parser reads. *)
Definition PART_OF_SPEECH_MAX_LENGTH : nat := 50.
Definition EXAMPLE_SENTENCE_MAX_LENGTH : nat := 500.
Definition MAX_EXAMPLE_SENTENCES : nat := 5.

(** [interface Flashcard].  An optional property that is absent (or holds
    [undefined]) is [None]. *)
Record Flashcard := mkFlashcard {
  id : string;
  term : string;
  definition : string;
  mastered : bool;
  createdAt : string;
  partOfSpeech : option string;
  exampleSentences : option (list string);
}.

(** The type ['all' | 'needsReview'] of [CardState.filter]. *)
Inductive CardFilter := all | needsReview.

(** [interface CardState] *)
Record CardState := mkCardState {
  cards : list Flashcard;
  filter : CardFilter;
  currentCardIndex : Z;
}.

(** [Omit<Flashcard, 'id' | 'createdAt'>], the payload of [ADD_CARD]. *)
Record AddCardPayload := mkAddCardPayload {
  add_term : string;
  add_definition : string;
  add_mastered : bool;
  add_partOfSpeech : option string;
  add_exampleSentences : option (list string);
}.

(** [UpdateFlashcardInput], that is
    [Partial<Pick<Flashcard, 'term' | 'definition' | 'partOfSpeech' |
    'exampleSentences'>>].  Each property is absent ([None]) or provided
    with a value of the type the property has in [Flashcard]. *)
Record UpdateFlashcardInput := mkUpdateFlashcardInput {
  upd_term : option string;
  upd_definition : option string;
  upd_partOfSpeech : option (option string);
  upd_exampleSentences : option (option (list string));
}.

(** [type CardAction] *)
Inductive CardAction :=
| ADD_CARD (payload : AddCardPayload)
| UPDATE_CARD (id : string) (updates : UpdateFlashcardInput)
| DELETE_CARD (payload : string)
| TOGGLE_MASTERED (payload : string)
| SET_FILTER (payload : CardFilter)
| NAVIGATE (payload : Z)
| SHUFFLE_CARDS
| BULK_IMPORT (payload : list Flashcard)
| LOAD_CARDS (payload : list Flashcard).

(** A value of [Math.random()]: a fraction in the interval [0, 1). *)
Record UnitFraction := mkUnitFraction {
  numer : N;
  denom : N;
  below_one : (numer <? denom)%N = true;
}.

(** [Math.floor(r * n)], computed exactly. *)
Definition floor_scaled (r : UnitFraction) (n : nat) : nat :=
  N.to_nat (numer r * N.of_nat n / denom r).

(** What one call of the reducer reads from its surroundings:
    the result of [crypto.randomUUID()], of [new Date().toISOString()],
    and of the successive calls of [Math.random()]. *)
Record Ambient := mkAmbient {
  randomUUID : string;
  toISOString : string;
  random : nat → UnitFraction;
}.

Definition initialState : CardState :=
  {| cards := []; filter := all; currentCardIndex := 0 |}.

(** [{ ...action.payload, id: crypto.randomUUID(),
       createdAt: new Date().toISOString() }] *)
Definition newCard (env : Ambient) (payload : AddCardPayload) : Flashcard :=
  {| id := randomUUID env;
     term := add_term payload;
     definition := add_definition payload;
     mastered := add_mastered payload;
     createdAt := toISOString env;
     partOfSpeech := add_partOfSpeech payload;
     exampleSentences := add_exampleSentences payload |}.

(** [{ ...card, ...updates }]: a provided property replaces the card's. *)
Definition merge_updates (card : Flashcard) (updates : UpdateFlashcardInput)
  : Flashcard :=
  {| id := id card;
     term := default (term card) (upd_term updates);
     definition := default (definition card) (upd_definition updates);
     mastered := mastered card;
     createdAt := createdAt card;
     partOfSpeech := default (partOfSpeech card) (upd_partOfSpeech updates);
     exampleSentences :=
       default (exampleSentences card) (upd_exampleSentences updates) |}.

(** [{ ...card, mastered: !card.mastered }] *)
Definition toggle_mastered (card : Flashcard) : Flashcard :=
  {| id := id card;
     term := term card;
     definition := definition card;
     mastered := negb (mastered card);
     createdAt := createdAt card;
     partOfSpeech := partOfSpeech card;
     exampleSentences := exampleSentences card |}.

(** [[a[i], a[j]] = [a[j], a[i]]]: both reads come first, then [a[i]] and
    [a[j]] are written.  The loop of the shuffle only uses indices inside
    the array (lemma [shuffle_index_in_range]); outside it the list is
    left as it is. *)
Definition swap {A} (a : list A) (i j : nat) : list A :=
  match a !! j, a !! i with
  | Some aj, Some ai => <[j:=ai]> (<[i:=aj]> a)
  | _, _ => a
  end.

(** The loop [for (let i = n - 1; i > 0; i--)] of [SHUFFLE_CARDS];
    [calls] counts the calls of [Math.random()] made so far. *)
Fixpoint shuffle_loop {A} (rand : nat → UnitFraction) (calls : nat)
    (i : nat) (shuffled : list A) : list A :=
  match i with
  | O => shuffled
  | S i' =>
      let j := floor_scaled (rand calls) (i + 1) in
      shuffle_loop rand (S calls) i' (swap shuffled i j)
  end.

Definition shuffle {A} (rand : nat → UnitFraction) (l : list A) : list A :=
  shuffle_loop rand 0 (length l - 1) l.

Definition len {A} (l : list A) : Z := Z.of_nat (length l).

(** [function cardReducer(state, action)] *)
Definition cardReducer (env : Ambient) (state : CardState)
    (action : CardAction) : CardState :=
  match action with
  | ADD_CARD payload =>
      {| cards := cards state ++ [newCard env payload];
         filter := filter state;
         currentCardIndex := currentCardIndex state |}
  | UPDATE_CARD cid updates =>
      {| cards :=
           map (λ card,
                  if String.eqb (id card) cid
                  then merge_updates card updates
                  else card)
               (cards state);
         filter := filter state;
         currentCardIndex := currentCardIndex state |}
  | DELETE_CARD cardId =>
      let newCards :=
        List.filter (λ card, negb (String.eqb (id card) cardId))
                    (cards state) in
      let newIndex := currentCardIndex state in
      let newIndex :=
        if (newIndex >=? len newCards) && (len newCards >? 0)
        then len newCards - 1
        else if len newCards =? 0 then 0
        else newIndex in
      {| cards := newCards;
         filter := filter state;
         currentCardIndex := newIndex |}
  | TOGGLE_MASTERED cardId =>
      {| cards :=
           map (λ card,
                  if String.eqb (id card) cardId
                  then toggle_mastered card
                  else card)
               (cards state);
         filter := filter state;
         currentCardIndex := currentCardIndex state |}
  | SET_FILTER payload =>
      {| cards := cards state;
         filter := payload;
         currentCardIndex := 0 |}
  | NAVIGATE newIndex =>
      let maxIndex := len (cards state) - 1 in
      let clampedIndex := Z.max 0 (Z.min newIndex maxIndex) in
      {| cards := cards state;
         filter := filter state;
         currentCardIndex := clampedIndex |}
  | SHUFFLE_CARDS =>
      let shuffled := shuffle (random env) (cards state) in
      {| cards := shuffled;
         filter := filter state;
         currentCardIndex := 0 |}
  | BULK_IMPORT payload =>
      {| cards := cards state ++ payload;
         filter := filter state;
         currentCardIndex := currentCardIndex state |}
  | LOAD_CARDS payload =>
      {| cards := payload;
         filter := filter state;
         currentCardIndex := currentCardIndex state |}
  end.

(** The states the command set reaches from [initialState]. *)
Inductive reachable : CardState → Prop :=
| reachable_initial : reachable initialState
| reachable_step env state action :
    reachable state → reachable (cardReducer env state action).

(** [function getVisibleCards(state)] *)
Definition getVisibleCards (state : CardState) : list Flashcard :=
  match filter state with
  | needsReview => List.filter (λ card, negb (mastered card)) (cards state)
  | all => cards state
  end.

(** [a[i]] for a number [i] that holds an integer: [undefined] ([None])
    below zero and from the length on. *)
Definition array_get {A} (a : list A) (i : Z) : option A :=
  if i <? 0 then None else a !! Z.to_nat i.

(** [function getCurrentCard(state)]: [visibleCards[i] || null].  A card
    is an object, hence truthy; [None] is [null]. *)
Definition getCurrentCard (state : CardState) : option Flashcard :=
  let visibleCards := getVisibleCards state in
  match array_get visibleCards (currentCardIndex state) with
  | Some card => Some card
  | None => None
  end.

(** The cursor invariant of the data model:
    [0 <= currentCardIndex < max(1, visibleCards.length)]. *)
Definition cursor_in_view (state : CardState) : Prop :=
  0 <= currentCardIndex state < Z.max 1 (len (getVisibleCards state)).

End Flashcards.

(** ** [utils/bulkImport.ts]: the bulk import parser *)

Module BulkImport.
Import JsString Flashcards.

Definition MAX_VOCABULARY_LENGTH : nat := 100.
Definition MAX_MEANING_LENGTH : nat := 500.

Definition comma : ascii := ","%char.
Definition semicolon : ascii := ";"%char.
Definition pipe : ascii := "|"%char.
Definition newline : ascii := "010"%char.

(** An element of [BulkImportResult.failed]. *)
Record FailedEntry := mkFailedEntry {
  rawText : string;
  error : string;
}.

(** [interface BulkImportResult] *)
Record BulkImportResult := mkBulkImportResult {
  successful : list Flashcard;
  failed : list FailedEntry;
}.

(** The successive results of [crypto.randomUUID()] and of
    [new Date().toISOString()]; the parser calls each once per card. *)
Record Generators := mkGenerators {
  uuid_of_call : nat → string;
  instant_of_call : nat → string;
}.

(** What the body of the loop has in hand when it reaches
    [// Create flashcard]. *)
Record EntryFields := mkEntryFields {
  vocabulary : string;
  meaning : string;
  entry_partOfSpeech : option string;
  entry_exampleSentences : option (list string);
}.

(** [x && x.length > 0] for [x : string | undefined]. *)
Definition nonempty_string (x : option string) : bool :=
  match x with
  | Some s => negb (is_empty s) && (0 <? String.length s)%nat
  | None => false
  end.

(** [...(x && x.length > 0 && { x })]: the property is set only then. *)
Definition spread_if_nonempty (x : option string) : option string :=
  if nonempty_string x then x else None.

Definition missing_separator_error : string :=
  "Missing comma separator. Expected format: " +:+ dquote
  +:+ "vocabulary, meaning[, partOfSpeech[, examples]]" +:+ dquote.

Definition exceeds_error (what : string) (limit actual : nat) : string :=
  what +:+ " exceeds " +:+ of_nat limit +:+ " characters ("
  +:+ of_nat actual +:+ " chars)".

Definition too_many_examples_error (count : nat) : string :=
  "Too many examples (" +:+ of_nat count +:+ "). Maximum is "
  +:+ of_nat MAX_EXAMPLE_SENTENCES.

(** The body of the loop from [const parts = ...] on, for a non-empty
    [trimmedEntry]: [inl error] where the source pushes to [failed] and
    continues, [inr fields] where it goes on to create the card. *)
Definition check_entry (trimmedEntry : string) : string + EntryFields :=
  let parts := map trim (split comma trimmedEntry) in
  if (length parts <? 2)%nat then inl missing_separator_error
  else
    let vocabulary := nth 0 parts EmptyString in
    let meaning := nth 1 parts EmptyString in
    let partOfSpeech :=
      if (3 <=? length parts)%nat then Some (nth 2 parts EmptyString)
      else None in
    let examplesRaw :=
      if (4 <=? length parts)%nat then Some (trim (join comma (drop 3 parts)))
      else None in
    if is_empty vocabulary then inl "Vocabulary cannot be empty"
    else if (MAX_VOCABULARY_LENGTH <? String.length vocabulary)%nat then
      inl (exceeds_error "Vocabulary" MAX_VOCABULARY_LENGTH
             (String.length vocabulary))
    else if is_empty meaning then inl "Meaning cannot be empty"
    else if (MAX_MEANING_LENGTH <? String.length meaning)%nat then
      inl (exceeds_error "Meaning" MAX_MEANING_LENGTH (String.length meaning))
    else if nonempty_string partOfSpeech
            && (PART_OF_SPEECH_MAX_LENGTH
                <? String.length (default EmptyString partOfSpeech))%nat then
      inl (exceeds_error "Part of speech" PART_OF_SPEECH_MAX_LENGTH
             (String.length (default EmptyString partOfSpeech)))
    else if nonempty_string examplesRaw then
      let examples :=
        List.filter (λ ex, (0 <? String.length ex)%nat)
          (map trim (split pipe (default EmptyString examplesRaw))) in
      if (MAX_EXAMPLE_SENTENCES <? length examples)%nat then
        inl (too_many_examples_error (length examples))
      else
        match List.find
                (λ example,
                   (EXAMPLE_SENTENCE_MAX_LENGTH <? String.length example)%nat)
                examples with
        | Some example =>
            inl (exceeds_error "Example sentence" EXAMPLE_SENTENCE_MAX_LENGTH
                   (String.length example))
        | None =>
            inr {| vocabulary := vocabulary;
                   meaning := meaning;
                   entry_partOfSpeech := partOfSpeech;
                   entry_exampleSentences :=
                     if (0 <? length examples)%nat then Some examples
                     else None |}
        end
    else
      inr {| vocabulary := vocabulary;
             meaning := meaning;
             entry_partOfSpeech := partOfSpeech;
             entry_exampleSentences := None |}.

(** [const card: Flashcard = { id: crypto.randomUUID(), ... }] *)
Definition make_card (uuid instant : string) (fields : EntryFields)
  : Flashcard :=
  {| id := uuid;
     term := vocabulary fields;
     definition := meaning fields;
     mastered := false;
     createdAt := instant;
     partOfSpeech := spread_if_nonempty (entry_partOfSpeech fields);
     exampleSentences :=
       match entry_exampleSentences fields with
       | Some examples =>
           if (0 <? length examples)%nat then Some examples else None
       | None => None
       end |}.

(** [for (const entry of allEntries)]: [push] appends at the end; [calls]
    counts the cards created so far, each of which drew one uuid and one
    instant. *)
Fixpoint process_entries (gen : Generators) (allEntries : list string)
    (calls : nat) (successful : list Flashcard) (failed : list FailedEntry)
  : BulkImportResult :=
  match allEntries with
  | [] => {| successful := successful; failed := failed |}
  | entry :: rest =>
      let trimmedEntry := trim entry in
      if is_empty trimmedEntry then
        process_entries gen rest calls successful failed
      else
        match check_entry trimmedEntry with
        | inl message =>
            process_entries gen rest calls successful
              (failed ++ [{| rawText := trimmedEntry; error := message |}])
        | inr fields =>
            let card :=
              make_card (uuid_of_call gen calls) (instant_of_call gen calls)
                fields in
            process_entries gen rest (S calls) (successful ++ [card]) failed
        end
  end.

(** [export function parseBulkImportText(rawText)] *)
Definition parseBulkImportText (gen : Generators) (rawText : string)
  : BulkImportResult :=
  if is_empty rawText || (String.length (trim rawText) =? 0)%nat then
    {| successful := []; failed := [] |}
  else
    let hasNewlines := includes newline rawText in
    let allEntries :=
      if hasNewlines then split newline rawText
      else split semicolon rawText in
    process_entries gen allEntries 0 [] [].

End BulkImport.

(** ** The earlier version of [utils/bulkImport.ts], with two fields only *)

Module LegacyBulkImport.
Import JsString Flashcards.
Import BulkImport.

Definition missing_separator_error : string :=
  "Missing comma separator. Expected format: " +:+ dquote
  +:+ "vocabulary, meaning" +:+ dquote.

(** The body of the loop from [const commaIndex = ...] on: the entry is cut
    at its first comma only. *)
Definition check_entry (trimmedEntry : string) : string + (string * string) :=
  match indexOf comma trimmedEntry with
  | None => inl missing_separator_error
  | Some commaIndex =>
      let vocabulary := trim (substring_to commaIndex trimmedEntry) in
      let meaning := trim (substring_from (commaIndex + 1) trimmedEntry) in
      if is_empty vocabulary then inl "Vocabulary cannot be empty"
      else if (MAX_VOCABULARY_LENGTH <? String.length vocabulary)%nat then
        inl (exceeds_error "Vocabulary" MAX_VOCABULARY_LENGTH
               (String.length vocabulary))
      else if is_empty meaning then inl "Meaning cannot be empty"
      else if (MAX_MEANING_LENGTH <? String.length meaning)%nat then
        inl (exceeds_error "Meaning" MAX_MEANING_LENGTH
               (String.length meaning))
      else inr (vocabulary, meaning)
  end.

(** [for (const entry of allEntries)] of the earlier version. *)
Fixpoint process_entries (gen : Generators) (allEntries : list string)
    (calls : nat) (successful : list Flashcard) (failed : list FailedEntry)
  : BulkImportResult :=
  match allEntries with
  | [] => {| successful := successful; failed := failed |}
  | entry :: rest =>
      let trimmedEntry := trim entry in
      if is_empty trimmedEntry then
        process_entries gen rest calls successful failed
      else
        match check_entry trimmedEntry with
        | inl message =>
            process_entries gen rest calls successful
              (failed ++ [{| rawText := trimmedEntry; error := message |}])
        | inr (vocabulary, meaning) =>
            let card :=
              {| id := uuid_of_call gen calls;
                 term := vocabulary;
                 definition := meaning;
                 mastered := false;
                 createdAt := instant_of_call gen calls;
                 partOfSpeech := None;
                 exampleSentences := None |} in
            process_entries gen rest (S calls) (successful ++ [card]) failed
        end
  end.

(** [export function parseBulkImportText(rawText)] of the earlier version. *)
Definition parseBulkImportText (gen : Generators) (rawText : string)
  : BulkImportResult :=
  if is_empty rawText || (String.length (trim rawText) =? 0)%nat then
    {| successful := []; failed := [] |}
  else
    let hasNewlines := includes newline rawText in
    let allEntries :=
      if hasNewlines then split newline rawText
      else split semicolon rawText in
    process_entries gen allEntries 0 [] [].

End LegacyBulkImport.

(** ** Run-time objects *)

(** The declared types say what a well-typed caller passes; at run time a
    card, a payload and whatever [JSON.parse] returns are plain objects.
    This module has those objects, the reading of an object as a
    [Flashcard], and the object expressions of the reducer on them. *)

Module Runtime.
Import JsString Flashcards.

#[local] Set Warnings "-register-all".

(** A value: [undefined], or what [JSON.parse] can build.  An object is the
    list of its own properties in creation order, each key once. *)
Inductive JsValue :=
| JsUndefined
| JsNull
| JsBool (b : bool)
| JsNumber (n : Z)
| JsStr (s : string)
| JsArray (items : list JsValue)
| JsObject (props : list (string * JsValue)).

(** What a [try] block can catch in the persistence code. *)
Inductive Exception :=
| SyntaxError
| TypeError
| DOMException (name message : string)
| Error (message : string).

(** [props[key]] on the property list of an object. *)
Fixpoint get_prop (key : string) (props : list (string * JsValue)) : JsValue :=
  match props with
  | [] => JsUndefined
  | (k, v) :: rest => if String.eqb k key then v else get_prop key rest
  end.

(** [props[key] = v]: an existing property keeps its place. *)
Fixpoint set_prop (key : string) (v : JsValue)
    (props : list (string * JsValue)) : list (string * JsValue) :=
  match props with
  | [] => [(key, v)]
  | (k, w) :: rest =>
      if String.eqb k key then (k, v) :: rest
      else (k, w) :: set_prop key v rest
  end.

(** Sequencing of steps that may throw. *)
#[global] Instance exception_ret : MRet (sum Exception) := λ A a, inr a.
#[global] Instance exception_bind : MBind (sum Exception) :=
  λ A B f step, match step with inl e => inl e | inr a => f a end.

(** [value.key]: reading a property of [null] or [undefined] throws a
    [TypeError]; the keys read here are not defined on primitives and
    arrays. *)
Definition get (value : JsValue) (key : string) : Exception + JsValue :=
  match value with
  | JsUndefined | JsNull => inl TypeError
  | JsObject props => inr (get_prop key props)
  | _ => inr JsUndefined
  end.

(** Truthiness, as [&&], [!] and [filter] see a value. *)
Definition truthy (value : JsValue) : bool :=
  match value with
  | JsUndefined | JsNull => false
  | JsBool b => b
  | JsNumber n => negb (n =? 0)
  | JsStr s => negb (is_empty s)
  | JsArray _ | JsObject _ => true
  end.

Definition is_string (value : JsValue) : bool :=
  match value with JsStr _ => true | _ => false end.

Definition is_boolean (value : JsValue) : bool :=
  match value with JsBool _ => true | _ => false end.

(** Optional properties that are present. *)
Definition optional_props (pos : option string) (examples : option (list string))
  : list (string * JsValue) :=
  match pos with
  | Some p => [("partOfSpeech", JsStr p)]
  | None => []
  end
  ++ match examples with
     | Some exs => [("exampleSentences", JsArray (map JsStr exs))]
     | None => []
     end.

(** The object of a card, with the properties in the order of the
    interface; an optional property that is [None] is absent. *)
Definition card_to_js (card : Flashcard) : JsValue :=
  JsObject
    ([("id", JsStr (id card));
      ("term", JsStr (term card));
      ("definition", JsStr (definition card));
      ("mastered", JsBool (mastered card));
      ("createdAt", JsStr (createdAt card))]
     ++ optional_props (partOfSpeech card) (exampleSentences card)).

(** The object of a well-typed [ADD_CARD] payload. *)
Definition payload_to_js (payload : AddCardPayload) : list (string * JsValue) :=
  [("term", JsStr (add_term payload));
   ("definition", JsStr (add_definition payload));
   ("mastered", JsBool (add_mastered payload))]
  ++ optional_props (add_partOfSpeech payload) (add_exampleSentences payload).

Definition as_string (value : JsValue) : option string :=
  match value with JsStr s => Some s | _ => None end.

Definition as_boolean (value : JsValue) : option bool :=
  match value with JsBool b => Some b | _ => None end.

Definition as_optional_string (value : JsValue) : option (option string) :=
  match value with
  | JsUndefined => Some None
  | JsStr s => Some (Some s)
  | _ => None
  end.

Definition as_optional_strings (value : JsValue)
  : option (option (list string)) :=
  match value with
  | JsUndefined => Some None
  | JsArray items => Some <$> mapM as_string items
  | _ => None
  end.

(** Reading an object field by field as a [Flashcard]; [None] when a field
    does not have the type the interface gives it. *)
Definition card_of_js (value : JsValue) : option Flashcard :=
  match value with
  | JsObject props =>
      cid ← as_string (get_prop "id" props);
      t ← as_string (get_prop "term" props);
      d ← as_string (get_prop "definition" props);
      m ← as_boolean (get_prop "mastered" props);
      c ← as_string (get_prop "createdAt" props);
      p ← as_optional_string (get_prop "partOfSpeech" props);
      e ← as_optional_strings (get_prop "exampleSentences" props);
      Some {| id := cid; term := t; definition := d; mastered := m;
              createdAt := c; partOfSpeech := p; exampleSentences := e |}
  | _ => None
  end.

(** [{ ...action.payload, id: crypto.randomUUID(),
       createdAt: new Date().toISOString() }] of [ADD_CARD] on the payload
    object: the properties of the payload, then [id] and [createdAt]. *)
Definition newCard_object (payload : list (string * JsValue))
    (uuid instant : string) : list (string * JsValue) :=
  set_prop "createdAt" (JsStr instant) (set_prop "id" (JsStr uuid) payload).

End Runtime.

(** ** [hooks/useLocalStorage.ts] and the persistence effect of [CardProvider] *)

Module Storage.
Import JsString Flashcards Runtime.

Definition STORAGE_KEY : string := "flashcards-app-data".
Definition CURRENT_VERSION : string := "1.0".

(** The browser's side of [localStorage]: whether reading is refused, and
    whether writing a value under a key is refused given what is stored.
    A refusal is a [DOMException], given by its name and message. *)
Record Browser := mkBrowser {
  getItem_fault : option (string * string);
  setItem_fault : gmap string string → string → string → option (string * string);
}.

(** [localStorage.getItem(key)]; [None] is [null]. *)
Definition getItem (browser : Browser) (items : gmap string string)
    (key : string) : Exception + option string :=
  match getItem_fault browser with
  | Some (name, message) => inl (DOMException name message)
  | None => inr (items !! key)
  end.

(** [localStorage.setItem(key, value)]: a refused write throws and stores
    nothing. *)
Definition setItem (browser : Browser) (items : gmap string string)
    (key value : string) : Exception + gmap string string :=
  match setItem_fault browser items key value with
  | Some (name, message) => inl (DOMException name message)
  | None => inr (<[key:=value]> items)
  end.

(** [interface StorageSchema], as the object that [saveToLocalStorage]
    builds. *)
Definition schema_to_js (version : string) (cards : list Flashcard)
    (lastModified : string) : JsValue :=
  JsObject [("version", JsStr version);
            ("cards", JsArray (map card_to_js cards));
            ("lastModified", JsStr lastModified)].

Definition quota_message (count : nat) : string :=
  "Storage limit exceeded. You have too many flashcards. "
  +:+ "Please delete some cards or export your collection. "
  +:+ "(Current: " +:+ of_nat count +:+ " cards)".

Definition disabled_message : string :=
  "Browser storage is disabled. Your flashcards will not be saved. "
  +:+ "Please enable storage or check your browser privacy settings.".

(** The results of [JSON.stringify] and [JSON.parse] ([None]: the text is
    not JSON and [JSON.parse] throws a [SyntaxError]) are taken from the
    engine. *)
Section WithJson.
Variable stringify : JsValue → string.
Variable parse : string → option JsValue.

(** [data.version !== CURRENT_VERSION] is false for the string ["1.0"]
    only. *)
Definition is_current_version (version : JsValue) : bool :=
  match version with
  | JsStr s => String.eqb s CURRENT_VERSION
  | _ => false
  end.

(** [function migrateData(data)]: no migration exists, every other version
    is discarded. *)
Definition migrateData (data : JsValue) : list JsValue := [].

(** The callback of [data.cards.filter]: the truthiness of
    [card.id && typeof card.term === 'string' && ...].  Reading [card.id]
    throws when [card] is [null]. *)
Definition is_valid_card (card : JsValue) : Exception + bool :=
  cid ← get card "id";
  if negb (truthy cid) then inr false else
  t ← get card "term";
  if negb (is_string t) then inr false else
  d ← get card "definition";
  if negb (is_string d) then inr false else
  m ← get card "mastered";
  if negb (is_boolean m) then inr false else
  c ← get card "createdAt";
  inr (is_string c).

(** [data.cards.filter(...)], which stops at the first callback that
    throws. *)
Fixpoint filter_valid (cards : list JsValue) : Exception + list JsValue :=
  match cards with
  | [] => inr []
  | card :: rest =>
      isValid ← is_valid_card card;
      validCards ← filter_valid rest;
      inr (if (isValid : bool) then card :: validCards else validCards)
  end.

(** The [try] block of [loadFromLocalStorage]. *)
Definition load_attempt (browser : Browser) (items : gmap string string)
  : Exception + list JsValue :=
  raw ← getItem browser items STORAGE_KEY;
  match raw with
  | None => inr []
  | Some raw =>
      if is_empty raw then inr [] else
      data ← from_option inr (inl SyntaxError) (parse raw);
      version ← get data "version";
      if negb (is_current_version version) then inr (migrateData data) else
      cards ← get data "cards";
      match cards with
      | JsArray entries => filter_valid entries
      | _ => inr []
      end
  end.

(** [export function loadFromLocalStorage()], with the storage it leaves
    behind: after a [SyntaxError] the stored text is copied under a backup
    key named after [Date.now()], unless that write is refused too.  (The
    second [getItem] cannot throw: the first one returned the text.) *)
Definition loadFromLocalStorage (browser : Browser) (nowMs : Z)
    (items : gmap string string) : list JsValue * gmap string string :=
  match load_attempt browser items with
  | inr validCards => (validCards, items)
  | inl SyntaxError =>
      match getItem browser items STORAGE_KEY with
      | inr (Some raw) =>
          if is_empty raw then ([], items) else
          let backupKey := STORAGE_KEY +:+ "-corrupted-" +:+ pretty nowMs in
          match setItem browser items backupKey raw with
          | inr items' => ([], items')
          | inl backupError => ([], items)
          end
      | _ => ([], items)
      end
  | inl _ => ([], items)
  end.

(** [export function saveToLocalStorage(cards)], with the storage it leaves
    behind; [now] is [new Date().toISOString()]. *)
Definition saveToLocalStorage (browser : Browser) (now : string)
    (cards : list Flashcard) (items : gmap string string)
  : (Exception + unit) * gmap string string :=
  let data := schema_to_js CURRENT_VERSION cards now in
  let jsonString := stringify data in
  match setItem browser items STORAGE_KEY jsonString with
  | inr items' => (inr (), items')
  | inl error =>
      match error with
      | DOMException name _ =>
          if String.eqb name "QuotaExceededError" then
            (inl (Error (quota_message (length cards))), items)
          else if String.eqb name "SecurityError" then
            (inl (Error disabled_message), items)
          else (inl error, items)
      | _ => (inl error, items)
      end
  end.

(** What [CardProvider] holds: the state of the reducer, the storage, and
    the messages shown with [alert]. *)
Record Session := mkSession {
  state : CardState;
  stored : gmap string string;
  alerts : list string;
}.

Definition exception_message (error : Exception) : string :=
  match error with
  | SyntaxError => "SyntaxError"
  | TypeError => "TypeError"
  | DOMException _ message => message
  | Error message => message
  end.

(** The effect [useEffect(() => { try { saveToLocalStorage(state.cards) }
    catch (error) { ... alert(error.message) } }, [state.cards])]. *)
Definition persist_effect (browser : Browser) (now : string)
    (session : Session) : Session :=
  match saveToLocalStorage browser now (cards (state session))
          (stored session) with
  | (inr _, items') =>
      {| state := state session; stored := items';
         alerts := alerts session |}
  | (inl error, items') =>
      {| state := state session; stored := items';
         alerts := alerts session ++ [exception_message error] |}
  end.

End WithJson.

End Storage.

(** ** A JSON writer and reader for the values of this development *)

(** Used to run the persistence functions on examples: no white space, and
    only the escapes of the double quote and of the backslash. *)
Module ReferenceJson.
Import JsString Runtime.

Definition backslash : ascii := "092"%char.
Definition quote : ascii := "034"%char.

Fixpoint escape (s : string) : string :=
  match s with
  | EmptyString => EmptyString
  | String c r =>
      if Ascii.eqb c quote || Ascii.eqb c backslash
      then String backslash (String c (escape r))
      else String c (escape r)
  end.

Definition quoted (s : string) : string :=
  String quote (escape s) +:+ String quote EmptyString.

Fixpoint stringify (value : JsValue) : string :=
  match value with
  | JsUndefined | JsNull => "null"
  | JsBool true => "true"
  | JsBool false => "false"
  | JsNumber n => pretty n
  | JsStr s => quoted s
  | JsArray items => "[" +:+ join ","%char (map stringify items) +:+ "]"
  | JsObject props =>
      "{"
      +:+ join ","%char
            (map (λ prop, quoted prop.1 +:+ ":" +:+ stringify prop.2) props)
      +:+ "}"
  end.

(** The characters of a string literal after its opening quote. *)
Fixpoint read_string (s : string) : option (string * string) :=
  match s with
  | EmptyString => None
  | String c r =>
      if Ascii.eqb c quote then Some (EmptyString, r)
      else if Ascii.eqb c backslash then
        match r with
        | String d r' =>
            '(body, rest) ← read_string r'; Some (String d body, rest)
        | EmptyString => None
        end
      else '(body, rest) ← read_string r; Some (String c body, rest)
  end.

Fixpoint read_digits (s : string) (acc : Z) : Z * string :=
  match s with
  | String c r =>
      let n := Z.of_N (Ascii.N_of_ascii c) in
      if (48 <=? n) && (n <=? 57) then read_digits r (10 * acc + (n - 48))
      else (acc, s)
  | EmptyString => (acc, s)
  end.

Section Readers.
Variable read_value : string → option (JsValue * string).

(** The elements of an array after the first one. *)
Fixpoint read_more_items (fuel : nat) (s : string)
  : option (list JsValue * string) :=
  match fuel, s with
  | S fuel, String "]" r => Some ([], r)
  | S fuel, String "," r =>
      '(item, r') ← read_value r;
      '(items, r'') ← read_more_items fuel r';
      Some (item :: items, r'')
  | _, _ => None
  end.

(** The properties of an object after the first one. *)
Fixpoint read_more_props (fuel : nat) (s : string)
  : option (list (string * JsValue) * string) :=
  match fuel, s with
  | S fuel, String "}" r => Some ([], r)
  | S fuel, String "," (String "034" r) =>
      '(key, r1) ← read_string r;
      match r1 with
      | String ":" r2 =>
          '(value, r3) ← read_value r2;
          '(props, r4) ← read_more_props fuel r3;
          Some ((key, value) :: props, r4)
      | _ => None
      end
  | _, _ => None
  end.

End Readers.

Fixpoint read_value (fuel : nat) (s : string) : option (JsValue * string) :=
  match fuel with
  | O => None
  | S fuel =>
      match s with
      | String "n" (String "u" (String "l" (String "l" r))) =>
          Some (JsNull, r)
      | String "t" (String "r" (String "u" (String "e" r))) =>
          Some (JsBool true, r)
      | String "f" (String "a" (String "l" (String "s" (String "e" r)))) =>
          Some (JsBool false, r)
      | String "034" r =>
          '(body, rest) ← read_string r; Some (JsStr body, rest)
      | String "[" (String "]" r) => Some (JsArray [], r)
      | String "[" r =>
          '(item, r') ← read_value fuel r;
          '(items, r'') ← read_more_items (read_value fuel) fuel r';
          Some (JsArray (item :: items), r'')
      | String "{" (String "}" r) => Some (JsObject [], r)
      | String "{" (String "034" r) =>
          '(key, r1) ← read_string r;
          match r1 with
          | String ":" r2 =>
              '(value, r3) ← read_value fuel r2;
              '(props, r4) ← read_more_props (read_value fuel) fuel r3;
              Some (JsObject ((key, value) :: props), r4)
          | _ => None
          end
      | String "-" r =>
          let '(n, rest) := read_digits r 0 in Some (JsNumber (- n), rest)
      | String c _ =>
          let n := Z.of_N (Ascii.N_of_ascii c) in
          if (48 <=? n) && (n <=? 57) then
            let '(n, rest) := read_digits s 0 in Some (JsNumber n, rest)
          else None
      | EmptyString => None
      end
  end.

(** The whole text must be one value. *)
Definition parse (text : string) : option JsValue :=
  match read_value (String.length text) text with
  | Some (value, EmptyString) => Some value
  | _ => None
  end.

End ReferenceJson.

(** ** [getCardStats] of [utils/cardSelectors.ts] *)

Module Stats.
Import Flashcards.

(** What [getCardStats] returns. *)
Record CardStats := mkCardStats {
  total : nat;
  masteredCount : nat;
  needsReviewCount : nat;
  masteredPercentage : Z;
}.

(** [Math.round((mastered / total) * 100)] is floating-point arithmetic of
    the engine: it is taken as a function of the two counts. *)
Section WithRounding.
Variable round_percentage : nat → nat → Z.

(** [export function getCardStats(state)]; the field [mastered] of the
    result is [masteredCount] here, [needsReview] is [needsReviewCount]. *)
Definition getCardStats (state : CardState) : CardStats :=
  let total := length (cards state) in
  let mastered := length (List.filter (λ card, mastered card) (cards state)) in
  let needsReview := (total - mastered)%nat in
  let masteredPercentage :=
    if (0 <? total)%nat then round_percentage mastered total else 0 in
  {| total := total;
     masteredCount := mastered;
     needsReviewCount := needsReview;
     masteredPercentage := masteredPercentage |}.

End WithRounding.

End Stats.

(** ** [detectDuplicates] and [checkExistingDuplicates] of [utils/bulkImport.ts] *)

Module Duplicates.
Import JsString Flashcards.

(** [toLowerCase] on a code unit below 256: the letters A to Z and the
    capital letters from U+00C0 to U+00DE (U+00D7, the multiplication sign,
    is no letter) move up by 32. *)
Definition lower_char (c : ascii) : ascii :=
  let n := Ascii.N_of_ascii c in
  if ((65 <=? n) && (n <=? 90)
      || (192 <=? n) && (n <=? 222) && negb (n =? 215))%N
  then Ascii.ascii_of_N (n + 32)
  else c.

(** [s.toLowerCase()] *)
Fixpoint toLowerCase (s : string) : string :=
  match s with
  | EmptyString => EmptyString
  | String c r => String (lower_char c) (toLowerCase r)
  end.

(** The loop of [detectDuplicates]: [seen] is the [Map] from lower-case
    term to count, [seen.get(normalized) || 0] is the count or 0. *)
Fixpoint detect_loop (cards : list Flashcard) (seen : gmap string nat)
    (duplicates : list string) : list string :=
  match cards with
  | [] => duplicates
  | card :: rest =>
      let normalized := toLowerCase (term card) in
      let count := default 0%nat (seen !! normalized) in
      let duplicates :=
        if (count =? 1)%nat then duplicates ++ [term card] else duplicates in
      detect_loop rest (<[normalized:=(count + 1)%nat]> seen) duplicates
  end.

(** [export function detectDuplicates(cards)] *)
Definition detectDuplicates (cards : list Flashcard) : list string :=
  detect_loop cards ∅ [].

(** The loop of [checkExistingDuplicates] over [newCards]. *)
Fixpoint conflicts_loop (existingTerms : gset string)
    (newCards : list Flashcard) (conflicts : list string) : list string :=
  match newCards with
  | [] => conflicts
  | newCard :: rest =>
      let conflicts :=
        if bool_decide (toLowerCase (term newCard) ∈ existingTerms)
        then conflicts ++ [term newCard] else conflicts in
      conflicts_loop existingTerms rest conflicts
  end.

(** [export function checkExistingDuplicates(existingCards, newCards)] *)
Definition checkExistingDuplicates (existingCards newCards : list Flashcard)
  : list string :=
  let existingTerms : gset string :=
    list_to_set (map (λ card, toLowerCase (term card)) existingCards) in
  conflicts_loop existingTerms newCards [].

End Duplicates.

(** ** [clearAllData] and [isLocalStorageAvailable] of [hooks/useLocalStorage.ts] *)

Module StorageTools.
Import JsString Runtime Storage.

(** [localStorage.removeItem(key)]: it is refused when the browser refuses
    access to the storage, as reading is; removing an absent key does
    nothing. *)
Definition removeItem (browser : Browser) (items : gmap string string)
    (key : string) : Exception + gmap string string :=
  match getItem_fault browser with
  | Some (name, message) => inl (DOMException name message)
  | None => inr (delete key items)
  end.

(** The backup step of [clearAllData]; [nowMs] is [Date.now()].  When the
    read or the write is refused nothing has been written. *)
Definition backup_step (browser : Browser) (nowMs : Z)
    (items : gmap string string) : Exception + gmap string string :=
  raw ← getItem browser items STORAGE_KEY;
  match raw with
  | Some raw =>
      if is_empty raw then inr items else
      let backupKey := STORAGE_KEY +:+ "-backup-" +:+ pretty nowMs in
      setItem browser items backupKey raw
  | None => inr items
  end.

(** [export function clearAllData(createBackup = false)], as the storage it
    leaves behind: a throw in the backup step skips the removal; whatever is
    thrown is logged and dropped. *)
Definition clearAllData (browser : Browser) (nowMs : Z) (createBackup : bool)
    (items : gmap string string) : gmap string string :=
  match (if createBackup then backup_step browser nowMs items
         else inr items) with
  | inl _ => items
  | inr items' =>
      match removeItem browser items' STORAGE_KEY with
      | inl _ => items'
      | inr items'' => items''
      end
  end.

(** [export function isLocalStorageAvailable()], with the storage it leaves
    behind. *)
Definition isLocalStorageAvailable (browser : Browser)
    (items : gmap string string) : bool * gmap string string :=
  let testKey := "__storage_test__" in
  match setItem browser items testKey "test" with
  | inl _ => (false, items)
  | inr items' =>
      match removeItem browser items' testKey with
      | inl _ => (false, items')
      | inr items'' => (true, items'')
      end
  end.

End StorageTools.

(** ** Handlers of the components *)

(** The event handlers that call the reducer, the parser and the duplicate
    check: [StudyView], [BulkImport], [AddCardForm] and [CardLibrary].  A
    handler is a function of the component state it reads; what it does
    (the action it dispatches, the state it sets, the message it shows) is
    its result. *)

Module Components.
Import JsString Flashcards BulkImport Duplicates.

(** [dispatch(action)], and no dispatch at all. *)
Definition dispatch (env : Ambient) (state : CardState)
    (action : option CardAction) : CardState :=
  match action with
  | Some action => cardReducer env state action
  | None => state
  end.

(** [handleNext] of [StudyView]; [%] is the remainder of JavaScript, which
    takes the sign of the dividend. *)
Definition handleNext (state : CardState) : option CardAction :=
  let visibleCards := getVisibleCards state in
  if len visibleCards =? 0 then None
  else
    let nextIndex := Z.rem (currentCardIndex state + 1) (len visibleCards) in
    Some (NAVIGATE nextIndex).

(** [handlePrevious] of [StudyView] *)
Definition handlePrevious (state : CardState) : option CardAction :=
  let visibleCards := getVisibleCards state in
  if len visibleCards =? 0 then None
  else
    let prevIndex :=
      if currentCardIndex state =? 0 then len visibleCards - 1
      else currentCardIndex state - 1 in
    Some (NAVIGATE prevIndex).

(** What [handleImport] of [BulkImport] does: the action it dispatches if
    any, the result and the skipped terms it shows, and the text it leaves
    in the textarea. *)
Record ImportOutcome := mkImportOutcome {
  import_dispatched : option CardAction;
  import_result : BulkImportResult;
  import_skipped : list string;
  import_inputText : string;
}.

(** The callback of [result.successful.filter] with its [skipped.push]:
    the cards kept and the terms skipped, both in order. *)
Fixpoint separate_duplicates (existingTermsLowercase : gset string)
    (successful : list Flashcard) (skipped : list string)
  : list Flashcard * list string :=
  match successful with
  | [] => ([], skipped)
  | card :: rest =>
      let isDuplicate :=
        bool_decide (toLowerCase (term card) ∈ existingTermsLowercase) in
      if isDuplicate then
        separate_duplicates existingTermsLowercase rest (skipped ++ [term card])
      else
        let '(kept, skipped) :=
          separate_duplicates existingTermsLowercase rest skipped in
        (card :: kept, skipped)
  end.

(** [handleImport] of [BulkImport] *)
Definition handleImport (gen : Generators) (inputText : string)
    (state : CardState) : ImportOutcome :=
  if is_empty (trim inputText) then
    {| import_dispatched := None;
       import_result :=
         {| successful := [];
            failed := [{| rawText := EmptyString;
                          error := "Please enter some text to import" |}] |};
       import_skipped := [];
       import_inputText := inputText |}
  else
    let result := parseBulkImportText gen inputText in
    if (0 <? length (successful result))%nat then
      let existingTermsLowercase : gset string :=
        list_to_set (map (λ card, toLowerCase (term card)) (cards state)) in
      let '(cardsToImport, skipped) :=
        separate_duplicates existingTermsLowercase (successful result) [] in
      {| import_dispatched :=
           if (0 <? length cardsToImport)%nat
           then Some (BULK_IMPORT cardsToImport) else None;
         import_result :=
           {| successful := cardsToImport; failed := failed result |};
         import_skipped := skipped;
         import_inputText :=
           if (0 <? length cardsToImport)%nat then EmptyString
           else inputText |}
    else
      {| import_dispatched := None;
         import_result := result;
         import_skipped := [];
         import_inputText := inputText |}.

(** The state of [AddCardForm] that its handlers read. *)
Record AddFormState := mkAddFormState {
  form_word : string;
  form_meaning : string;
  form_partOfSpeech : string;
  form_exampleSentences : list string;
}.

(** [newErrors] of [validateForm]: a message per field, or none. *)
Record AddFormErrors := mkAddFormErrors {
  err_word : option string;
  err_meaning : option string;
  err_partOfSpeech : option string;
  err_examples : option string;
}.

Definition MAX_WORD_LENGTH : nat := 100.

Definition must_be_at_most (what : string) (limit : nat) : string :=
  what +:+ " must be " +:+ of_nat limit +:+ " characters or less".

(** [validateForm] of [AddCardForm]: the errors it sets. *)
Definition form_errors (form : AddFormState) : AddFormErrors :=
  {| err_word :=
       if is_empty (trim (form_word form)) then Some "Vocabulary is required"
       else if (MAX_WORD_LENGTH <? String.length (form_word form))%nat then
         Some (must_be_at_most "Vocabulary" MAX_WORD_LENGTH)
       else None;
     err_meaning :=
       if is_empty (trim (form_meaning form)) then Some "Meaning is required"
       else if (MAX_MEANING_LENGTH <? String.length (form_meaning form))%nat
       then Some (must_be_at_most "Meaning" MAX_MEANING_LENGTH)
       else None;
     err_partOfSpeech :=
       if (0 <? String.length (trim (form_partOfSpeech form)))%nat
          && (PART_OF_SPEECH_MAX_LENGTH
              <? String.length (form_partOfSpeech form))%nat
       then Some (must_be_at_most "Part of speech" PART_OF_SPEECH_MAX_LENGTH)
       else None;
     err_examples :=
       let nonEmptyExamples :=
         List.filter (λ ex, (0 <? String.length (trim ex))%nat)
           (form_exampleSentences form) in
       match List.find
               (λ example,
                  (EXAMPLE_SENTENCE_MAX_LENGTH <? String.length example)%nat)
               nonEmptyExamples with
       | Some _ =>
           Some (must_be_at_most "Each example" EXAMPLE_SENTENCE_MAX_LENGTH)
       | None => None
       end |}.

(** [validateForm]: [Object.keys(newErrors).length === 0]. *)
Definition validateForm (form : AddFormState) : bool :=
  match form_errors form with
  | {| err_word := None; err_meaning := None; err_partOfSpeech := None;
       err_examples := None |} => true
  | _ => false
  end.

(** [handleSubmit] of [AddCardForm]: the payload of the [ADD_CARD] it
    dispatches, or nothing when the form is not valid. *)
Definition handleSubmit (form : AddFormState) : option AddCardPayload :=
  if negb (validateForm form) then None
  else
    let filteredExamples :=
      List.filter (λ ex, (0 <? String.length ex)%nat)
        (map trim (form_exampleSentences form)) in
    Some {| add_term := trim (form_word form);
            add_definition := trim (form_meaning form);
            add_mastered := false;
            add_partOfSpeech :=
              if is_empty (trim (form_partOfSpeech form)) then None
              else Some (trim (form_partOfSpeech form));
            add_exampleSentences :=
              if (0 <? length filteredExamples)%nat
              then Some filteredExamples else None |}.

(** [handleAddExample] and [handleRemoveExample] of [AddCardForm], on the
    list of example inputs. *)
Definition handleAddExample (exampleSentences : list string) : list string :=
  if (length exampleSentences <? MAX_EXAMPLE_SENTENCES)%nat
  then exampleSentences ++ [EmptyString]
  else exampleSentences.

Definition handleRemoveExample (exampleSentences : list string) (index : nat)
  : list string :=
  if (1 <? length exampleSentences)%nat
  then delete index exampleSentences
  else [EmptyString].

(** [interface EditingCard] of [CardLibrary] *)
Record EditingCard := mkEditingCard {
  edit_id : string;
  edit_term : string;
  edit_definition : string;
  edit_partOfSpeech : option string;
  edit_exampleSentences : option (list string);
}.

(** [handleStartEdit], called with the fields of the card to edit. *)
Definition handleStartEdit (card : Flashcard) : EditingCard :=
  {| edit_id := id card;
     edit_term := term card;
     edit_definition := definition card;
     edit_partOfSpeech := partOfSpeech card;
     edit_exampleSentences :=
       match exampleSentences card with
       | Some examples =>
           if (0 <? length examples)%nat then Some examples
           else Some [EmptyString]
       | None => Some [EmptyString]
       end |}.

(** What [handleSaveEdit] does: nothing without a card in edit, an [alert]
    that leaves the editor open, or an [UPDATE_CARD] that closes it. *)
Inductive SaveEditOutcome :=
| NotEditing
| Alert (message : string)
| Dispatch (action : CardAction).

(** [handleSaveEdit] of [CardLibrary] *)
Definition handleSaveEdit (editingCard : option EditingCard)
  : SaveEditOutcome :=
  match editingCard with
  | None => NotEditing
  | Some editingCard =>
      let trimmedTerm := trim (edit_term editingCard) in
      let trimmedDefinition := trim (edit_definition editingCard) in
      let trimmedPartOfSpeech := trim <$> edit_partOfSpeech editingCard in
      let filteredExamples :=
        List.filter (λ ex, (0 <? String.length ex)%nat)
          (map trim (default [] (edit_exampleSentences editingCard))) in
      if is_empty trimmedTerm || is_empty trimmedDefinition then
        Alert "Both vocabulary and meaning are required"
      else if (100 <? String.length trimmedTerm)%nat then
        Alert "Vocabulary must be 100 characters or less"
      else if (500 <? String.length trimmedDefinition)%nat then
        Alert "Meaning must be 500 characters or less"
      else if nonempty_string trimmedPartOfSpeech
              && (PART_OF_SPEECH_MAX_LENGTH
                  <? String.length (default EmptyString trimmedPartOfSpeech))%nat
      then Alert (must_be_at_most "Part of speech" PART_OF_SPEECH_MAX_LENGTH)
      else
        match List.find
                (λ example,
                   (EXAMPLE_SENTENCE_MAX_LENGTH <? String.length example)%nat)
                filteredExamples with
        | Some _ =>
            Alert (must_be_at_most "Each example" EXAMPLE_SENTENCE_MAX_LENGTH)
        | None =>
            Dispatch
              (UPDATE_CARD (edit_id editingCard)
                 {| upd_term := Some trimmedTerm;
                    upd_definition := Some trimmedDefinition;
                    upd_partOfSpeech :=
                      if nonempty_string trimmedPartOfSpeech
                      then Some trimmedPartOfSpeech else None;
                    upd_exampleSentences :=
                      if (0 <? length filteredExamples)%nat
                      then Some (Some filteredExamples) else None |})
        end
  end.

End Components.

Import JsString Flashcards BulkImport Runtime Storage.

(** ** Notions used in the statements *)

(** A string of white space only (the empty string included). *)
Fixpoint all_white (s : string) : bool :=
  match s with
  | EmptyString => true
  | String c r => is_white_space c && all_white r
  end.

(** How one line fares as an entry of the bulk import: it is skipped, it is
    reported in [failed], or it yields the fields of a card. *)
Inductive LineVerdict :=
| Blank
| Malformed (failure : FailedEntry)
| WellFormed (fields : EntryFields).

Definition line_verdict (line : string) : LineVerdict :=
  let trimmedEntry := trim line in
  if is_empty trimmedEntry then Blank
  else match check_entry trimmedEntry with
       | inl message =>
           Malformed {| rawText := trimmedEntry; error := message |}
       | inr fields => WellFormed fields
       end.

Definition accepted_fields (lines : list string) : list EntryFields :=
  omap (λ line, match line_verdict line with
                | WellFormed fields => Some fields
                | _ => None
                end) lines.

Definition rejected_entries (lines : list string) : list FailedEntry :=
  omap (λ line, match line_verdict line with
                | Malformed failure => Some failure
                | _ => None
                end) lines.

(** The cards made from a list of fields when [calls] cards were made
    before: the k-th takes the uuid and the instant of call [calls + k]. *)
Definition cards_from (gen : Generators) (calls : nat)
    (fields : list EntryFields) : list Flashcard :=
  imap (λ k f, make_card (uuid_of_call gen (calls + k))
                         (instant_of_call gen (calls + k)) f) fields.

(** ** Sample data *)

Definition numbered (gen_prefix : string) (k : nat) : string :=
  gen_prefix +:+ pretty k.

Definition sample_generators : Generators :=
  {| uuid_of_call := numbered "uuid-";
     instant_of_call := numbered "instant-" |}.

(** The card that the parser makes of a two-field entry at call [k]. *)
Definition plain_entry_card (k : nat) (t d : string) : Flashcard :=
  {| id := numbered "uuid-" k; term := t; definition := d; mastered := false;
     createdAt := numbered "instant-" k;
     partOfSpeech := None; exampleSentences := None |}.

(** A payload object without the property [mastered]. *)
Definition payload_without_mastered : list (string * JsValue) :=
  [("term", JsStr "apple"); ("definition", JsStr "fruit")].

(** A browser that accepts every read and write, and one whose storage is
    full. *)
Definition willing_browser : Browser :=
  {| getItem_fault := None; setItem_fault := λ _ _ _, None |}.

Definition full_browser : Browser :=
  {| getItem_fault := None;
     setItem_fault := λ _ _ _,
       Some ("QuotaExceededError", "The quota has been exceeded.") |}.


Definition zero_fraction : UnitFraction :=
  {| numer := 0; denom := 1; below_one := eq_refl |}.

Definition ambient (uuid : string) : Ambient :=
  {| randomUUID := uuid;
     toISOString := "2024-01-01T00:00:00.000Z";
     random := λ _, zero_fraction |}.

Definition plain_card (cid t d : string) (m : bool) : Flashcard :=
  {| id := cid; term := t; definition := d; mastered := m;
     createdAt := "2024-01-01T00:00:00.000Z";
     partOfSpeech := None; exampleSentences := None |}.

Definition plain_payload (t d : string) : AddCardPayload :=
  {| add_term := t; add_definition := d; add_mastered := false;
     add_partOfSpeech := None; add_exampleSentences := None |}.

(** One mastered card followed by one card that needs review, seen through
    the [needsReview] filter. *)
Definition review_state : CardState :=
  {| cards := [plain_card "id-a" "apple" "fruit" true;
               plain_card "id-b" "book" "reading material" false];
     filter := needsReview;
     currentCardIndex := 0 |}.

(** Add two cards, show only the cards that need review, go to the second
    card and mark it as mastered. *)
Definition study_session : list (Ambient * CardAction) :=
  [(ambient "id-a", ADD_CARD (plain_payload "apple" "fruit"));
   (ambient "id-b", ADD_CARD (plain_payload "book" "reading material"));
   (ambient "none", SET_FILTER needsReview);
   (ambient "none", NAVIGATE 1);
   (ambient "none", TOGGLE_MASTERED "id-b")].

Definition run (steps : list (Ambient * CardAction)) (state : CardState)
  : CardState :=
  foldl (λ s step, cardReducer step.1 s step.2) state steps.

(** ** More notions and sample data *)

Import Stats Duplicates StorageTools Components.

Definition is_load (action : CardAction) : bool :=
  match action with
  | LOAD_CARDS _ => true
  | _ => false
  end.

(** The states reached from [start] by actions other than [LOAD_CARDS],
    which no component dispatches. *)
Inductive reachable_from (start : CardState) : CardState → Prop :=
| reachable_from_start : reachable_from start start
| reachable_from_step env state action :
    reachable_from start state →
    is_load action = false →
    reachable_from start (cardReducer env state action).

(** The cursor is an index into the whole list (0 for an empty list). *)
Definition cursor_in_cards (state : CardState) : Prop :=
  0 <= currentCardIndex state < Z.max 1 (len (cards state)).

(** The state under another filter. *)
Definition with_filter (f : CardFilter) (state : CardState) : CardState :=
  {| cards := cards state; filter := f;
     currentCardIndex := currentCardIndex state |}.

(** How often a key occurs in a list of keys. *)
Definition occurrences (key : string) (keys : list string) : nat :=
  length (List.filter (String.eqb key) keys).

(** The lower-case terms of a list of cards. *)
Definition lower_terms (cards : list Flashcard) : list string :=
  map (λ card, toLowerCase (term card)) cards.

(** The limits that the parser and the forms check. *)
Definition within_limits (t d : string) (pos : option string)
    (examples : option (list string)) : Prop :=
  is_empty t = false ∧ (String.length t <= 100)%nat
  ∧ is_empty d = false ∧ (String.length d <= 500)%nat
  ∧ (∀ p, pos = Some p →
       is_empty p = false ∧ (String.length p <= 50)%nat)
  ∧ (∀ exs, examples = Some exs →
       exs ≠ []
       ∧ Forall (λ ex, is_empty ex = false ∧ (String.length ex <= 500)%nat)
           exs).

(** A card whose texts are trimmed. *)
Definition trimmed_card (card : Flashcard) : Prop :=
  trim (term card) = term card
  ∧ trim (definition card) = definition card
  ∧ (∀ p, partOfSpeech card = Some p → trim p = p)
  ∧ (∀ exs, exampleSentences card = Some exs → Forall (λ ex, trim ex = ex) exs).

(** The entries that the parser loops over. *)
Definition entries_of (rawText : string) : list string :=
  if includes newline rawText then split newline rawText
  else split semicolon rawText.

(** The card of an entry that is cut at every comma: the term is the
    trimmed text before the first comma, the definition the trimmed text
    between the first comma and the second (or the end); the trimmed text
    after the second comma, up to the third, is the part of speech, which
    the card lacks when that text is empty; with at most two commas the card
    has no example sentences. *)
Definition cut_at_commas (entry : string) (card : Flashcard) : Prop :=
  ∃ first second rest,
    split comma (trim entry) = first :: second :: rest
    ∧ trim entry = join comma (first :: second :: rest)
    ∧ Forall (λ piece, includes comma piece = false) (first :: second :: rest)
    ∧ term card = trim first
    ∧ definition card = trim second
    ∧ includes comma (definition card) = false
    ∧ partOfSpeech card
      = match rest with
        | third :: _ =>
            if is_empty (trim third) then None else Some (trim third)
        | [] => None
        end
    ∧ ((length rest <= 1)%nat → exampleSentences card = None)
    ∧ mastered card = false.

(** The check that [loadFromLocalStorage] makes on an entry that is
    neither [null] nor [undefined]. *)
Definition valid_entry (entry : JsValue) : bool :=
  match entry with
  | JsObject props =>
      truthy (get_prop "id" props)
      && is_string (get_prop "term" props)
      && is_string (get_prop "definition" props)
      && is_boolean (get_prop "mastered" props)
      && is_string (get_prop "createdAt" props)
  | _ => false
  end.

Definition is_nullish (value : JsValue) : bool :=
  match value with
  | JsUndefined | JsNull => true
  | _ => false
  end.

(** The key of the copy that [loadFromLocalStorage] makes of a corrupted
    text, and of the backup of [clearAllData]. *)
Definition corrupted_key (nowMs : Z) : string :=
  STORAGE_KEY +:+ "-corrupted-" +:+ pretty nowMs.

Definition backup_key (nowMs : Z) : string :=
  STORAGE_KEY +:+ "-backup-" +:+ pretty nowMs.

(** An envelope of the current version around a list of entries. *)
Definition envelope_of (entries : list JsValue) : JsValue :=
  JsObject [("version", JsStr CURRENT_VERSION);
            ("cards", JsArray entries);
            ("lastModified", JsStr "2024-01-02T00:00:00.000Z")].

Definition sample_round (mastered total : nat) : Z :=
  (200 * Z.of_nat mastered + Z.of_nat total) / (2 * Z.of_nat total).

Definition refusing_browser : Browser :=
  {| getItem_fault := Some ("SecurityError", "The operation is insecure.");
     setItem_fault := λ _ _ _,
       Some ("SecurityError", "The operation is insecure.") |}.

Definition rich_card : Flashcard :=
  {| id := "id-1"; term := "eloquent"; definition := "fluent and persuasive";
     mastered := true; createdAt := "2024-01-01T00:00:00.000Z";
     partOfSpeech := Some "adjective";
     exampleSentences := Some ["An eloquent speech"; "So eloquent"] |}.

(** * Properties *)

(** ** The reducer *)

Lemma len_nonneg {A} (l : list A) : 0 <= len l.
Proof. unfold len. lia. Qed.

Lemma run_reachable steps state : reachable state → reachable (run steps state).
Proof.
  revert state. induction steps as [|[env action] steps IH]; intros state Hs.
  - exact Hs.
  - apply IH. by constructor.
Qed.

(** What [NAVIGATE] does: it clamps against the length of [cards], the
    active filter plays no part. *)
Lemma navigate_clamps_on_cards env state target :
  cardReducer env state (NAVIGATE target)
  = {| cards := cards state;
       filter := filter state;
       currentCardIndex := Z.max 0 (Z.min target (len (cards state) - 1)) |}.
Proof. reflexivity. Qed.

Lemma navigate_within_cards env state target :
  let i := currentCardIndex (cardReducer env state (NAVIGATE target)) in
  0 <= i < Z.max 1 (len (cards state)).
Proof. simpl. pose proof (len_nonneg (cards state)). lia. Qed.

(** Under the filter [all] the view is the whole list, and [NAVIGATE] clamps
    into the view. *)
Lemma navigate_clamps_in_view_all env state target :
  filter state = all →
  currentCardIndex (cardReducer env state (NAVIGATE target))
  = Z.max 0 (Z.min target (len (getVisibleCards state) - 1)).
Proof. intros Hf. unfold getVisibleCards. rewrite Hf. reflexivity. Qed.

(** [getCurrentCard] outside and inside the view. *)
Lemma getCurrentCard_outside state :
  len (getVisibleCards state) <= currentCardIndex state
  ∨ currentCardIndex state < 0 →
  getCurrentCard state = None.
Proof.
  unfold getCurrentCard, array_get, len. intros Hout.
  destruct (Z.ltb_spec (currentCardIndex state) 0); [done|].
  rewrite lookup_ge_None_2; [done|lia].
Qed.

Lemma getCurrentCard_inside state :
  0 <= currentCardIndex state < len (getVisibleCards state) →
  ∃ card, getVisibleCards state !! Z.to_nat (currentCardIndex state) = Some card
          ∧ getCurrentCard state = Some card.
Proof.
  unfold getCurrentCard, array_get, len. intros [H0 Hlt].
  destruct (Z.ltb_spec (currentCardIndex state) 0); [lia|].
  destruct (lookup_lt_is_Some_2 (getVisibleCards state)
              (Z.to_nat (currentCardIndex state)) ltac:(lia)) as [c Hc].
  exists c. by rewrite Hc.
Qed.

(** C1 (the code departs from the claim).  Whenever the filter shows at
    least one card and hides at least one, [NAVIGATE] to the last index of
    the whole list stores that index as it is: it is not the target clamped
    into the view, it lies past the view, and the current card is gone
    although the view is not empty. *)
Theorem navigate_ignores_filter env state :
  0 < len (getVisibleCards state) < len (cards state) →
  let target := len (cards state) - 1 in
  let state' := cardReducer env state (NAVIGATE target) in
  currentCardIndex state' = target
  ∧ Z.max 0 (Z.min target (len (getVisibleCards state) - 1))
    = len (getVisibleCards state) - 1
  ∧ currentCardIndex state'
    ≠ Z.max 0 (Z.min target (len (getVisibleCards state) - 1))
  ∧ getVisibleCards state' = getVisibleCards state
  ∧ len (getVisibleCards state') <= currentCardIndex state'
  ∧ getCurrentCard state' = None.
Proof.
  intros [Hshown Hhidden]. cbv zeta.
  assert (Hstored :
    currentCardIndex (cardReducer env state (NAVIGATE (len (cards state) - 1)))
    = len (cards state) - 1) by (simpl; lia).
  assert (Hview :
    getVisibleCards (cardReducer env state (NAVIGATE (len (cards state) - 1)))
    = getVisibleCards state) by reflexivity.
  split; [exact Hstored|]. split; [lia|]. split; [lia|].
  split; [exact Hview|]. split.
  - rewrite Hview, Hstored. lia.
  - apply getCurrentCard_outside. left. rewrite Hview, Hstored. lia.
Qed.

(** In [review_state] the view holds one card of two: the target 1 clamped
    into the view is 0, the reducer stores 1. *)
Lemma navigate_ignores_filter_witness :
  let state' := cardReducer (ambient "none") review_state (NAVIGATE 1) in
  currentCardIndex state' = 1
  ∧ Z.max 0 (Z.min 1 (len (getVisibleCards review_state) - 1)) = 0
  ∧ currentCardIndex state' ≠ 0
  ∧ getVisibleCards state'
    = [plain_card "id-b" "book" "reading material" false]
  ∧ len (getVisibleCards state') <= currentCardIndex state'
  ∧ getCurrentCard state' = None.
Proof.
  apply (navigate_ignores_filter (ambient "none") review_state).
  vm_compute. split; reflexivity.
Defined.

(** C2 (the code departs from the claim).  The state after [study_session]
    is reachable and has its cursor at 1 while a single card is visible. *)
Theorem cursor_invariant_broken :
  let state := run study_session initialState in
  reachable state
  ∧ currentCardIndex state = 1
  ∧ len (getVisibleCards state) = 1
  ∧ ¬ cursor_in_view state.
Proof.
  split; [|split; [|split]].
  - apply run_reachable. constructor.
  - reflexivity.
  - reflexivity.
  - unfold cursor_in_view. vm_compute. intros [_ H]. discriminate H.
Qed.

(** The same happens without any change of the cards, by [NAVIGATE] under
    the filter: the target 1 is inside the list and outside the view. *)
Lemma cursor_invariant_broken_by_navigate :
  let state :=
    run [(ambient "id-a", ADD_CARD (plain_payload "apple" "fruit"));
         (ambient "id-b", ADD_CARD (plain_payload "book" "reading material"));
         (ambient "none", TOGGLE_MASTERED "id-a");
         (ambient "none", SET_FILTER needsReview);
         (ambient "none", NAVIGATE 1)] initialState in
  reachable state ∧ ¬ cursor_in_view state.
Proof.
  split.
  - apply run_reachable. constructor.
  - unfold cursor_in_view. vm_compute. intros [_ H]. discriminate H.
Qed.

(** Replacing the list does not move the cursor either. *)
Lemma cursor_invariant_broken_by_load :
  let state :=
    run [(ambient "none", LOAD_CARDS [plain_card "id-a" "apple" "fruit" false;
                                  plain_card "id-b" "book" "paper" false]);
         (ambient "none", NAVIGATE 1);
         (ambient "none", LOAD_CARDS [])] initialState in
  reachable state ∧ ¬ cursor_in_view state.
Proof.
  split.
  - apply run_reachable. constructor.
  - unfold cursor_in_view. vm_compute. intros [_ H]. discriminate H.
Qed.

(** What does hold in every reachable state: the cursor is not negative. *)
Lemma reachable_cursor_nonneg state :
  reachable state → 0 <= currentCardIndex state.
Proof.
  induction 1 as [|env state action _ IH]; [done|].
  destruct action; simpl; try done; try lia.
  pose proof (len_nonneg
                (List.filter (λ card, negb (String.eqb (id card) payload))
                   (cards state))).
  repeat case_match; lia.
Qed.

(** C3 (as amended).  [ADD_CARD] appends exactly one card after the cards
    that were there, which stay as they were and in their order; the new card
    takes every field of the payload, its [mastered] flag included, and the
    generated [id] and [createdAt]; filter and cursor stay. *)
Theorem add_card_appends env state payload :
  let state' := cardReducer env state (ADD_CARD payload) in
  cards state' = cards state ++ [newCard env payload]
  ∧ length (cards state') = S (length (cards state))
  ∧ take (length (cards state)) (cards state') = cards state
  ∧ last (cards state') = Some (newCard env payload)
  ∧ mastered (newCard env payload) = add_mastered payload
  ∧ term (newCard env payload) = add_term payload
  ∧ definition (newCard env payload) = add_definition payload
  ∧ id (newCard env payload) = randomUUID env
  ∧ createdAt (newCard env payload) = toISOString env
  ∧ filter state' = filter state
  ∧ currentCardIndex state' = currentCardIndex state.
Proof.
  simpl. repeat split.
  - rewrite length_app. simpl. lia.
  - by rewrite take_app_length.
  - by rewrite last_snoc.
Qed.

(** ** [UPDATE_CARD] *)

Lemma update_card_lookup env state cid updates k :
  cards (cardReducer env state (UPDATE_CARD cid updates)) !! k
  = (λ card, if String.eqb (id card) cid
             then merge_updates card updates else card) <$> cards state !! k.
Proof. simpl. apply list_lookup_fmap. Qed.

(** C4.  [UPDATE_CARD] keeps filter, cursor and the number of cards; a card
    with another id is unchanged; a card with the given id takes exactly the
    provided fields among term, definition, partOfSpeech and
    exampleSentences and keeps the others, its id, createdAt and mastered
    included; when no card has the id the state is unchanged. *)
Theorem update_card_frame env state cid updates :
  let state' := cardReducer env state (UPDATE_CARD cid updates) in
  filter state' = filter state
  ∧ currentCardIndex state' = currentCardIndex state
  ∧ length (cards state') = length (cards state)
  ∧ (∀ k card, cards state !! k = Some card →
       ∃ card', cards state' !! k = Some card'
         ∧ (id card ≠ cid → card' = card)
         ∧ (id card = cid →
              id card' = id card
              ∧ createdAt card' = createdAt card
              ∧ mastered card' = mastered card
              ∧ term card' = default (term card) (upd_term updates)
              ∧ definition card'
                = default (definition card) (upd_definition updates)
              ∧ partOfSpeech card'
                = default (partOfSpeech card) (upd_partOfSpeech updates)
              ∧ exampleSentences card'
                = default (exampleSentences card)
                          (upd_exampleSentences updates)))
  ∧ ((∀ card, card ∈ cards state → id card ≠ cid) → state' = state).
Proof.
  cbv zeta. split; [reflexivity|]. split; [reflexivity|].
  split; [simpl; apply length_map|]. split.
  - intros k card Hk. rewrite update_card_lookup, Hk. simpl.
    destruct (String.eqb_spec (id card) cid) as [Heq|Hne].
    + eexists. split; [reflexivity|]. split; [congruence|].
      intros _. repeat split.
    + eexists. split; [reflexivity|]. split; [reflexivity|]. congruence.
  - intros Hnone. destruct state as [cs f i]. simpl in *. f_equal.
    induction cs as [|c cs IH]; [reflexivity|]. simpl.
    destruct (String.eqb_spec (id c) cid) as [Heq|Hne].
    + exfalso. apply (Hnone c); [left|exact Heq].
    + f_equal. apply IH. intros c' Hc'. apply Hnone. by right.
Qed.

Lemma update_card_frame_witness :
  let updates :=
    {| upd_term := Some "tome"; upd_definition := None;
       upd_partOfSpeech := Some (Some "noun");
       upd_exampleSentences := None |} in
  cardReducer (ambient "none") review_state (UPDATE_CARD "id-z" updates)
  = review_state
  ∧ ∃ card',
      cards (cardReducer (ambient "none") review_state
               (UPDATE_CARD "id-b" updates)) !! 1%nat = Some card'
      ∧ id card' = "id-b"
      ∧ mastered card' = false
      ∧ term card' = "tome"
      ∧ definition card' = "reading material"
      ∧ partOfSpeech card' = Some "noun".
Proof.
  cbv zeta. split.
  - apply update_card_frame. intros card Hin.
    apply list_elem_of_In in Hin. simpl in Hin.
    destruct Hin as [<-|[<-|[]]]; discriminate.
  - destruct (update_card_frame (ambient "none") review_state "id-b"
                {| upd_term := Some "tome"; upd_definition := None;
                   upd_partOfSpeech := Some (Some "noun");
                   upd_exampleSentences := None |})
      as (_ & _ & _ & Hcards & _).
    destruct (Hcards 1%nat (plain_card "id-b" "book" "reading material" false)
                eq_refl) as (card' & Hlook & _ & Hsame).
    destruct (Hsame eq_refl) as (Hid & _ & Hm & Ht & Hd & Hp & _).
    exists card'. repeat split; assumption.
Defined.

(** ** [SHUFFLE_CARDS] *)

Lemma floor_scaled_lt r n : (0 < n)%nat → (floor_scaled r n < n)%nat.
Proof.
  intros Hn. unfold floor_scaled.
  pose proof (below_one r) as Hr. apply N.ltb_lt in Hr.
  assert (numer r * N.of_nat n / denom r < N.of_nat n)%N; [|lia].
  apply N.Div0.div_lt_upper_bound. nia.
Qed.

(** The index drawn in an iteration of the loop lies in [0, i]. *)
Lemma shuffle_index_in_range r i : (floor_scaled r (i + 1) <= i)%nat.
Proof. pose proof (floor_scaled_lt r (i + 1)). lia. Qed.

Lemma swap_length {A} (a : list A) i j : length (swap a i j) = length a.
Proof.
  unfold swap. destruct (a !! j), (a !! i); try reflexivity.
  by rewrite !length_insert.
Qed.

(** Inside the array the destructuring assignment exchanges two entries. *)
Lemma swap_in_range {A} (a : list A) i j :
  (i < length a)%nat → (j <= i)%nat →
  ∃ ai aj, a !! i = Some ai ∧ a !! j = Some aj
           ∧ swap a i j = <[j:=ai]> (<[i:=aj]> a).
Proof.
  intros Hi Hj.
  destruct (lookup_lt_is_Some_2 a i Hi) as [ai Hai].
  destruct (lookup_lt_is_Some_2 a j ltac:(lia)) as [aj Haj].
  exists ai, aj. unfold swap. by rewrite Hai, Haj.
Qed.

Lemma swap_Permutation {A} (a : list A) i j : swap a i j ≡ₚ a.
Proof.
  unfold swap.
  destruct (a !! j) as [aj|] eqn:Hj; [|reflexivity].
  destruct (a !! i) as [ai|] eqn:Hi; [|reflexivity].
  by apply Permutation_insert_swap.
Qed.

Lemma shuffle_loop_Permutation {A} rand calls i (a : list A) :
  shuffle_loop rand calls i a ≡ₚ a.
Proof.
  revert calls a. induction i as [|i IH]; intros calls a; simpl.
  - reflexivity.
  - rewrite IH. apply swap_Permutation.
Qed.

(** No iteration of the loop leaves the array: [j <= i < length]. *)
Lemma shuffle_loop_stays_inside {A} rand calls i (a : list A) :
  (i < length a)%nat →
  ∀ k, (k < i)%nat →
    (floor_scaled (rand (calls + k)%nat) (i - k + 1) <= i - k)%nat
    ∧ (i - k < length a)%nat.
Proof. intros Hi k Hk. split; [apply shuffle_index_in_range|lia]. Qed.

(** C5.  After [SHUFFLE_CARDS], whatever [Math.random()] returned, the cards
    are a permutation of the cards before (so are their ids, and every record
    is one of the records before) and the cursor is 0. *)
Theorem shuffle_permutes env state :
  let state' := cardReducer env state SHUFFLE_CARDS in
  cards state' ≡ₚ cards state
  ∧ map id (cards state') ≡ₚ map id (cards state)
  ∧ length (cards state') = length (cards state)
  ∧ (∀ card, card ∈ cards state' ↔ card ∈ cards state)
  ∧ currentCardIndex state' = 0
  ∧ filter state' = filter state.
Proof.
  assert (Hp : shuffle (random env) (cards state) ≡ₚ cards state)
    by apply shuffle_loop_Permutation.
  simpl. split; [exact Hp|]. split; [by apply fmap_Permutation|].
  split; [by apply Permutation_length|].
  split; [intros card; by rewrite Hp|]. split; reflexivity.
Qed.

(** ** [getCurrentCard] *)

(** C10.  [getCurrentCard] returns [null] whenever the cursor is at or past
    the length of the view (and also below zero); for a cursor inside the
    view it returns the card of the view at that position. *)
Theorem getCurrentCard_spec state :
  let visibleCards := getVisibleCards state in
  let i := currentCardIndex state in
  (len visibleCards <= i → getCurrentCard state = None)
  ∧ (i < 0 → getCurrentCard state = None)
  ∧ (0 <= i < len visibleCards →
       ∃ card, visibleCards !! Z.to_nat i = Some card
               ∧ getCurrentCard state = Some card).
Proof.
  cbv zeta. split; [|split].
  - intros Hpast. apply getCurrentCard_outside. by left.
  - intros Hneg. apply getCurrentCard_outside. by right.
  - apply getCurrentCard_inside.
Qed.

Lemma getCurrentCard_spec_witness :
  getCurrentCard (cardReducer (ambient "none") review_state (NAVIGATE 1)) = None
  ∧ getCurrentCard review_state
    = Some (plain_card "id-b" "book" "reading material" false).
Proof.
  split.
  - destruct (getCurrentCard_spec
                (cardReducer (ambient "none") review_state (NAVIGATE 1)))
      as (Hpast & _ & _).
    apply Hpast. vm_compute. intros H. discriminate H.
  - destruct (getCurrentCard_spec review_state) as (_ & _ & Hin).
    destruct Hin as (card & Hcard & ->);
      [vm_compute; split; [intros H; discriminate H|reflexivity]|].
    vm_compute in Hcard. symmetry. exact Hcard.
Defined.


(** ** Strings: [split], [join], [trim] *)

Section SplitJoin.
Variable sep : ascii.

Lemma split_not_nil s : split sep s ≠ [].
Proof.
  destruct s as [|c r]; simpl; [done|].
  destruct (Ascii.eqb c sep); [done|]. by destruct (split sep r).
Qed.

Lemma join_cons piece pieces :
  pieces ≠ [] →
  join sep (piece :: pieces) = piece +:+ String sep (join sep pieces).
Proof. destruct pieces; [done|]. reflexivity. Qed.

Lemma join_cons_char c piece pieces :
  join sep (String c piece :: pieces) = String c (join sep (piece :: pieces)).
Proof. by destruct pieces. Qed.

(** The pieces, put together again with the separator, are the string. *)
Lemma join_split s : join sep (split sep s) = s.
Proof.
  induction s as [|c r IH]; simpl; [reflexivity|].
  destruct (Ascii.eqb_spec c sep) as [->|Hne].
  - rewrite join_cons by apply split_not_nil. simpl. by rewrite IH.
  - destruct (split sep r) as [|piece pieces] eqn:Hr.
    + by destruct (split_not_nil r).
    + by rewrite join_cons_char, IH.
Qed.

(** No piece contains the separator. *)
Lemma split_pieces_free s :
  Forall (λ piece, includes sep piece = false) (split sep s).
Proof.
  induction s as [|c r IH]; simpl.
  - by constructor.
  - destruct (Ascii.eqb c sep) eqn:Hc.
    + by constructor.
    + destruct (split sep r) as [|piece pieces]; constructor; simpl;
        try rewrite Hc; try done.
      * by inversion IH.
      * by inversion IH.
Qed.

Lemma split_free s : includes sep s = false → split sep s = [s].
Proof.
  induction s as [|c r IH]; simpl; [done|].
  intros [Hc Hr]%orb_false_iff. rewrite Hc, (IH Hr). reflexivity.
Qed.

Lemma split_app_sep s r :
  includes sep s = false →
  split sep (s +:+ String sep r) = s :: split sep r.
Proof.
  induction s as [|c s IH]; simpl.
  - intros _. by rewrite Ascii.eqb_refl.
  - intros [Hc Hs]%orb_false_iff. by rewrite Hc, (IH Hs).
Qed.

(** Splitting what was joined gives the pieces back. *)
Lemma split_join pieces :
  pieces ≠ [] →
  Forall (λ piece, includes sep piece = false) pieces →
  split sep (join sep pieces) = pieces.
Proof.
  induction pieces as [|piece pieces IH]; [done|].
  intros _ Hfree. inversion Hfree as [|? ? Hpiece Hrest]; subst.
  destruct pieces as [|piece' pieces].
  - by apply split_free.
  - rewrite join_cons by done. rewrite split_app_sep by done.
    by rewrite IH.
Qed.

Lemma includes_app s r :
  includes sep (s +:+ r) = includes sep s || includes sep r.
Proof.
  induction s as [|c s IH]; simpl; [done|]. by rewrite IH, orb_assoc.
Qed.

Lemma includes_join_two piece piece' pieces :
  includes sep (join sep (piece :: piece' :: pieces)) = true.
Proof.
  rewrite join_cons by done. rewrite includes_app. simpl.
  rewrite Ascii.eqb_refl. by rewrite orb_true_r.
Qed.

Lemma includes_trimStart s :
  includes sep s = false → includes sep (trimStart s) = false.
Proof.
  induction s as [|c r IH]; simpl; [done|].
  intros H. destruct (is_white_space c); [|exact H].
  apply IH. by apply orb_false_iff in H as [_ ?].
Qed.

Lemma includes_trimEnd s :
  includes sep s = false → includes sep (trimEnd s) = false.
Proof.
  induction s as [|c r IH]; simpl; [done|].
  intros [Hc Hr]%orb_false_iff. specialize (IH Hr).
  destruct (trimEnd r) as [|d r'].
  - destruct (is_white_space c); simpl; [done|]. by rewrite Hc.
  - simpl in *. by rewrite Hc, IH.
Qed.

Lemma includes_trim s :
  includes sep s = false → includes sep (trim s) = false.
Proof. intros H. by apply includes_trimEnd, includes_trimStart. Qed.

End SplitJoin.

Lemma all_white_app s r : all_white (s +:+ r) = all_white s && all_white r.
Proof.
  induction s as [|c s IH]; simpl; [done|]. by rewrite IH, andb_assoc.
Qed.

Lemma all_white_trimStart s : all_white (trimStart s) = all_white s.
Proof.
  induction s as [|c r IH]; simpl; [done|].
  destruct (is_white_space c) eqn:Hc; simpl; [done|]. by rewrite Hc.
Qed.

Lemma is_empty_trimEnd s : is_empty (trimEnd s) = all_white s.
Proof.
  induction s as [|c r IH]; simpl; [done|].
  destruct (trimEnd r) as [|d r']; simpl in *.
  - rewrite <-IH. by destruct (is_white_space c).
  - rewrite <-IH. by rewrite andb_false_r.
Qed.

(** Trimming leaves nothing exactly of the strings of white space. *)
Lemma is_empty_trim s : is_empty (trim s) = all_white s.
Proof. unfold trim. by rewrite is_empty_trimEnd, all_white_trimStart. Qed.

Lemma length_zero_is_empty s : (String.length s =? 0)%nat = is_empty s.
Proof. by destruct s. Qed.

Lemma all_white_join_newline before line after :
  all_white line = false →
  all_white (join newline (before ++ line :: after)) = false.
Proof.
  intros Hline. induction before as [|l before IH]; simpl.
  - destruct after as [|l' after].
    + exact Hline.
    + rewrite join_cons by done. rewrite all_white_app, Hline. done.
  - rewrite join_cons by (by destruct before).
    rewrite all_white_app. simpl. rewrite IH. by rewrite andb_false_r.
Qed.

Lemma all_white_false_not_empty s : all_white s = false → is_empty s = false.
Proof. by destruct s. Qed.

(** A character that is no white space stops the trimming. *)
Lemma trimStart_app_stop s c r :
  is_white_space c = false →
  trimStart (s +:+ String c r) = trimStart s +:+ String c r.
Proof.
  intros Hc. induction s as [|a s IH]; simpl.
  - by rewrite Hc.
  - by destruct (is_white_space a).
Qed.

Lemma trimEnd_app_stop s c r :
  is_white_space c = false →
  trimEnd (s +:+ String c r) = s +:+ String c (trimEnd r).
Proof.
  intros Hc. induction s as [|a s IH]; simpl.
  - rewrite Hc. by destruct (trimEnd r).
  - rewrite IH. by destruct s.
Qed.

Lemma trimStart_idemp s : trimStart (trimStart s) = trimStart s.
Proof.
  induction s as [|c r IH]; simpl; [done|].
  destruct (is_white_space c) eqn:Hc; [done|]. simpl. by rewrite Hc.
Qed.

Lemma trimEnd_idemp s : trimEnd (trimEnd s) = trimEnd s.
Proof.
  induction s as [|c r IH]; simpl; [done|].
  destruct (trimEnd r) as [|d r'] eqn:Hr.
  - destruct (is_white_space c) eqn:Hc; simpl; [done|]. by rewrite Hc.
  - change (trimEnd (String c (String d r')) = String c (String d r')).
    cbn [trimEnd] in *. by rewrite IH.
Qed.

Lemma trimStart_trimEnd s : trimStart (trimEnd s) = trimEnd (trimStart s).
Proof.
  induction s as [|c r IH]; simpl; [done|].
  destruct (is_white_space c) eqn:Hc.
  - rewrite <-IH. destruct (trimEnd r) as [|d r']; simpl; [done|].
    by rewrite Hc.
  - simpl. destruct (trimEnd r) as [|d r']; simpl; by rewrite Hc.
Qed.

Lemma trim_trimStart s : trim (trimStart s) = trim s.
Proof. unfold trim. by rewrite trimStart_idemp. Qed.

Lemma trim_trimEnd s : trim (trimEnd s) = trim s.
Proof. unfold trim. by rewrite trimStart_trimEnd, trimEnd_idemp. Qed.

Lemma comma_not_white : is_white_space comma = false.
Proof. reflexivity. Qed.

(** ** The bulk import parser *)

Lemma cards_from_cons gen calls f fields :
  cards_from gen calls (f :: fields)
  = make_card (uuid_of_call gen calls) (instant_of_call gen calls) f
    :: cards_from gen (S calls) fields.
Proof.
  unfold cards_from. simpl. rewrite Nat.add_0_r. f_equal.
  apply imap_ext. intros k x _. simpl. by rewrite Nat.add_succ_r.
Qed.

Lemma cards_from_length gen calls fields :
  length (cards_from gen calls fields) = length fields.
Proof. unfold cards_from. apply length_imap. Qed.

Lemma cards_from_lookup gen calls fields k :
  cards_from gen calls fields !! k
  = make_card (uuid_of_call gen (calls + k)) (instant_of_call gen (calls + k))
    <$> fields !! k.
Proof. unfold cards_from. by rewrite list_lookup_imap. Qed.

Lemma cards_from_not_mastered gen calls fields :
  Forall (λ card, mastered card = false) (cards_from gen calls fields).
Proof.
  revert calls. induction fields as [|f fields IH]; intros calls.
  - constructor.
  - rewrite cards_from_cons. constructor; [reflexivity|apply IH].
Qed.

(** The loop treats every entry on its own: the cards of the entries that
    pass are appended in order, the entries that fail are reported in
    order, and no entry stops the loop. *)
Lemma process_entries_spec gen allEntries calls done_cards done_failed :
  process_entries gen allEntries calls done_cards done_failed
  = {| successful :=
         done_cards ++ cards_from gen calls (accepted_fields allEntries);
       failed := done_failed ++ rejected_entries allEntries |}.
Proof.
  revert calls done_cards done_failed.
  induction allEntries as [|entry rest IH]; intros calls done_cards done_failed.
  - simpl. unfold cards_from. simpl. by rewrite !app_nil_r.
  - simpl. unfold accepted_fields, rejected_entries. simpl.
    unfold line_verdict.
    destruct (is_empty (trim entry)); [apply IH|].
    destruct (check_entry (trim entry)) as [message|fields].
    + rewrite IH. by rewrite <-app_assoc.
    + rewrite IH. fold (accepted_fields rest).
      rewrite cards_from_cons. by rewrite <-app_assoc.
Qed.

Lemma accepted_fields_app lines lines' :
  accepted_fields (lines ++ lines')
  = accepted_fields lines ++ accepted_fields lines'.
Proof. apply omap_app. Qed.

Lemma rejected_entries_app lines lines' :
  rejected_entries (lines ++ lines')
  = rejected_entries lines ++ rejected_entries lines'.
Proof. apply omap_app. Qed.

Lemma accepted_fields_cons line lines :
  accepted_fields (line :: lines)
  = match line_verdict line with
    | WellFormed fields => fields :: accepted_fields lines
    | _ => accepted_fields lines
    end.
Proof. unfold accepted_fields. simpl. by destruct (line_verdict line). Qed.

Lemma rejected_entries_cons line lines :
  rejected_entries (line :: lines)
  = match line_verdict line with
    | Malformed failure => failure :: rejected_entries lines
    | _ => rejected_entries lines
    end.
Proof. unfold rejected_entries. simpl. by destruct (line_verdict line). Qed.

Lemma accepted_well_formed lines fields :
  Forall2 (λ line f, line_verdict line = WellFormed f) lines fields →
  accepted_fields lines = fields ∧ rejected_entries lines = [].
Proof.
  induction 1 as [|line f lines fields Hline _ [IHa IHr]]; [done|].
  rewrite accepted_fields_cons, rejected_entries_cons, Hline.
  by rewrite IHa, IHr.
Qed.

(** A text without line break is cut at its semicolons, a text with line
    breaks at the line breaks only. *)
Lemma parse_nonblank gen rawText :
  all_white rawText = false →
  parseBulkImportText gen rawText
  = process_entries gen
      (if includes newline rawText then split newline rawText
       else split semicolon rawText) 0 [] [].
Proof.
  intros Hw. unfold parseBulkImportText.
  rewrite length_zero_is_empty, is_empty_trim, Hw.
  by rewrite (all_white_false_not_empty _ Hw).
Qed.

Lemma malformed_not_blank line failure :
  line_verdict line = Malformed failure →
  all_white line = false ∧ rawText failure = trim line
  ∧ check_entry (trim line) = inl (error failure).
Proof.
  unfold line_verdict. rewrite <-is_empty_trim.
  destruct (is_empty (trim line)); [done|].
  destruct (check_entry (trim line)); [|done].
  intros [= <-]. done.
Qed.

(** Line by line: what the parser returns for lines joined by line breaks,
    when there are at least two lines or the single line has no semicolon. *)
Lemma parse_lines gen lines :
  Forall (λ line, includes newline line = false) lines →
  all_white (join newline lines) = false →
  (2 <= length lines)%nat
  ∨ (∃ line, lines = [line] ∧ includes semicolon line = false) →
  parseBulkImportText gen (join newline lines)
  = {| successful := cards_from gen 0 (accepted_fields lines);
       failed := rejected_entries lines |}.
Proof.
  intros Hfree Hw Hshape. rewrite parse_nonblank by done.
  rewrite process_entries_spec. simpl.
  destruct Hshape as [Hlen|(line & -> & Hsemi)].
  - destruct lines as [|l [|l' lines]]; simpl in Hlen; try lia.
    rewrite includes_join_two. by rewrite split_join.
  - inversion Hfree as [|? ? Hline _]; subst.
    unfold join. simpl. rewrite Hline. by rewrite split_free.
Qed.

(** Lines that are malformed, and lines that are well-formed. *)

(** A line with text and without comma is reported for its missing
    separator. *)
Lemma line_without_comma_malformed line :
  includes comma line = false →
  all_white line = false →
  line_verdict line
  = Malformed {| rawText := trim line; error := missing_separator_error |}.
Proof.
  intros Hfree Hw. unfold line_verdict. rewrite is_empty_trim, Hw.
  unfold check_entry. rewrite split_free by (by apply includes_trim).
  reflexivity.
Qed.

(** A line [t,d] whose two comma-free fields have text within the limits
    is well-formed, and its fields are the trimmed [t] and [d]. *)
Lemma two_field_line_well_formed t d :
  includes comma t = false →
  includes comma d = false →
  all_white t = false →
  all_white d = false →
  (String.length (trim t) <= MAX_VOCABULARY_LENGTH)%nat →
  (String.length (trim d) <= MAX_MEANING_LENGTH)%nat →
  line_verdict (t +:+ String comma d)
  = WellFormed {| vocabulary := trim t; meaning := trim d;
                  entry_partOfSpeech := None;
                  entry_exampleSentences := None |}.
Proof.
  intros Ht Hd Hwt Hwd Hlt Hld. unfold line_verdict.
  assert (Htrim : trim (t +:+ String comma d)
                  = trimStart t +:+ String comma (trimEnd d)).
  { unfold trim. rewrite trimStart_app_stop by apply comma_not_white.
    by rewrite trimEnd_app_stop by apply comma_not_white. }
  rewrite Htrim.
  assert (is_empty (trimStart t +:+ String comma (trimEnd d)) = false) as ->
    by (by destruct (trimStart t)).
  unfold check_entry.
  rewrite split_app_sep by (by apply includes_trimStart).
  rewrite split_free by (by apply includes_trimEnd).
  cbn [map length nth drop].
  change ((2 <? 2)%nat) with false; change ((3 <=? 2)%nat) with false;
    change ((4 <=? 2)%nat) with false. cbv iota.
  rewrite trim_trimStart, trim_trimEnd.
  rewrite !is_empty_trim, Hwt, Hwd.
  apply Nat.ltb_ge in Hlt, Hld. rewrite Hlt, Hld. reflexivity.
Qed.

(** C7 (as amended).  Take one malformed line and N well-formed lines, in
    any order, joined by line breaks, where N is at least one or the
    malformed line has no semicolon.  The parser returns the N cards of the
    well-formed lines in input order, each with [mastered = false] and the
    uuid and instant generated for it, and reports exactly the malformed
    line, by its trimmed text and the message of the check that it fails. *)
Theorem parser_tolerance gen before bad after failure fields :
  Forall (λ line, includes newline line = false) (before ++ bad :: after) →
  line_verdict bad = Malformed failure →
  Forall2 (λ line f, line_verdict line = WellFormed f) (before ++ after) fields →
  before ++ after ≠ [] ∨ includes semicolon bad = false →
  let result :=
    parseBulkImportText gen (join newline (before ++ bad :: after)) in
  successful result = cards_from gen 0 fields
  ∧ length (successful result) = length (before ++ after)
  ∧ Forall (λ card, mastered card = false) (successful result)
  ∧ failed result = [failure]
  ∧ rawText failure = trim bad
  ∧ check_entry (trim bad) = inl (error failure).
Proof.
  intros Hfree Hbad Hgood Hshape.
  destruct (malformed_not_blank _ _ Hbad) as (Hw & Hraw & Herr).
  pose proof (Forall2_length _ _ _ Hgood) as Hlen.
  apply Forall2_app_inv_l in Hgood
    as (fields1 & fields2 & Hgood1 & Hgood2 & ->).
  apply accepted_well_formed in Hgood1 as [Ha1 Hr1].
  apply accepted_well_formed in Hgood2 as [Ha2 Hr2].
  assert (Hparse :
    parseBulkImportText gen (join newline (before ++ bad :: after))
    = {| successful := cards_from gen 0 (fields1 ++ fields2);
         failed := [failure] |}).
  { rewrite parse_lines; [|done|by apply all_white_join_newline|].
    - rewrite accepted_fields_app, rejected_entries_app.
      rewrite accepted_fields_cons, rejected_entries_cons, Hbad.
      by rewrite Ha1, Ha2, Hr1, Hr2.
    - destruct Hshape as [Hne|Hsemi].
      + left. rewrite length_app. simpl.
        destruct before, after; simpl; try lia. done.
      + destruct before as [|l before], after as [|l' after].
        * right. by exists bad.
        * left. simpl. lia.
        * left. rewrite length_app. simpl. lia.
        * left. rewrite length_app. simpl. lia. }
  cbv zeta. rewrite Hparse. simpl.
  split; [done|]. split; [by rewrite cards_from_length|].
  split; [apply cards_from_not_mastered|]. done.
Qed.

Lemma parser_tolerance_witness :
  let result :=
    parseBulkImportText sample_generators
      (join newline
         (["apple, fruit"] ++ " oops " :: ["book, reading material, noun"])) in
  successful result
  = cards_from sample_generators 0
      [{| vocabulary := "apple"; meaning := "fruit";
          entry_partOfSpeech := None; entry_exampleSentences := None |};
       {| vocabulary := "book"; meaning := "reading material";
          entry_partOfSpeech := Some "noun";
          entry_exampleSentences := None |}]
  ∧ length (successful result) = 2%nat
  ∧ Forall (λ card, mastered card = false) (successful result)
  ∧ failed result
    = [{| rawText := "oops"; error := missing_separator_error |}]
  ∧ "oops" = trim " oops "
  ∧ check_entry (trim " oops ") = inl missing_separator_error.
Proof.
  apply (parser_tolerance sample_generators
           ["apple, fruit"] " oops " ["book, reading material, noun"]
           {| rawText := "oops"; error := missing_separator_error |}).
  - repeat constructor.
  - vm_compute. reflexivity.
  - repeat constructor.
  - left. discriminate.
Defined.

(** C7 (counterexample to the claim as stated).  The text ["a;b"] is one
    line, and as a line it is malformed: it has no comma.  It has no line
    break, so the parser cuts it at the semicolon and reports two failed
    entries, not one. *)
Lemma parser_tolerance_single_line_semicolon :
  let text := join newline ["a;b"] in
  let result := parseBulkImportText sample_generators text in
  text = "a;b"
  ∧ includes newline text = false
  ∧ line_verdict "a;b"
    = Malformed {| rawText := "a;b"; error := missing_separator_error |}
  ∧ successful result = []
  ∧ failed result
    = [{| rawText := "a"; error := missing_separator_error |};
       {| rawText := "b"; error := missing_separator_error |}]
  ∧ length (failed result) ≠ 1%nat.
Proof. vm_compute. repeat split. discriminate. Qed.

(** The three parser scenarios of the specification. *)
Example parse_semicolon_separated :
  parseBulkImportText sample_generators
    "apple, fruit; book, reading material; car, vehicle"
  = {| successful :=
         [plain_entry_card 0 "apple" "fruit";
          plain_entry_card 1 "book" "reading material";
          plain_entry_card 2 "car" "vehicle"];
       failed := [] |}.
Proof. vm_compute. reflexivity. Qed.

Example parse_with_examples :
  parseBulkImportText sample_generators
    "eloquent, fluent, adjective, Cherry blossoms are ephemeral | Morning dew is ephemeral"
  = {| successful :=
         [{| id := "uuid-0"; term := "eloquent"; definition := "fluent";
             mastered := false; createdAt := "instant-0";
             partOfSpeech := Some "adjective";
             exampleSentences :=
               Some ["Cherry blossoms are ephemeral";
                     "Morning dew is ephemeral"] |}];
       failed := [] |}.
Proof. vm_compute. reflexivity. Qed.

Example parse_without_comma :
  parseBulkImportText sample_generators "onlyoneterm"
  = {| successful := [];
       failed := [{| rawText := "onlyoneterm";
                     error := missing_separator_error |}] |}.
Proof. vm_compute. reflexivity. Qed.

(** ** Fields of an entry *)

(** The fields that the body of the loop has in hand for an entry that
    passes its checks: the pieces between the commas, trimmed. *)
Lemma check_entry_cut_at_every_comma trimmedEntry fields :
  check_entry trimmedEntry = inr fields →
  ∃ first second rest,
    split comma trimmedEntry = first :: second :: rest
    ∧ trimmedEntry = join comma (first :: second :: rest)
    ∧ Forall (λ piece, includes comma piece = false) (first :: second :: rest)
    ∧ vocabulary fields = trim first
    ∧ meaning fields = trim second
    ∧ includes comma (meaning fields) = false
    ∧ entry_partOfSpeech fields = trim <$> head rest
    ∧ ((length rest <= 1)%nat → entry_exampleSentences fields = None).
Proof.
  intros Hcheck.
  pose proof (join_split comma trimmedEntry) as Hjoin.
  pose proof (split_pieces_free comma trimmedEntry) as Hfree.
  unfold check_entry in Hcheck.
  destruct (split comma trimmedEntry) as [|first [|second rest]]; try done.
  exists first, second, rest.
  assert (Hsecond : includes comma (trim second) = false).
  { apply includes_trim. inversion Hfree as [|? ? _ Hfree']; subst.
    by inversion Hfree'. }
  split; [done|]. split; [done|]. split; [done|].
  destruct rest as [|third [|fourth rest]]; simpl in Hcheck;
    repeat (case_match; try discriminate);
    injection Hcheck as <-; simpl; repeat split; try done;
    intros; simpl in *; lia.
Qed.

(** C6 (counterexample to the claim as stated).  The entry ["a, b, c"] has
    exactly two commas; everything after its first comma is ["b, c"], but
    the definition of the card is ["b"] and ["c"] is its part of speech. *)
Lemma definition_ends_at_second_comma :
  let entry := "a, b, c" in
  let result := parseBulkImportText sample_generators entry in
  length (List.filter (Ascii.eqb comma) (String.list_ascii_of_string entry)) = 2%nat
  ∧ indexOf comma entry = Some 1%nat
  ∧ trim (substring_from 2 entry) = "b, c"
  ∧ successful result
    = [{| id := "uuid-0"; term := "a"; definition := "b"; mastered := false;
          createdAt := "instant-0"; partOfSpeech := Some "c";
          exampleSentences := None |}]
  ∧ definition <$> successful result ≠ ["b, c"].
Proof. vm_compute. repeat split. discriminate. Qed.

(** The earlier parser did cut at the first comma only: whatever follows it,
    commas included, was the definition. *)
Lemma indexOf_app_sep c s r :
  includes c s = false →
  indexOf c (s +:+ String c r) = Some (String.length s).
Proof.
  induction s as [|d s IH]; simpl.
  - intros _. by rewrite Ascii.eqb_refl.
  - intros [Hd Hs]%orb_false_iff. by rewrite Hd, (IH Hs).
Qed.

Lemma substring_to_app s r : substring_to (String.length s) (s +:+ r) = s.
Proof. induction s as [|d s IH]; simpl; [by destruct r|]. by rewrite IH. Qed.

Lemma substring_from_app c s r :
  substring_from (String.length s + 1) (s +:+ String c r) = r.
Proof. induction s as [|d s IH]; simpl; [done|]. exact IH. Qed.

Lemma legacy_entry_is_cut_at_first_comma before_comma after_comma v m :
  includes comma before_comma = false →
  LegacyBulkImport.check_entry (before_comma +:+ String comma after_comma)
  = inr (v, m) →
  v = trim before_comma ∧ m = trim after_comma.
Proof.
  intros Hfree. unfold LegacyBulkImport.check_entry.
  rewrite indexOf_app_sep by done.
  rewrite substring_to_app, substring_from_app.
  repeat (case_match; try discriminate). by intros [= <- <-].
Qed.

Example legacy_definition_with_commas :
  LegacyBulkImport.parseBulkImportText sample_generators "a, b, c"
  = {| successful := [plain_entry_card 0 "a" "b, c"]; failed := [] |}.
Proof. vm_compute. reflexivity. Qed.

(** ** Cards as run-time objects *)

Lemma mapM_as_string strs : mapM as_string (map JsStr strs) = Some strs.
Proof. by apply mapM_fmap_Some. Qed.

(** Reading the object of a card gives the card, field for field. *)
Lemma card_of_js_to_js card : card_of_js (card_to_js card) = Some card.
Proof.
  destruct card as [cid t d m c [p|] [e|]]; simpl;
    rewrite ?mapM_as_string; reflexivity.
Qed.

Lemma cards_of_js_to_js deck : mapM card_of_js (map card_to_js deck) = Some deck.
Proof. apply mapM_fmap_Some, card_of_js_to_js. Qed.

(** On the object of a well-typed payload the object expression of
    [ADD_CARD] builds the card that [newCard] describes. *)
Lemma newCard_object_typed env payload :
  card_of_js (JsObject (newCard_object (payload_to_js payload)
                          (randomUUID env) (toISOString env)))
  = Some (newCard env payload).
Proof.
  destruct payload as [t d m [p|] [e|]]; unfold newCard; simpl;
    rewrite ?mapM_as_string; reflexivity.
Qed.

(** C3 (counterexample to the claim as stated).  For a payload object that
    omits [mastered], the object that [ADD_CARD] appends has no [mastered]
    property either: reading it gives [undefined], not [false], and the
    object is not a [Flashcard]. *)
Lemma add_card_has_no_default_mastered :
  let card :=
    newCard_object payload_without_mastered "id-a" "2024-01-01T00:00:00.000Z" in
  get_prop "mastered" payload_without_mastered = JsUndefined
  ∧ card = [("term", JsStr "apple"); ("definition", JsStr "fruit");
            ("id", JsStr "id-a");
            ("createdAt", JsStr "2024-01-01T00:00:00.000Z")]
  ∧ get_prop "mastered" card = JsUndefined
  ∧ get_prop "mastered" card ≠ JsBool false
  ∧ card_of_js (JsObject card) = None.
Proof. vm_compute. repeat split. discriminate. Qed.

(** ** Persistence *)

Section Persistence.
Variable stringify : JsValue → string.
Variable parse : string → option JsValue.

Lemma is_valid_card_to_js card :
  id card ≠ EmptyString → is_valid_card (card_to_js card) = inr true.
Proof.
  intros Hid. destruct card as [cid t d m c p e]. simpl in *.
  unfold is_valid_card. simpl. by destruct cid.
Qed.

Lemma filter_valid_to_js deck :
  Forall (λ card, id card ≠ EmptyString) deck →
  filter_valid (map card_to_js deck) = inr (map card_to_js deck).
Proof.
  induction 1 as [|card deck Hid _ IH]; [done|].
  cbn [map filter_valid]. rewrite is_valid_card_to_js by done.
  rewrite IH. reflexivity.
Qed.

Lemma save_succeeded browser now deck items items' :
  saveToLocalStorage stringify browser now deck items = (inr (), items') →
  setItem_fault browser items STORAGE_KEY
    (stringify (schema_to_js CURRENT_VERSION deck now)) = None
  ∧ items' = <[STORAGE_KEY:=stringify (schema_to_js CURRENT_VERSION deck now)]>
               items.
Proof.
  unfold saveToLocalStorage, setItem.
  destruct (setItem_fault browser items STORAGE_KEY _) as [[name message]|].
  - repeat case_match; discriminate.
  - by intros [= <-].
Qed.

(** C8.  For a list of cards with non-empty ids, when the write of
    [saveToLocalStorage] is accepted and [JSON.parse] gives back the object
    that [JSON.stringify] was given, [loadFromLocalStorage] returns the
    objects of the saved cards, in order, and leaves the storage as it is;
    read as [Flashcard]s they are the saved cards field for field, optional
    fields included. *)
Theorem load_after_save browser now nowMs deck items items' :
  Forall (λ card, id card ≠ EmptyString) deck →
  parse (stringify (schema_to_js CURRENT_VERSION deck now))
  = Some (schema_to_js CURRENT_VERSION deck now) →
  stringify (schema_to_js CURRENT_VERSION deck now) ≠ EmptyString →
  getItem_fault browser = None →
  saveToLocalStorage stringify browser now deck items = (inr (), items') →
  loadFromLocalStorage parse browser nowMs items'
  = (map card_to_js deck, items')
  ∧ mapM card_of_js (loadFromLocalStorage parse browser nowMs items').1
    = Some deck.
Proof.
  intros Hvalid Hjson Hnonempty Hread Hsave.
  apply save_succeeded in Hsave as [_ ->].
  assert (Hload :
    load_attempt parse browser
      (<[STORAGE_KEY:=stringify (schema_to_js CURRENT_VERSION deck now)]> items)
    = inr (map card_to_js deck)).
  { unfold load_attempt, getItem. rewrite Hread. simpl.
    rewrite lookup_insert_eq.
    destruct (stringify (schema_to_js CURRENT_VERSION deck now)) eqn:Htext;
      [done|].
    simpl. rewrite Hjson. simpl. by apply filter_valid_to_js. }
  unfold loadFromLocalStorage. rewrite Hload. simpl.
  split; [done|]. apply cards_of_js_to_js.
Qed.

(** C9.  When the browser refuses the write with a [QuotaExceededError],
    [saveToLocalStorage] throws an [Error] whose message contains the number
    of cards; no other refusal makes it throw that error; the storage is
    what it was, so a later load reads what it read before; and the effect
    of [CardProvider] shows the message and leaves the state, its cards
    included, as it was. *)
Theorem save_quota_exceeded browser now deck items message :
  setItem_fault browser items STORAGE_KEY
    (stringify (schema_to_js CURRENT_VERSION deck now))
  = Some ("QuotaExceededError", message) →
  saveToLocalStorage stringify browser now deck items
  = (inl (Error (quota_message (length deck))), items)
  ∧ contains (of_nat (length deck)) (quota_message (length deck))
  ∧ (∀ browser' name' message',
       name' ≠ "QuotaExceededError" →
       setItem_fault browser' items STORAGE_KEY
         (stringify (schema_to_js CURRENT_VERSION deck now))
       = Some (name', message') →
       (saveToLocalStorage stringify browser' now deck items).1
       ≠ inl (Error (quota_message (length deck))))
  ∧ (∀ nowMs,
       loadFromLocalStorage parse browser nowMs
         (saveToLocalStorage stringify browser now deck items).2
       = loadFromLocalStorage parse browser nowMs items)
  ∧ (∀ session,
       cards (state session) = deck → stored session = items →
       persist_effect stringify browser now session
       = {| state := state session;
            stored := stored session;
            alerts := alerts session ++ [quota_message (length deck)] |}).
Proof.
  intros Hfull.
  assert (Hsave :
    saveToLocalStorage stringify browser now deck items
    = (inl (Error (quota_message (length deck))), items)).
  { unfold saveToLocalStorage, setItem. by rewrite Hfull. }
  split; [exact Hsave|]. split; [|split; [|split]].
  - exists ("Storage limit exceeded. You have too many flashcards. "
            +:+ "Please delete some cards or export your collection. "
            +:+ "(Current: "), " cards)".
    reflexivity.
  - intros browser' name' message' Hname Hfault.
    unfold saveToLocalStorage, setItem. rewrite Hfault.
    destruct (String.eqb_spec name' "QuotaExceededError") as [|_]; [done|].
    destruct (String.eqb name' "SecurityError"); simpl; discriminate.
  - intros nowMs. by rewrite Hsave.
  - intros session Hdeck Hstored. unfold persist_effect.
    rewrite Hdeck, Hstored, Hsave. simpl. by rewrite <-Hstored.
Qed.

End Persistence.

Lemma load_after_save_witness :
  let deck :=
    [{| id := "id-1"; term := "eloquent"; definition := "fluent, persuasive";
        mastered := true; createdAt := "2024-01-01T00:00:00.000Z";
        partOfSpeech := Some "adjective";
        exampleSentences := Some ["An eloquent speech"; "So eloquent"] |};
     plain_card "id-2" "book" "reading material" false] in
  let now := "2024-01-02T00:00:00.000Z" in
  let items' :=
    <[STORAGE_KEY:=ReferenceJson.stringify
                     (schema_to_js CURRENT_VERSION deck now)]>
      (∅ : gmap string string) in
  loadFromLocalStorage ReferenceJson.parse willing_browser 0 items'
  = (map card_to_js deck, items')
  ∧ mapM card_of_js
      (loadFromLocalStorage ReferenceJson.parse willing_browser 0 items').1
    = Some deck.
Proof.
  cbv zeta.
  apply (load_after_save ReferenceJson.stringify ReferenceJson.parse
           willing_browser "2024-01-02T00:00:00.000Z" 0 _ ∅).
  - repeat constructor; discriminate.
  - vm_compute. reflexivity.
  - vm_compute. discriminate.
  - reflexivity.
  - reflexivity.
Defined.

(** The scenario of the specification: 1200 cards in memory. *)
Example quota_message_1200 :
  quota_message 1200
  = "Storage limit exceeded. You have too many flashcards. Please delete some cards or export your collection. (Current: 1200 cards)".
Proof. vm_compute. reflexivity. Qed.

Lemma save_quota_exceeded_witness :
  let deck := replicate 1200 (plain_card "id" "term" "definition" false) in
  saveToLocalStorage ReferenceJson.stringify full_browser
    "2024-01-02T00:00:00.000Z" deck ∅
  = (inl (Error (quota_message 1200)), ∅)
  ∧ contains "1200" (quota_message 1200).
Proof.
  cbv zeta.
  destruct (save_quota_exceeded ReferenceJson.stringify ReferenceJson.parse
              full_browser "2024-01-02T00:00:00.000Z"
              (replicate 1200 (plain_card "id" "term" "definition" false))
              ∅ "The quota has been exceeded." eq_refl)
    as (Hthrown & Hcount & _).
  rewrite length_replicate in Hthrown, Hcount.
  split; [exact Hthrown|exact Hcount].
Defined.

(** * Further properties of the code *)

(** ** The other commands of the reducer *)

Lemma len_filter_le {A} (p : A → bool) (l : list A) :
  len (List.filter p l) <= len l.
Proof. unfold len. pose proof (List.filter_length_le p l). lia. Qed.

Lemma filter_sublist {A} (p : A → bool) (l : list A) :
  List.filter p l `sublist_of` l.
Proof.
  induction l as [|x l IH]; simpl; [constructor|].
  destruct (p x); by constructor.
Qed.

Lemma elem_of_List_filter {A} (p : A → bool) (l : list A) x :
  x ∈ List.filter p l ↔ x ∈ l ∧ p x = true.
Proof. rewrite !list_elem_of_In. apply List.filter_In. Qed.

Lemma List_filter_all {A} (p : A → bool) (l : list A) :
  (∀ x, x ∈ l → p x = true) → List.filter p l = l.
Proof.
  induction l as [|x l IH]; simpl; [done|]. intros Hall.
  rewrite (Hall x) by left. f_equal. apply IH. intros y Hy. apply Hall.
  by right.
Qed.

(** [DELETE_CARD] removes exactly the cards with the given id and keeps the
    others in their order; a cursor that was not negative ends inside the
    remaining list (at 0 when nothing remains), hence inside the view under
    the filter [all]; with an unknown id and the cursor inside the list the
    state is unchanged. *)
Theorem delete_card_spec env state cid :
  0 <= currentCardIndex state →
  let state' := cardReducer env state (DELETE_CARD cid) in
  (∀ card, card ∈ cards state' ↔ card ∈ cards state ∧ id card ≠ cid)
  ∧ cards state' `sublist_of` cards state
  ∧ filter state' = filter state
  ∧ cursor_in_cards state'
  ∧ (filter state = all → cursor_in_view state')
  ∧ ((∀ card, card ∈ cards state → id card ≠ cid) →
     cursor_in_cards state → state' = state).
Proof.
  intros Hcursor. cbv zeta.
  set (newCards := List.filter (λ card, negb (String.eqb (id card) cid))
                     (cards state)).
  assert (Hin : cursor_in_cards (cardReducer env state (DELETE_CARD cid))).
  { unfold cursor_in_cards. simpl. fold newCards.
    pose proof (len_nonneg newCards). repeat case_match; lia. }
  split; [|split; [|split; [|split; [|split]]]].
  - intros card. simpl. rewrite elem_of_List_filter.
    destruct (String.eqb_spec (id card) cid); simpl; split;
      intros [? ?]; try done; by split.
  - apply filter_sublist.
  - reflexivity.
  - exact Hin.
  - intros Hall. unfold cursor_in_view, getVisibleCards.
    change (filter (cardReducer env state (DELETE_CARD cid)))
      with (filter state). rewrite Hall. exact Hin.
  - intros Hnone [_ Hlt]. destruct state as [cs f i]. simpl in *.
    assert (Hsame : List.filter (λ card, negb (String.eqb (id card) cid)) cs
                    = cs).
    { apply List_filter_all. intros card Hcard.
      destruct (String.eqb_spec (id card) cid); [|done].
      by destruct (Hnone card Hcard). }
    rewrite Hsame. f_equal. pose proof (len_nonneg cs).
    repeat case_match; lia.
Qed.

Lemma delete_card_spec_witness :
  let state' := cardReducer (ambient "none") review_state (DELETE_CARD "id-b") in
  (∀ card, card ∈ cards state' ↔ card ∈ cards review_state ∧ id card ≠ "id-b")
  ∧ cards state' `sublist_of` cards review_state
  ∧ filter state' = needsReview
  ∧ cursor_in_cards state'
  ∧ (needsReview = all → cursor_in_view state')
  ∧ ((∀ card, card ∈ cards review_state → id card ≠ "id-b") →
     cursor_in_cards review_state → state' = review_state).
Proof.
  apply (delete_card_spec (ambient "none") review_state "id-b").
  vm_compute. discriminate.
Defined.

Lemma toggle_mastered_involutive card :
  toggle_mastered (toggle_mastered card) = card.
Proof. destruct card as [? ? ? m ? ? ?]. unfold toggle_mastered. simpl.
  by rewrite negb_involutive. Qed.

(** Dispatching [TOGGLE_MASTERED] twice with the same id gives the state
    back, whatever the state and the id. *)
Theorem toggle_mastered_twice env env' state cid :
  cardReducer env' (cardReducer env state (TOGGLE_MASTERED cid))
    (TOGGLE_MASTERED cid)
  = state.
Proof.
  destruct state as [cs f i]. simpl. f_equal.
  rewrite map_map. induction cs as [|card cs IH]; [done|].
  simpl. rewrite IH. f_equal.
  destruct (String.eqb (id card) cid) eqn:Hid; simpl; rewrite Hid; [|done].
  apply toggle_mastered_involutive.
Qed.

(** [TOGGLE_MASTERED] keeps filter, cursor, the number of cards and their
    ids; it flips [mastered] on the cards with the given id and changes
    nothing else; with an unknown id the state is unchanged. *)
Theorem toggle_mastered_frame env state cid :
  let state' := cardReducer env state (TOGGLE_MASTERED cid) in
  filter state' = filter state
  ∧ currentCardIndex state' = currentCardIndex state
  ∧ map id (cards state') = map id (cards state)
  ∧ (∀ k card, cards state !! k = Some card →
       cards state' !! k
       = Some (if String.eqb (id card) cid
               then {| id := id card; term := term card;
                       definition := definition card;
                       mastered := negb (mastered card);
                       createdAt := createdAt card;
                       partOfSpeech := partOfSpeech card;
                       exampleSentences := exampleSentences card |}
               else card))
  ∧ ((∀ card, card ∈ cards state → id card ≠ cid) → state' = state).
Proof.
  cbv zeta. split; [done|]. split; [done|]. split; [|split].
  - simpl. rewrite map_map. apply map_ext. intros card.
    by destruct (String.eqb (id card) cid).
  - intros k card Hk. simpl.
    change (map ?f ?l) with (f <$> l). rewrite list_lookup_fmap, Hk. done.
  - intros Hnone. destruct state as [cs f i]. simpl in *. f_equal.
    induction cs as [|c cs IH]; [done|]. simpl.
    destruct (String.eqb_spec (id c) cid) as [Heq|Hne].
    + exfalso. apply (Hnone c); [left|done].
    + f_equal. apply IH. intros c' Hc'. apply Hnone. by right.
Qed.

Lemma toggle_mastered_frame_witness :
  cardReducer (ambient "none") review_state (TOGGLE_MASTERED "id-z")
  = review_state.
Proof.
  apply toggle_mastered_frame. intros card Hin.
  apply list_elem_of_In in Hin. simpl in Hin.
  destruct Hin as [<-|[<-|[]]]; discriminate.
Defined.

(** After [SET_FILTER] the cursor is 0 and inside the view, the cards are
    untouched, and the current card is the first card of the new view (none
    when that view is empty). *)
Theorem set_filter_shows_first_card env state f :
  let state' := cardReducer env state (SET_FILTER f) in
  currentCardIndex state' = 0
  ∧ cards state' = cards state
  ∧ filter state' = f
  ∧ cursor_in_view state'
  ∧ getCurrentCard state' = head (getVisibleCards state').
Proof.
  cbv zeta. split; [done|]. split; [done|]. split; [done|]. split.
  - unfold cursor_in_view. simpl.
    pose proof (len_nonneg
      (getVisibleCards (cardReducer env state (SET_FILTER f)))). lia.
  - unfold getCurrentCard, array_get. simpl.
    by destruct (getVisibleCards _).
Qed.

(** [BULK_IMPORT] appends the payload and touches nothing else: importing
    nothing changes nothing, importing two batches one after the other is
    importing their concatenation, and [ADD_CARD] is the import of the one
    new card. *)
Theorem bulk_import_composes env state batch batch' payload :
  cards (cardReducer env state (BULK_IMPORT batch)) = cards state ++ batch
  ∧ cardReducer env state (BULK_IMPORT []) = state
  ∧ cardReducer env (cardReducer env state (BULK_IMPORT batch))
      (BULK_IMPORT batch')
    = cardReducer env state (BULK_IMPORT (batch ++ batch'))
  ∧ cardReducer env state (ADD_CARD payload)
    = cardReducer env state (BULK_IMPORT [newCard env payload])
  ∧ getVisibleCards (cardReducer env state (BULK_IMPORT batch))
    = getVisibleCards state
      ++ getVisibleCards (with_filter (filter state)
                            {| cards := batch; filter := all;
                               currentCardIndex := 0 |}).
Proof.
  split; [done|]. split; [|split; [|split]].
  - destruct state. simpl. by rewrite app_nil_r.
  - simpl. by rewrite app_assoc.
  - reflexivity.
  - unfold getVisibleCards. simpl. destruct (filter state); [done|].
    apply List.filter_app.
Qed.

(** The view is the whole list under [all]; under [needsReview] it holds
    exactly the cards that are not mastered, in the order of the list. *)
Theorem visible_cards_spec state :
  getVisibleCards state `sublist_of` cards state
  ∧ len (getVisibleCards state) <= len (cards state)
  ∧ (filter state = all → getVisibleCards state = cards state)
  ∧ (filter state = needsReview →
       ∀ card, card ∈ getVisibleCards state
               ↔ card ∈ cards state ∧ mastered card = false).
Proof.
  unfold getVisibleCards. destruct (filter state).
  - split; [done|]. split; [lia|]. split; done.
  - split; [apply filter_sublist|]. split; [apply len_filter_le|].
    split; [done|]. intros _ card. rewrite elem_of_List_filter.
    by rewrite negb_true_iff.
Qed.

Lemma visible_cards_spec_witness :
  len (getVisibleCards review_state) <= len (cards review_state)
  ∧ ∀ card, card ∈ getVisibleCards review_state
            ↔ card ∈ cards review_state ∧ mastered card = false.
Proof.
  destruct (visible_cards_spec review_state) as (_ & Hlen & _ & Hreview).
  split; [exact Hlen|exact (Hreview eq_refl)].
Defined.

Lemma shuffle_length {A} rand (l : list A) : length (shuffle rand l) = length l.
Proof. apply Permutation_length, shuffle_loop_Permutation. Qed.

(** Whatever is dispatched apart from [LOAD_CARDS], a cursor that indexes
    the whole list (0 for an empty list) keeps doing so. *)
Theorem cursor_stays_in_cards start state :
  reachable_from start state →
  cursor_in_cards start →
  cursor_in_cards state.
Proof.
  intros Hreach Hstart.
  induction Hreach as [|env state action _ IH Hload]; [done|].
  unfold cursor_in_cards in *. pose proof (len_nonneg (cards state)).
  destruct action; try discriminate; simpl.
  - unfold len in *. rewrite length_app. simpl. lia.
  - unfold len in *. by rewrite length_map.
  - pose proof (len_nonneg
      (List.filter (λ card, negb (String.eqb (id card) payload))
         (cards state))).
    repeat case_match; lia.
  - unfold len in *. by rewrite length_map.
  - lia.
  - lia.
  - unfold len. rewrite shuffle_length. fold (len (cards state)). lia.
  - unfold len in *. rewrite length_app. lia.
Qed.

Lemma cursor_stays_in_cards_witness :
  cursor_in_cards
    (cardReducer (ambient "none")
       (cardReducer (ambient "id-a") initialState
          (ADD_CARD (plain_payload "apple" "fruit")))
       (NAVIGATE 7)).
Proof.
  apply (cursor_stays_in_cards initialState).
  - apply reachable_from_step; [|reflexivity].
    apply reachable_from_step; [|reflexivity]. constructor.
  - vm_compute. split; [discriminate|reflexivity].
Defined.

(** ** [getCardStats] *)

Lemma filter_partition_length {A} (p : A → bool) (l : list A) :
  (length (List.filter p l) + length (List.filter (λ x, negb (p x)) l)
   = length l)%nat.
Proof.
  induction l as [|x l IH]; simpl; [done|]. destruct (p x); simpl; lia.
Qed.

Lemma filter_length_Permutation {A} (p : A → bool) (l k : list A) :
  l ≡ₚ k → length (List.filter p l) = length (List.filter p k).
Proof.
  induction 1 as [|x l k _ IH|x y l|l k m _ IH1 _ IH2]; simpl.
  - done.
  - destruct (p x); simpl; by rewrite IH.
  - by destruct (p x), (p y).
  - by rewrite IH1.
Qed.

(** The counts of [getCardStats]: every card is counted as mastered or as
    needing review, the latter being the cards that the [needsReview] filter
    shows; the percentage of an empty collection is 0 and no division is
    asked for. *)
Theorem card_stats_counts round_percentage state :
  let stats := getCardStats round_percentage state in
  total stats = length (cards state)
  ∧ total stats = (masteredCount stats + needsReviewCount stats)%nat
  ∧ needsReviewCount stats
    = length (getVisibleCards (with_filter needsReview state))
  ∧ (cards state = [] → masteredPercentage stats = 0)
  ∧ (cards state ≠ [] →
       masteredPercentage stats
       = round_percentage (masteredCount stats) (total stats)).
Proof.
  cbv zeta. unfold getCardStats.
  cbn [total masteredCount needsReviewCount masteredPercentage].
  pose proof (filter_partition_length (λ card, mastered card) (cards state))
    as Hpart. cbv beta in Hpart.
  split; [done|]. split; [lia|]. split; [|split].
  - unfold getVisibleCards, with_filter. cbn [filter cards]. lia.
  - by intros ->.
  - intros Hne. by destruct (cards state).
Qed.

Lemma card_stats_counts_witness :
  masteredPercentage (getCardStats sample_round initialState) = 0
  ∧ masteredPercentage (getCardStats sample_round review_state)
    = sample_round 1 2.
Proof.
  destruct (card_stats_counts sample_round initialState)
    as (_ & _ & _ & Hempty & _).
  destruct (card_stats_counts sample_round review_state)
    as (_ & _ & _ & _ & Hsome).
  split; [exact (Hempty eq_refl)|].
  apply Hsome. discriminate.
Defined.

(** The statistics do not depend on the order of the cards, nor on filter
    and cursor: [SHUFFLE_CARDS], [SET_FILTER] and [NAVIGATE] leave them as
    they are. *)
Theorem card_stats_ignore_order round_percentage env state f target :
  getCardStats round_percentage (cardReducer env state SHUFFLE_CARDS)
  = getCardStats round_percentage state
  ∧ getCardStats round_percentage (cardReducer env state (SET_FILTER f))
    = getCardStats round_percentage state
  ∧ getCardStats round_percentage (cardReducer env state (NAVIGATE target))
    = getCardStats round_percentage state.
Proof.
  split; [|split; reflexivity].
  unfold getCardStats. simpl. rewrite shuffle_length.
  by rewrite (filter_length_Permutation _ _ (cards state))
    by apply shuffle_loop_Permutation.
Qed.

(** ** The parser on every text *)

Lemma trim_idemp s : trim (trim s) = trim s.
Proof.
  unfold trim at 2. by rewrite trim_trimEnd, trim_trimStart.
Qed.

Lemma all_white_split sep s :
  all_white s = true → Forall (λ piece, all_white piece = true) (split sep s).
Proof.
  induction s as [|c r IH]; simpl; [by repeat constructor|].
  intros [Hc Hr]%andb_true_iff. specialize (IH Hr).
  destruct (Ascii.eqb c sep); [by constructor|].
  destruct (split sep r) as [|piece pieces].
  - constructor; [|constructor]. simpl. by rewrite Hc.
  - inversion IH; subst. constructor; [|done]. simpl. by rewrite Hc.
Qed.

Lemma line_verdict_blank line :
  line_verdict line = Blank ↔ all_white line = true.
Proof.
  unfold line_verdict. rewrite <-is_empty_trim.
  destruct (is_empty (trim line)); [done|].
  by destruct (check_entry (trim line)).
Qed.

Lemma blank_lines_yield_nothing lines :
  Forall (λ line, all_white line = true) lines →
  accepted_fields lines = [] ∧ rejected_entries lines = [].
Proof.
  induction 1 as [|line lines Hline _ [IHa IHr]]; [done|].
  rewrite accepted_fields_cons, rejected_entries_cons.
  apply line_verdict_blank in Hline. by rewrite Hline.
Qed.

(** For every text the parser returns the cards of the entries that pass
    and the failures of the entries that do not, both in the order of the
    entries. *)
Lemma parse_as_entries gen rawText :
  parseBulkImportText gen rawText
  = {| successful := cards_from gen 0 (accepted_fields (entries_of rawText));
       failed := rejected_entries (entries_of rawText) |}.
Proof.
  destruct (all_white rawText) eqn:Hw.
  - unfold parseBulkImportText.
    rewrite length_zero_is_empty, is_empty_trim, Hw, orb_true_r.
    assert (Forall (λ line, all_white line = true) (entries_of rawText))
      as [-> ->]%blank_lines_yield_nothing; [|done].
    unfold entries_of. destruct (includes newline rawText);
      by apply all_white_split.
  - rewrite parse_nonblank by done. by rewrite process_entries_spec.
Qed.

Lemma Forall_nth_default {A} (P : A → Prop) (l : list A) (d : A) n :
  Forall P l → P d → P (nth n l d).
Proof.
  intros Hl Hd. revert n. induction Hl as [|x l Hx _ IH]; intros [|n]; simpl;
    auto.
Qed.

Lemma find_none_Forall {A} (p : A → bool) (l : list A) :
  List.find p l = None → Forall (λ x, p x = false) l.
Proof.
  intros Hfind. apply Forall_forall. intros x Hx.
  apply list_elem_of_In in Hx. by apply (List.find_none p l).
Qed.

Lemma filter_Forall {A} (p : A → bool) (l : list A) :
  Forall (λ x, p x = true) (List.filter p l).
Proof.
  apply Forall_forall. intros x Hx. by apply elem_of_List_filter in Hx as [_ ?].
Qed.

Lemma nonempty_length s : (0 <? String.length s)%nat = negb (is_empty s).
Proof. by destruct s. Qed.

Lemma nonempty_string_Some s :
  nonempty_string (Some s) = negb (is_empty s).
Proof. by destruct s. Qed.

(** What the checks of one entry guarantee about its fields. *)
Lemma check_entry_limits trimmedEntry fields :
  check_entry trimmedEntry = inr fields →
  is_empty (vocabulary fields) = false
  ∧ (String.length (vocabulary fields) <= 100)%nat
  ∧ is_empty (meaning fields) = false
  ∧ (String.length (meaning fields) <= 500)%nat
  ∧ includes comma (vocabulary fields) = false
  ∧ includes comma (meaning fields) = false
  ∧ (∀ p, spread_if_nonempty (entry_partOfSpeech fields) = Some p →
       is_empty p = false ∧ (String.length p <= 50)%nat)
  ∧ (∀ exs, entry_exampleSentences fields = Some exs →
       exs ≠ [] ∧ (length exs <= 5)%nat
       ∧ Forall (λ ex, is_empty ex = false ∧ (String.length ex <= 500)%nat)
           exs).
Proof.
  unfold check_entry. cbv zeta.
  assert (Hfree : Forall (λ part, includes comma part = false)
                    (map trim (split comma trimmedEntry))).
  { apply Forall_fmap. eapply Forall_impl; [apply split_pieces_free|].
    intros piece Hpiece. by apply includes_trim. }
  set (parts := map trim (split comma trimmedEntry)) in *.
  set (pos := if (3 <=? length parts)%nat then Some (nth 2 parts EmptyString)
              else None).
  set (raw := if (4 <=? length parts)%nat
              then Some (trim (join comma (drop 3 parts))) else None).
  destruct (length parts <? 2)%nat; [done|].
  destruct (is_empty (nth 0 parts EmptyString)) eqn:Hv; [done|].
  destruct (MAX_VOCABULARY_LENGTH <? String.length (nth 0 parts EmptyString))%nat
    eqn:Hvl; [done|].
  destruct (is_empty (nth 1 parts EmptyString)) eqn:Hm; [done|].
  destruct (MAX_MEANING_LENGTH <? String.length (nth 1 parts EmptyString))%nat
    eqn:Hml; [done|].
  destruct (nonempty_string pos
            && (PART_OF_SPEECH_MAX_LENGTH
                <? String.length (default EmptyString pos))%nat) eqn:Hp;
    [done|].
  apply Nat.ltb_ge in Hvl, Hml.
  assert (Hpos : ∀ p, spread_if_nonempty pos = Some p →
            is_empty p = false ∧ (String.length p <= 50)%nat).
  { intros p. unfold spread_if_nonempty.
    destruct (nonempty_string pos) eqn:Hne; [|done]. intros ->.
    simpl in Hp, Hne. apply Nat.ltb_ge in Hp.
    apply andb_true_iff in Hne as [Hne _]. apply negb_true_iff in Hne.
    split; [done|]. exact Hp. }
  assert (Hcommon :
    is_empty (nth 0 parts EmptyString) = false
    ∧ (String.length (nth 0 parts EmptyString) <= 100)%nat
    ∧ is_empty (nth 1 parts EmptyString) = false
    ∧ (String.length (nth 1 parts EmptyString) <= 500)%nat
    ∧ includes comma (nth 0 parts EmptyString) = false
    ∧ includes comma (nth 1 parts EmptyString) = false).
  { repeat split; try done; by apply Forall_nth_default. }
  destruct Hcommon as (H1 & H2 & H3 & H4 & H5 & H6).
  destruct (nonempty_string raw).
  - set (examples := List.filter (λ ex, (0 <? String.length ex)%nat)
                       (map trim (split pipe (default EmptyString raw)))).
    destruct (MAX_EXAMPLE_SENTENCES <? length examples)%nat eqn:Hcount;
      [done|].
    destruct (List.find _ examples) as [|] eqn:Hfind; [done|].
    intros [= <-]. simpl.
    do 6 (split; [done|]). split; [exact Hpos|].
    intros exs Hexs.
    destruct (0 <? length examples)%nat eqn:Hlen; [|done].
    injection Hexs as <-.
    split; [by intros Hnil; rewrite Hnil in Hlen|].
    split; [by apply Nat.ltb_ge in Hcount|].
    apply find_none_Forall in Hfind.
    pose proof (filter_Forall (λ ex, (0 <? String.length ex)%nat)
                  (map trim (split pipe (default EmptyString raw)))) as Hne.
    fold examples in Hne.
    apply Forall_and. split.
    + eapply Forall_impl; [exact Hne|]. intros ex Hex. simpl in Hex.
      rewrite nonempty_length in Hex. by apply negb_true_iff in Hex.
    + eapply Forall_impl; [exact Hfind|]. intros ex Hex. simpl in Hex.
      by apply Nat.ltb_ge in Hex.
  - intros [= <-]. simpl.
    do 6 (split; [done|]). split; [exact Hpos|]. done.
Qed.

Lemma accepted_fields_checked lines fields :
  fields ∈ accepted_fields lines →
  ∃ line, line ∈ lines ∧ check_entry (trim line) = inr fields.
Proof.
  induction lines as [|line lines IH]; [by intros ?%elem_of_nil|].
  rewrite accepted_fields_cons. unfold line_verdict at 1.
  destruct (is_empty (trim line)).
  { intros [l [? ?]]%IH. exists l. split; [by right|done]. }
  destruct (check_entry (trim line)) as [message|f] eqn:Hcheck.
  { intros [l [? ?]]%IH. exists l. split; [by right|done]. }
  intros [->|Hin]%elem_of_cons.
  - exists line. split; [by left|done].
  - destruct (IH Hin) as [l [? ?]]. exists l. split; [by right|done].
Qed.

(** Every card that the parser returns is within the limits: term of 1 to
    100 characters, definition of 1 to 500, neither containing a comma, a
    part of speech (when present) of 1 to 50, example sentences (when
    present) between 1 and 5 of 1 to 500 characters each, not mastered. *)
Theorem parsed_cards_within_limits gen rawText card :
  card ∈ successful (parseBulkImportText gen rawText) →
  within_limits (term card) (definition card) (partOfSpeech card)
    (exampleSentences card)
  ∧ (∀ exs, exampleSentences card = Some exs → (length exs <= 5)%nat)
  ∧ includes comma (term card) = false
  ∧ includes comma (definition card) = false
  ∧ mastered card = false.
Proof.
  rewrite parse_as_entries. simpl.
  intros [k Hk]%list_elem_of_lookup. rewrite cards_from_lookup in Hk.
  destruct (accepted_fields (entries_of rawText) !! k) as [fields|] eqn:Hf;
    [|done].
  injection Hk as <-.
  apply list_elem_of_lookup_2, accepted_fields_checked in Hf
    as (line & _ & Hcheck).
  apply check_entry_limits in Hcheck
    as (H1 & H2 & H3 & H4 & H5 & H6 & Hpos & Hex).
  unfold within_limits. simpl.
  assert (Hex' : ∀ exs,
    match entry_exampleSentences fields with
    | Some examples =>
        if (0 <? length examples)%nat then Some examples else None
    | None => None
    end = Some exs → entry_exampleSentences fields = Some exs).
  { intros exs. destruct (entry_exampleSentences fields) as [e|]; [|done].
    by destruct (0 <? length e)%nat. }
  split.
  { do 4 (split; [done|]). split.
    - intros p Hp. by apply Hpos.
    - intros exs Hexs.
      by destruct (Hex exs (Hex' exs Hexs)) as (? & _ & ?). }
  split; [|done].
  intros exs Hexs. by destruct (Hex exs (Hex' exs Hexs)) as (_ & ? & _).
Qed.

Lemma parsed_cards_within_limits_witness :
  let card := plain_entry_card 1 "book" "reading material" in
  within_limits (term card) (definition card) (partOfSpeech card)
    (exampleSentences card)
  ∧ (∀ exs, exampleSentences card = Some exs → (length exs <= 5)%nat)
  ∧ includes comma (term card) = false
  ∧ includes comma (definition card) = false
  ∧ mastered card = false.
Proof.
  apply (parsed_cards_within_limits sample_generators
           "apple, fruit; book, reading material; car, vehicle").
  vm_compute. apply list_elem_of_In. right. left. reflexivity.
Defined.

Lemma verdict_lengths lines :
  (length (accepted_fields lines) + length (rejected_entries lines)
   = length (List.filter (λ line, negb (all_white line)) lines))%nat.
Proof.
  induction lines as [|line lines IH]; [done|].
  rewrite accepted_fields_cons, rejected_entries_cons. simpl.
  destruct (line_verdict line) eqn:Hv.
  - apply line_verdict_blank in Hv. by rewrite Hv.
  - destruct (all_white line) eqn:Hw.
    + apply line_verdict_blank in Hw. congruence.
    + simpl. lia.
  - destruct (all_white line) eqn:Hw.
    + apply line_verdict_blank in Hw. congruence.
    + simpl. lia.
Qed.

Lemma rejected_entries_trimmed lines :
  Forall (λ failure, is_empty (rawText failure) = false
                     ∧ trim (rawText failure) = rawText failure)
    (rejected_entries lines).
Proof.
  induction lines as [|line lines IH]; [constructor|].
  rewrite rejected_entries_cons. unfold line_verdict.
  destruct (is_empty (trim line)) eqn:He; [done|].
  destruct (check_entry (trim line)); [|done].
  constructor; [|done]. simpl. split; [done|apply trim_idemp].
Qed.

(** ** Every accepted entry is cut at every comma *)

Lemma cards_from_elem gen calls fields card :
  card ∈ cards_from gen calls fields
  ↔ ∃ k f, fields !! k = Some f
           ∧ card = make_card (uuid_of_call gen (calls + k))
                      (instant_of_call gen (calls + k)) f.
Proof.
  rewrite list_elem_of_lookup. split.
  - intros [k Hk]. rewrite cards_from_lookup in Hk.
    destruct (fields !! k) as [f|] eqn:Hf; [|done].
    injection Hk as <-. by exists k, f.
  - intros (k & f & Hf & ->). exists k. by rewrite cards_from_lookup, Hf.
Qed.

(** The card made of the fields of an entry that passes the checks. *)
Lemma make_card_cut uuid instant entry fields :
  check_entry (trim entry) = inr fields →
  cut_at_commas entry (make_card uuid instant fields).
Proof.
  intros Hcheck.
  destruct (check_entry_cut_at_every_comma _ _ Hcheck)
    as (first & second & rest & Hsplit & Hjoin & Hfree & Hv & Hm & Hcomma
        & Hpos & Hex).
  exists first, second, rest. unfold make_card. simpl.
  do 5 (split; [done|]). split; [done|]. split; [|split; [|done]].
  - unfold spread_if_nonempty. rewrite Hpos.
    destruct rest as [|third rest]; [done|].
    change (trim <$> head (third :: rest)) with (Some (trim third)).
    rewrite nonempty_string_Some. by destruct (is_empty (trim third)).
  - intros Hlen. by rewrite (Hex Hlen).
Qed.

Lemma rejected_entries_elem lines line message :
  line ∈ lines → all_white line = false →
  check_entry (trim line) = inl message →
  {| rawText := trim line; error := message |} ∈ rejected_entries lines.
Proof.
  intros Hline Hw Hcheck. unfold rejected_entries.
  apply list_elem_of_omap. exists line. split; [done|].
  unfold line_verdict. by rewrite is_empty_trim, Hw, Hcheck.
Qed.

Lemma accepted_fields_elem lines line fields :
  line ∈ lines → all_white line = false →
  check_entry (trim line) = inr fields →
  fields ∈ accepted_fields lines.
Proof.
  intros Hline Hw Hcheck. unfold accepted_fields.
  apply list_elem_of_omap. exists line. split; [done|].
  unfold line_verdict. by rewrite is_empty_trim, Hw, Hcheck.
Qed.

(** C6 (as amended).  Every comma of an entry that the current parser
    accepts separates fields.  Every card that [parseBulkImportText] returns
    is the card of one of the entries of the text, cut at every comma: its
    term is the trimmed text before the first comma, its definition the
    trimmed text between the first comma and the second (or the end), so a
    definition never contains a comma; the trimmed text after the second
    comma, up to the third, is its part of speech, absent when that text is
    empty; with at most two commas it has no example sentences.  And every
    entry with text that is not reported in [failed] has such a card among
    the successful ones. *)
Theorem entry_is_cut_at_every_comma gen text :
  let result := parseBulkImportText gen text in
  (∀ card, card ∈ successful result →
     ∃ entry, entry ∈ entries_of text ∧ all_white entry = false
              ∧ cut_at_commas entry card)
  ∧ (∀ entry, entry ∈ entries_of text → all_white entry = false →
       (∀ failure, failure ∈ failed result → rawText failure ≠ trim entry) →
       ∃ card, card ∈ successful result ∧ cut_at_commas entry card).
Proof.
  cbv zeta. rewrite parse_as_entries. simpl. split.
  - intros card (k & fields & Hfields & ->)%cards_from_elem.
    apply list_elem_of_lookup_2 in Hfields.
    apply accepted_fields_checked in Hfields as (entry & Hentry & Hcheck).
    exists entry. split; [done|]. split; [|by apply make_card_cut].
    rewrite <-is_empty_trim. destruct (trim entry) eqn:Htrim; [|done].
    by vm_compute in Hcheck.
  - intros entry Hentry Hw Hfailed.
    destruct (check_entry (trim entry)) as [message|fields] eqn:Hcheck.
    + destruct (Hfailed _ (rejected_entries_elem _ _ _ Hentry Hw Hcheck)).
      reflexivity.
    + pose proof (accepted_fields_elem _ _ _ Hentry Hw Hcheck) as Hin.
      apply list_elem_of_lookup_1 in Hin as [k Hk].
      exists (make_card (uuid_of_call gen (0 + k))
                (instant_of_call gen (0 + k)) fields).
      split; [|by apply make_card_cut].
      apply cards_from_elem. by exists k, fields.
Qed.

Lemma entry_is_cut_at_every_comma_witness :
  ∃ card,
    card ∈ successful
             (parseBulkImportText sample_generators "x, y, z; a , b,")
    ∧ cut_at_commas " a , b," card.
Proof.
  destruct (entry_is_cut_at_every_comma sample_generators
              "x, y, z; a , b,") as [_ Haccepted].
  apply Haccepted.
  - vm_compute. right. left.
  - reflexivity.
  - intros failure Hfailure. vm_compute in Hfailure.
    by apply elem_of_nil in Hfailure.
Defined.

(** ** Every entry is accounted for *)

(** The failures of the entries, over the entries with text. *)
Lemma rejected_entries_nonblank lines :
  rejected_entries lines
  = omap (λ entry, match check_entry (trim entry) with
                   | inl message =>
                       Some {| rawText := trim entry; error := message |}
                   | inr _ => None
                   end)
      (List.filter (λ entry, negb (all_white entry)) lines).
Proof.
  induction lines as [|line lines IH]; [done|].
  rewrite rejected_entries_cons. unfold line_verdict. simpl.
  rewrite is_empty_trim. destruct (all_white line); simpl; [done|].
  destruct (check_entry (trim line)); by rewrite IH.
Qed.

Lemma rejected_entries_sublist lines :
  map rawText (rejected_entries lines)
  `sublist_of` map trim (List.filter (λ entry, negb (all_white entry)) lines).
Proof.
  induction lines as [|line lines IH]; [done|].
  rewrite rejected_entries_cons. unfold line_verdict. simpl.
  rewrite is_empty_trim. destruct (all_white line); simpl; [done|].
  destruct (check_entry (trim line)); simpl.
  - by apply sublist_skip.
  - by apply sublist_cons.
Qed.

(** No entry is lost and none is invented.  The cards and the failures
    together are as many as the entries with text.  The failures are, in
    the order of the entries and one for each entry with text that does not
    pass the checks, the trimmed entry with the message of the check that it
    fails; so the texts of the failures are a sub-list of the trimmed
    entries, trimmed and not empty.  A text of white space only gives
    neither cards nor failures. *)
Theorem parser_accounts_for_every_entry gen text :
  let result := parseBulkImportText gen text in
  let entries :=
    List.filter (λ entry, negb (all_white entry)) (entries_of text) in
  (length (successful result) + length (failed result) = length entries)%nat
  ∧ failed result
    = omap (λ entry, match check_entry (trim entry) with
                     | inl message =>
                         Some {| rawText := trim entry; error := message |}
                     | inr _ => None
                     end) entries
  ∧ map rawText (failed result) `sublist_of` map trim entries
  ∧ Forall (λ failure, is_empty (rawText failure) = false
                       ∧ trim (rawText failure) = rawText failure)
      (failed result)
  ∧ (all_white text = true → successful result = [] ∧ failed result = []).
Proof.
  cbv zeta. rewrite parse_as_entries. simpl.
  split; [|split; [|split; [|split]]].
  - rewrite cards_from_length. apply verdict_lengths.
  - apply rejected_entries_nonblank.
  - apply rejected_entries_sublist.
  - apply rejected_entries_trimmed.
  - intros Hw.
    assert (Forall (λ line, all_white line = true) (entries_of text))
      as [-> ->]%blank_lines_yield_nothing; [|done].
    unfold entries_of. destruct (includes newline text);
      by apply all_white_split.
Qed.

Lemma parser_accounts_for_every_entry_witness :
  let text := "apple, fruit; oops ;  ; , nothing" in
  length (successful (parseBulkImportText sample_generators text)) = 1%nat
  ∧ failed (parseBulkImportText sample_generators text)
    = [{| rawText := "oops"; error := missing_separator_error |};
       {| rawText := ", nothing"; error := "Vocabulary cannot be empty" |}].
Proof.
  cbv zeta.
  destruct (parser_accounts_for_every_entry sample_generators
              "apple, fruit; oops ;  ; , nothing")
    as (Hcount & Hfailed & _).
  cbv zeta in Hcount, Hfailed. split.
  - rewrite Hfailed in Hcount.
    change (length (omap _ _)) with 2%nat in Hcount.
    change (length (List.filter _ _)) with 3%nat in Hcount. lia.
  - rewrite Hfailed. vm_compute. reflexivity.
Defined.

Lemma includes_join_other c sep pieces :
  c ≠ sep →
  Forall (λ piece, includes c piece = false) pieces →
  includes c (join sep pieces) = false.
Proof.
  intros Hne. induction 1 as [|piece pieces Hpiece _ IH]; [done|].
  destruct pieces as [|piece' pieces]; [done|].
  rewrite join_cons by done. rewrite includes_app, Hpiece. simpl.
  rewrite IH. by destruct (Ascii.eqb_spec sep c).
Qed.

Lemma entries_of_join_semicolon entries :
  entries ≠ [] →
  Forall (λ entry, includes newline entry = false
                   ∧ includes semicolon entry = false) entries →
  entries_of (join semicolon entries) = entries.
Proof.
  intros Hne [Hnl Hsc]%Forall_and. unfold entries_of.
  rewrite includes_join_other by done. by apply split_join.
Qed.

Lemma entries_of_join_newline entries :
  entries ≠ [] →
  Forall (λ entry, includes newline entry = false
                   ∧ includes semicolon entry = false) entries →
  entries_of (join newline entries) = entries.
Proof.
  intros Hne Hfree. pose proof Hfree as [Hnl Hsc]%Forall_and.
  unfold entries_of. destruct entries as [|e [|e' entries]]; [done| |].
  - inversion Hfree as [|? ? [He1 He2] _]; subst.
    unfold join. simpl. rewrite He1. by apply split_free.
  - rewrite includes_join_two. by apply split_join.
Qed.

(** The two input formats agree: entries that contain neither a line break
    nor a semicolon give the same result joined by semicolons on one line
    and joined by line breaks. *)
Theorem semicolon_and_newline_formats_agree gen entries :
  Forall (λ entry, includes newline entry = false
                   ∧ includes semicolon entry = false) entries →
  parseBulkImportText gen (join semicolon entries)
  = parseBulkImportText gen (join newline entries).
Proof.
  intros Hfree. destruct entries as [|entry entries]; [done|].
  rewrite !parse_as_entries.
  by rewrite entries_of_join_semicolon, entries_of_join_newline.
Qed.

Lemma semicolon_and_newline_formats_agree_witness :
  parseBulkImportText sample_generators
    (join semicolon ["apple, fruit"; "oops"; "book, reading material"])
  = parseBulkImportText sample_generators
      (join newline ["apple, fruit"; "oops"; "book, reading material"]).
Proof.
  apply semicolon_and_newline_formats_agree. repeat constructor.
Defined.

Lemma cards_from_ids gen calls fields :
  map id (cards_from gen calls fields)
  = map (uuid_of_call gen) (seq calls (length fields))
  ∧ map createdAt (cards_from gen calls fields)
    = map (instant_of_call gen) (seq calls (length fields)).
Proof.
  revert calls. induction fields as [|f fields IH]; intros calls; [done|].
  rewrite cards_from_cons. simpl. destruct (IH (S calls)) as [-> ->]. done.
Qed.

(** The k-th card of the result has the uuid and the instant of the k-th
    call of the generators, so the ids are pairwise distinct when
    [crypto.randomUUID()] never repeats itself. *)
Theorem parsed_cards_have_fresh_ids gen rawText :
  let result := parseBulkImportText gen rawText in
  map id (successful result)
  = map (uuid_of_call gen) (seq 0 (length (successful result)))
  ∧ map createdAt (successful result)
    = map (instant_of_call gen) (seq 0 (length (successful result)))
  ∧ ((∀ j k, uuid_of_call gen j = uuid_of_call gen k → j = k) →
     NoDup (map id (successful result))).
Proof.
  cbv zeta. rewrite parse_as_entries. simpl. rewrite cards_from_length.
  destruct (cards_from_ids gen 0 (accepted_fields (entries_of rawText)))
    as [Hid Hat].
  split; [done|]. split; [done|]. intros Hinj. rewrite Hid.
  apply NoDup_fmap_2; [|apply NoDup_seq]. intros j k. apply Hinj.
Qed.

Lemma numbered_inj prefix j k : numbered prefix j = numbered prefix k → j = k.
Proof.
  unfold numbered. induction prefix as [|c prefix IH]; simpl.
  - apply (inj pretty).
  - intros [= H]. by apply IH.
Qed.

Lemma parsed_cards_have_fresh_ids_witness :
  NoDup (map id (successful
                   (parseBulkImportText sample_generators
                      "apple, fruit; book, reading material; car, vehicle"))).
Proof.
  apply (parsed_cards_have_fresh_ids sample_generators).
  intros j k. apply numbered_inj.
Defined.

(** ** Duplicate detection *)

Lemma occurrences_cons key k keys :
  occurrences key (k :: keys)
  = ((if String.eqb key k then 1 else 0) + occurrences key keys)%nat.
Proof. unfold occurrences. simpl. by destruct (String.eqb key k). Qed.

Lemma occurrences_snoc key keys k :
  occurrences key (keys ++ [k])
  = (occurrences key keys + (if String.eqb key k then 1 else 0))%nat.
Proof.
  unfold occurrences. rewrite List.filter_app, length_app. simpl.
  by destruct (String.eqb key k).
Qed.

Lemma occurrences_zero key keys : occurrences key keys = 0%nat ↔ key ∉ keys.
Proof.
  induction keys as [|k keys IH].
  - split; [intros _; apply not_elem_of_nil|done].
  - rewrite occurrences_cons, not_elem_of_cons.
    destruct (String.eqb_spec key k); split.
    + lia.
    + by intros [? _].
    + intros H. split; [done|]. apply IH. lia.
    + intros [_ H]. apply IH in H. lia.
Qed.

Lemma NoDup_occurrences keys :
  NoDup keys ↔ ∀ key, (occurrences key keys <= 1)%nat.
Proof.
  induction keys as [|k keys IH].
  - split; [intros _ key; unfold occurrences; simpl; lia|constructor].
  - rewrite NoDup_cons, IH. split.
    + intros [Hk Hall] key. rewrite occurrences_cons.
      destruct (String.eqb_spec key k) as [->|_].
      * apply occurrences_zero in Hk. lia.
      * apply Hall.
    + intros Hall. split.
      * apply occurrences_zero. specialize (Hall k).
        rewrite occurrences_cons, String.eqb_refl in Hall. lia.
      * intros key. specialize (Hall key). rewrite occurrences_cons in Hall.
        lia.
Qed.

Lemma detect_loop_app cards seen found duplicates :
  detect_loop cards seen (found ++ duplicates)
  = found ++ detect_loop cards seen duplicates.
Proof.
  revert seen duplicates. induction cards as [|card cards IH];
    intros seen duplicates; simpl; [done|].
  destruct (default 0%nat (seen !! toLowerCase (term card)) =? 1)%nat.
  - by rewrite <-app_assoc, IH.
  - apply IH.
Qed.

(** The loop, when [seen] holds the counts of the keys met so far. *)
Lemma detect_loop_spec cards seen met :
  (∀ key, default 0%nat (seen !! key) = occurrences key met) →
  let found := detect_loop cards seen [] in
  (∀ key, key ∈ map toLowerCase found
          ↔ (occurrences key met <= 1
             ∧ 2 <= occurrences key met + occurrences key (lower_terms cards))%nat)
  ∧ NoDup (map toLowerCase found)
  ∧ (∀ t, t ∈ found → ∃ card, card ∈ cards ∧ term card = t).
Proof.
  revert seen met. induction cards as [|card cards IH]; intros seen met Hseen.
  { simpl. split; [|split; [constructor|]].
    - intros key. unfold occurrences at 3. simpl. split.
      + by intros ?%elem_of_nil.
      + lia.
    - by intros t ?%elem_of_nil. }
  cbv zeta. cbn [detect_loop].
  set (normalized := toLowerCase (term card)).
  set (seen' := <[normalized:=(default 0%nat (seen !! normalized) + 1)%nat]> seen).
  assert (Hseen' : ∀ key, default 0%nat (seen' !! key)
                          = occurrences key (met ++ [normalized])).
  { intros key. rewrite occurrences_snoc. unfold seen'.
    destruct (String.eqb_spec key normalized) as [->|Hne].
    - rewrite lookup_insert_eq. simpl. by rewrite Hseen.
    - rewrite lookup_insert_ne by done. rewrite Hseen. lia. }
  destruct (IH seen' (met ++ [normalized]) Hseen') as (Hkeys & Hnodup & Hterms).
  assert (Hrest : ∀ key,
    key ∈ map toLowerCase (detect_loop cards seen' [])
    ↔ (occurrences key met + (if String.eqb key normalized then 1 else 0) <= 1
       ∧ 2 <= occurrences key met + (if String.eqb key normalized then 1 else 0)
              + occurrences key (lower_terms cards))%nat).
  { intros key. rewrite Hkeys. by rewrite occurrences_snoc. }
  rewrite Hseen.
  destruct (occurrences normalized met =? 1)%nat eqn:Hcount.
  - apply Nat.eqb_eq in Hcount.
    assert (Hd : detect_loop cards seen' [term card]
                 = term card :: detect_loop cards seen' [])
      by apply (detect_loop_app cards seen' [term card] []).
    simpl. rewrite Hd. simpl. fold normalized.
    split; [|split].
    + intros key. unfold lower_terms. simpl. fold (lower_terms cards).
      fold normalized. rewrite occurrences_cons, elem_of_cons, Hrest.
      destruct (String.eqb_spec key normalized) as [->|Hne].
      { split; [intros _; lia|intros _; by left]. }
      split; [intros [?|?]; [done|lia]|]. intros ?. right. lia.
    + apply NoDup_cons. split; [|done]. rewrite Hrest, String.eqb_refl. lia.
    + intros t [->|Hin]%elem_of_cons.
      * exists card. split; [by left|done].
      * destruct (Hterms t Hin) as (c & ? & ?). exists c. split; [by right|done].
  - apply Nat.eqb_neq in Hcount. split; [|split].
    + intros key. unfold lower_terms. simpl. fold (lower_terms cards).
      fold normalized. rewrite occurrences_cons, Hrest.
      destruct (String.eqb_spec key normalized) as [->|Hne]; lia.
    + done.
    + intros t Hin. destruct (Hterms t Hin) as (c & ? & ?).
      exists c. split; [by right|done].
Qed.

(** [detectDuplicates] reports the lower-case terms that occur at least
    twice, each of them once, in the spelling of one of the cards. *)
Theorem detect_duplicates_reports_repeated_terms cards :
  let duplicates := detectDuplicates cards in
  (∀ key, key ∈ map toLowerCase duplicates
          ↔ (2 <= occurrences key (lower_terms cards))%nat)
  ∧ NoDup (map toLowerCase duplicates)
  ∧ (∀ t, t ∈ duplicates → ∃ card, card ∈ cards ∧ term card = t).
Proof.
  destruct (detect_loop_spec cards ∅ []) as (Hkeys & Hnodup & Hterms).
  { intros key. by rewrite lookup_empty. }
  cbv zeta. split; [|split]; [|done|done].
  intros key. unfold detectDuplicates. rewrite Hkeys.
  unfold occurrences at 1 2. simpl. lia.
Qed.

Lemma detect_duplicates_reports_repeated_terms_witness :
  "apple" ∈ map toLowerCase
              (detectDuplicates
                 [plain_card "id-1" "Apple" "fruit" false;
                  plain_card "id-2" "book" "reading material" false;
                  plain_card "id-3" "apple" "tree" true]).
Proof.
  destruct (detect_duplicates_reports_repeated_terms
              [plain_card "id-1" "Apple" "fruit" false;
               plain_card "id-2" "book" "reading material" false;
               plain_card "id-3" "apple" "tree" true])
    as (Hrepeated & _ & _).
  apply Hrepeated. vm_compute. lia.
Defined.

(** [detectDuplicates] returns the empty list exactly when no two cards
    have the same term up to case. *)
Theorem detect_duplicates_empty_iff cards :
  detectDuplicates cards = [] ↔ NoDup (lower_terms cards).
Proof.
  destruct (detect_loop_spec cards ∅ []) as (Hkeys & _ & _).
  { intros key. by rewrite lookup_empty. }
  fold (detectDuplicates cards) in Hkeys. rewrite NoDup_occurrences. split.
  - intros Hnil key. specialize (Hkeys key). rewrite Hnil in Hkeys.
    unfold occurrences at 1 2 in Hkeys. simpl in Hkeys.
    destruct (decide (occurrences key (lower_terms cards) <= 1)%nat); [done|].
    exfalso. apply (not_elem_of_nil key). apply Hkeys. lia.
  - intros Hall. destruct (detectDuplicates cards) as [|t dups]; [done|].
    exfalso. specialize (Hkeys (toLowerCase t)). specialize (Hall (toLowerCase t)).
    assert (toLowerCase t ∈ map toLowerCase (t :: dups)) as Hin by (by left).
    apply Hkeys in Hin. unfold occurrences at 1 2 in Hin. simpl in Hin. lia.
Qed.

Lemma conflicts_loop_spec existingTerms newCards conflicts :
  conflicts_loop existingTerms newCards conflicts
  = conflicts
    ++ map term
         (List.filter
            (λ card, bool_decide (toLowerCase (term card) ∈ existingTerms))
            newCards).
Proof.
  revert conflicts. induction newCards as [|card newCards IH];
    intros conflicts; simpl; [by rewrite app_nil_r|].
  rewrite IH. destruct (bool_decide _); simpl; [|done].
  by rewrite <-app_assoc.
Qed.

Lemma elem_of_lower_terms_set key cards :
  key ∈ (list_to_set (map (λ card, toLowerCase (term card)) cards) : gset string)
  ↔ ∃ old, old ∈ cards ∧ toLowerCase (term old) = key.
Proof.
  rewrite elem_of_list_to_set.
  change (map ?f ?l) with (f <$> l). rewrite list_elem_of_fmap.
  split; intros (old & ? & ?); by exists old.
Qed.

(** [checkExistingDuplicates] returns exactly the terms of the new cards
    whose lower-case term is the lower-case term of an existing card: one
    for each such new card, repeated terms included, in the order of the new
    cards.  So it returns a sub-list of the new terms, and the empty list
    exactly when no new card matches an existing one. *)
Theorem check_existing_duplicates_spec existingCards newCards :
  let conflicts := checkExistingDuplicates existingCards newCards in
  conflicts
  = map term
      (List.filter
         (λ card,
            bool_decide (toLowerCase (term card) ∈ lower_terms existingCards))
         newCards)
  ∧ conflicts `sublist_of` map term newCards
  ∧ (∀ t, t ∈ conflicts
          ↔ ∃ card old, card ∈ newCards ∧ term card = t
                        ∧ old ∈ existingCards
                        ∧ toLowerCase (term old) = toLowerCase (term card))
  ∧ (conflicts = []
     ↔ ∀ card old, card ∈ newCards → old ∈ existingCards →
                   toLowerCase (term old) ≠ toLowerCase (term card)).
Proof.
  cbv zeta. unfold checkExistingDuplicates. rewrite conflicts_loop_spec.
  simpl.
  set (existingTerms :=
         (list_to_set (map (λ card, toLowerCase (term card)) existingCards)
          : gset string)).
  assert (Hmem : ∀ t,
    t ∈ map term
          (List.filter
             (λ card, bool_decide (toLowerCase (term card) ∈ existingTerms))
             newCards)
    ↔ ∃ card old, card ∈ newCards ∧ term card = t ∧ old ∈ existingCards
                  ∧ toLowerCase (term old) = toLowerCase (term card)).
  { intros t. change (map ?f ?l) with (f <$> l). rewrite list_elem_of_fmap.
    split.
    - intros (card & -> & [Hcard Hdup]%elem_of_List_filter).
      apply bool_decide_eq_true in Hdup.
      apply elem_of_lower_terms_set in Hdup as (old & ? & ?).
      by exists card, old.
    - intros (card & old & Hcard & <- & Hold & Hsame).
      exists card. split; [done|]. apply elem_of_List_filter.
      split; [done|]. apply bool_decide_eq_true.
      apply elem_of_lower_terms_set. by exists old. }
  split; [|split; [|split]].
  - f_equal. apply List.filter_ext. intros card.
    apply bool_decide_ext. subst existingTerms.
    rewrite elem_of_list_to_set. reflexivity.
  - change (map ?f ?l) with (f <$> l). apply fmap_sublist, filter_sublist.
  - exact Hmem.
  - split.
    + intros Hnil card old Hcard Hold Hsame.
      apply (not_elem_of_nil (term card)). rewrite <-Hnil. apply Hmem.
      by exists card, old.
    + intros Hnone.
      destruct (map term _) as [|t conflicts] eqn:Hc; [done|]. exfalso.
      assert (t ∈ t :: conflicts) as Hin by (by left).
      apply Hmem in Hin as (card & old & ? & _ & ? & ?).
      by apply (Hnone card old).
Qed.

Lemma check_existing_duplicates_spec_witness :
  checkExistingDuplicates
    [plain_card "id-1" "Apple" "fruit" false]
    [plain_card "id-2" "apple" "tree" false;
     plain_card "id-3" "pear" "fruit" false;
     plain_card "id-4" "apple" "company" false]
  = ["apple"; "apple"].
Proof.
  destruct (check_existing_duplicates_spec
              [plain_card "id-1" "Apple" "fruit" false]
              [plain_card "id-2" "apple" "tree" false;
               plain_card "id-3" "pear" "fruit" false;
               plain_card "id-4" "apple" "company" false])
    as (Hexactly & _).
  rewrite Hexactly. vm_compute. reflexivity.
Defined.

Lemma separate_duplicates_spec existingTerms successful skipped :
  separate_duplicates existingTerms successful skipped
  = (List.filter
       (λ card, negb (bool_decide (toLowerCase (term card) ∈ existingTerms)))
       successful,
     skipped
     ++ map term
          (List.filter
             (λ card, bool_decide (toLowerCase (term card) ∈ existingTerms))
             successful)).
Proof.
  revert skipped. induction successful as [|card successful IH];
    intros skipped; simpl; [by rewrite app_nil_r|].
  destruct (bool_decide _); simpl.
  - rewrite IH. by rewrite <-app_assoc.
  - by rewrite IH.
Qed.

(** [handleImport] of the import dialog, on a text that is not blank: the
    cards it imports are the parsed cards whose term equals no existing term
    up to case, the terms it skips are those that [checkExistingDuplicates]
    finds, every parsed card is imported or skipped, the failures are passed
    on, and after the dispatch the collection is the old one followed by the
    imported cards. *)
Theorem handle_import_spec gen env inputText state :
  all_white inputText = false →
  let outcome := handleImport gen inputText state in
  let parsed := parseBulkImportText gen inputText in
  let imported := successful (import_result outcome) in
  imported `sublist_of` successful parsed
  ∧ (∀ card old, card ∈ imported → old ∈ cards state →
       toLowerCase (term old) ≠ toLowerCase (term card))
  ∧ import_skipped outcome
    = checkExistingDuplicates (cards state) (successful parsed)
  ∧ (length imported + length (import_skipped outcome)
     = length (successful parsed))%nat
  ∧ failed (import_result outcome) = failed parsed
  ∧ cards (dispatch env state (import_dispatched outcome))
    = cards state ++ imported.
Proof.
  intros Hw. cbv zeta. unfold handleImport.
  rewrite is_empty_trim, Hw.
  set (parsed := parseBulkImportText gen inputText).
  set (existingTerms :=
         (list_to_set (map (λ card, toLowerCase (term card)) (cards state))
          : gset string)).
  assert (Hskip : checkExistingDuplicates (cards state) (successful parsed)
                  = map term
                      (List.filter
                         (λ card, bool_decide
                                    (toLowerCase (term card) ∈ existingTerms))
                         (successful parsed))).
  { unfold checkExistingDuplicates. by rewrite conflicts_loop_spec. }
  destruct (0 <? length (successful parsed))%nat eqn:Hsome.
  - rewrite separate_duplicates_spec.
    set (imported := List.filter _ (successful parsed)).
    cbn [import_result import_skipped import_dispatched successful failed].
    split; [apply filter_sublist|]. split; [|split; [|split; [|split]]].
    + intros card old [_ Hcard]%elem_of_List_filter Hold Hsame.
      apply negb_true_iff, bool_decide_eq_false in Hcard. apply Hcard.
      apply elem_of_lower_terms_set. by exists old.
    + by rewrite Hskip.
    + simpl. rewrite length_map. unfold imported.
      pose proof (filter_partition_length
        (λ card, bool_decide (toLowerCase (term card) ∈ existingTerms))
        (successful parsed)) as Hpart.
      cbv beta in Hpart. lia.
    + done.
    + destruct (0 <? length imported)%nat eqn:Hlen; [done|].
      destruct imported; [|done]. simpl. by rewrite app_nil_r.
  - cbn [import_result import_skipped import_dispatched successful failed].
    destruct (successful parsed) as [|c l] eqn:Hs; [|done].
    rewrite Hskip. simpl. split; [done|]. split.
    + by intros card old ?%elem_of_nil.
    + by rewrite app_nil_r.
Qed.

Lemma handle_import_spec_witness :
  let outcome :=
    handleImport sample_generators "Apple, fruit; car, vehicle" review_state in
  import_skipped outcome = ["Apple"]
  ∧ cards (dispatch (ambient "none") review_state (import_dispatched outcome))
    = cards review_state ++ [plain_entry_card 1 "car" "vehicle"].
Proof.
  destruct (handle_import_spec sample_generators (ambient "none")
              "Apple, fruit; car, vehicle" review_state eq_refl)
    as (_ & _ & Hskipped & _ & _ & Hcards).
  split.
  - rewrite Hskipped. vm_compute. reflexivity.
  - rewrite Hcards. vm_compute. reflexivity.
Defined.

(** ** Loading, saving and clearing *)

Lemma append_eq_self s r : s +:+ r = s → r = EmptyString.
Proof. induction s as [|c s IH]; simpl; [done|]. intros [= H]. by apply IH. Qed.

Lemma corrupted_key_fresh nowMs : corrupted_key nowMs ≠ STORAGE_KEY.
Proof. intros H. by apply append_eq_self in H. Qed.

Lemma backup_key_fresh nowMs : backup_key nowMs ≠ STORAGE_KEY.
Proof. intros H. by apply append_eq_self in H. Qed.

Section Loading.
Variable parse : string → option JsValue.

(** [loadFromLocalStorage] returns the empty list and leaves the storage as
    it is when nothing is stored under the key, when the stored text is
    empty, and when the browser refuses the read. *)
Theorem load_nothing_stored browser nowMs items :
  (getItem_fault browser = None → items !! STORAGE_KEY = None →
   loadFromLocalStorage parse browser nowMs items = ([], items))
  ∧ (getItem_fault browser = None →
     items !! STORAGE_KEY = Some EmptyString →
     loadFromLocalStorage parse browser nowMs items = ([], items))
  ∧ (is_Some (getItem_fault browser) →
     loadFromLocalStorage parse browser nowMs items = ([], items)).
Proof.
  unfold loadFromLocalStorage, load_attempt, getItem.
  split; [|split].
  - by intros -> ->.
  - by intros -> ->.
  - intros [[name message] ->]. done.
Qed.

(** A stored text that is not JSON makes [loadFromLocalStorage] return the
    empty list; the text is copied under the key
    [flashcards-app-data-corrupted-<Date.now()>] when the browser accepts
    that write, and it stays under its own key in every case. *)
Theorem load_corrupted_text browser nowMs items raw :
  getItem_fault browser = None →
  items !! STORAGE_KEY = Some raw →
  raw ≠ EmptyString →
  parse raw = None →
  let loaded := loadFromLocalStorage parse browser nowMs items in
  loaded.1 = []
  ∧ loaded.2 !! STORAGE_KEY = Some raw
  ∧ (setItem_fault browser items (corrupted_key nowMs) raw = None →
     loaded.2 = <[corrupted_key nowMs:=raw]> items
     ∧ loaded.2 !! corrupted_key nowMs = Some raw)
  ∧ (is_Some (setItem_fault browser items (corrupted_key nowMs) raw) →
     loaded.2 = items).
Proof.
  intros Hread Hraw Hne Hparse. cbv zeta.
  unfold loadFromLocalStorage, load_attempt, getItem, setItem.
  rewrite Hread, Hraw. simpl.
  destruct raw as [|c raw]; [done|]. simpl. rewrite Hparse. simpl.
  fold (corrupted_key nowMs).
  destruct (setItem_fault browser items (corrupted_key nowMs) (String c raw))
    as [[name message]|] eqn:Hfault; simpl.
  - split; [done|]. split; [done|]. split; [done|]. done.
  - split; [done|]. split.
    { rewrite lookup_insert_ne by apply corrupted_key_fresh. done. }
    split; [|by intros [? ?]]. intros _. split; [done|].
    apply lookup_insert_eq.
Qed.

(** Whatever is stored and whatever the browser does,
    [loadFromLocalStorage] leaves every key as it is except the key of the
    corrupted copy; in particular it never changes or removes the stored
    collection. *)
Theorem load_preserves_storage browser nowMs items key :
  key ≠ corrupted_key nowMs →
  (loadFromLocalStorage parse browser nowMs items).2 !! key = items !! key.
Proof.
  intros Hkey. unfold loadFromLocalStorage.
  destruct (load_attempt parse browser items) as [[| | |]|]; try done.
  destruct (getItem browser items STORAGE_KEY) as [|[raw|]]; try done.
  destruct (is_empty raw); [done|]. unfold setItem.
  fold (corrupted_key nowMs).
  destruct (setItem_fault browser items (corrupted_key nowMs) raw)
    as [[name message]|]; [done|].
  simpl. by rewrite lookup_insert_ne.
Qed.

(** Stored data of another version is discarded: when the parsed value is
    [null], or has no [version] property equal to ["1.0"], the result is
    the empty list and the storage is left as it is. *)
Theorem load_other_version browser nowMs items raw data :
  getItem_fault browser = None →
  items !! STORAGE_KEY = Some raw →
  parse raw = Some data →
  match get data "version" with
  | inr version => is_current_version version = false
  | inl _ => True
  end →
  loadFromLocalStorage parse browser nowMs items = ([], items).
Proof.
  intros Hread Hraw Hparse Hversion.
  unfold loadFromLocalStorage, load_attempt, getItem.
  rewrite Hread, Hraw. simpl.
  destruct (is_empty raw); [done|]. rewrite Hparse. simpl.
  destruct data as [| | | | | |props]; simpl in *; try done.
  by rewrite Hversion.
Qed.

Lemma is_valid_card_entry entry :
  is_nullish entry = false → is_valid_card entry = inr (valid_entry entry).
Proof.
  destruct entry as [| | | | | |props]; try done. intros _.
  unfold is_valid_card, valid_entry. simpl.
  destruct (truthy (get_prop "id" props)); simpl; [|done].
  destruct (is_string (get_prop "term" props)); simpl; [|done].
  destruct (is_string (get_prop "definition" props)); simpl; [|done].
  by destruct (is_boolean (get_prop "mastered" props)).
Qed.

Lemma filter_valid_entries entries :
  Forall (λ entry, is_nullish entry = false) entries →
  filter_valid entries = inr (List.filter valid_entry entries).
Proof.
  induction 1 as [|entry entries Hentry _ IH]; [done|].
  cbn [filter_valid List.filter]. rewrite is_valid_card_entry by done.
  simpl. rewrite IH. simpl. by destruct (valid_entry entry).
Qed.

Lemma filter_valid_nullish entries :
  Exists (λ entry, is_nullish entry = true) entries →
  filter_valid entries = inl TypeError.
Proof.
  induction 1 as [entry entries Hentry|entry entries _ IH].
  - by destruct entry.
  - cbn [filter_valid]. rewrite IH.
    destruct (is_nullish entry) eqn:Hentry.
    + by destruct entry.
    + by rewrite is_valid_card_entry.
Qed.

Lemma filter_valid_throws entries e :
  filter_valid entries = inl e → e = TypeError.
Proof.
  induction entries as [|entry entries IH]; [done|].
  cbn [filter_valid]. destruct (is_nullish entry) eqn:Hentry.
  - destruct entry; try done; simpl; congruence.
  - rewrite is_valid_card_entry by done. simpl.
    destruct (filter_valid entries) as [e'|]; [|done].
    simpl. intros [= <-]. by apply IH.
Qed.

Lemma load_envelope browser nowMs items raw entries props :
  getItem_fault browser = None →
  items !! STORAGE_KEY = Some raw →
  raw ≠ EmptyString →
  parse raw = Some (JsObject props) →
  get_prop "version" props = JsStr CURRENT_VERSION →
  get_prop "cards" props = JsArray entries →
  loadFromLocalStorage parse browser nowMs items
  = match filter_valid entries with
    | inr validCards => (validCards, items)
    | inl _ => ([], items)
    end.
Proof.
  intros Hread Hraw Hne Hparse Hversion Hcards.
  unfold loadFromLocalStorage, load_attempt, getItem.
  rewrite Hread, Hraw. simpl.
  destruct raw as [|c raw]; [done|]. simpl.
  rewrite Hparse. simpl. rewrite Hversion. simpl. rewrite Hcards.
  destruct (filter_valid entries) as [e|] eqn:Hf; [|done].
  by apply filter_valid_throws in Hf as ->.
Qed.

(** Inside an envelope of the current version whose entries are neither
    [null] nor [undefined], the entries are checked one by one: the result
    holds, in order, exactly the entries that are objects with a truthy
    [id], string [term], [definition] and [createdAt] and boolean
    [mastered]; the others are dropped and the storage is left as it is. *)
Theorem load_drops_invalid_entries browser nowMs items raw entries props :
  getItem_fault browser = None →
  items !! STORAGE_KEY = Some raw →
  raw ≠ EmptyString →
  parse raw = Some (JsObject props) →
  get_prop "version" props = JsStr CURRENT_VERSION →
  get_prop "cards" props = JsArray entries →
  Forall (λ entry, is_nullish entry = false) entries →
  loadFromLocalStorage parse browser nowMs items
  = (List.filter valid_entry entries, items).
Proof.
  intros Hread Hraw Hne Hparse Hversion Hcards Hentries.
  rewrite (load_envelope browser nowMs items raw entries props) by done.
  by rewrite filter_valid_entries.
Qed.

(** One entry that is [null] loses the whole collection: the check reads
    [card.id], which throws, and [loadFromLocalStorage] returns the empty
    list although the other entries are valid cards. *)
Theorem load_null_entry_loses_all browser nowMs items raw entries props :
  getItem_fault browser = None →
  items !! STORAGE_KEY = Some raw →
  raw ≠ EmptyString →
  parse raw = Some (JsObject props) →
  get_prop "version" props = JsStr CURRENT_VERSION →
  get_prop "cards" props = JsArray entries →
  Exists (λ entry, is_nullish entry = true) entries →
  loadFromLocalStorage parse browser nowMs items = ([], items).
Proof.
  intros Hread Hraw Hne Hparse Hversion Hcards Hnull.
  rewrite (load_envelope browser nowMs items raw entries props) by done.
  by rewrite filter_valid_nullish.
Qed.

End Loading.

Lemma load_nothing_stored_witness :
  loadFromLocalStorage ReferenceJson.parse willing_browser 0 ∅ = ([], ∅)
  ∧ loadFromLocalStorage ReferenceJson.parse refusing_browser 0
      (<[STORAGE_KEY:="{}"]> ∅)
    = ([], <[STORAGE_KEY:="{}"]> ∅).
Proof.
  destruct (load_nothing_stored ReferenceJson.parse willing_browser 0 ∅) as (Hnone & _ & _).
  destruct (load_nothing_stored ReferenceJson.parse refusing_browser 0 (<[STORAGE_KEY:="{}"]> ∅))
    as (_ & _ & Hrefused).
  split; [by apply Hnone|]. apply Hrefused. by eexists.
Defined.

Lemma load_corrupted_text_witness :
  let items : gmap string string := <[STORAGE_KEY:="{oops"]> ∅ in
  let loaded :=
    loadFromLocalStorage ReferenceJson.parse willing_browser 1700000000000
      items in
  loaded.1 = []
  ∧ loaded.2 !! STORAGE_KEY = Some "{oops"
  ∧ loaded.2 !! "flashcards-app-data-corrupted-1700000000000" = Some "{oops".
Proof.
  cbv zeta.
  destruct (load_corrupted_text ReferenceJson.parse willing_browser
              1700000000000
              (<[STORAGE_KEY:="{oops"]> ∅) "{oops")
    as (Hnil & Hkept & Hcopy & _).
  - reflexivity.
  - apply lookup_insert_eq.
  - discriminate.
  - vm_compute. reflexivity.
  - split; [exact Hnil|]. split; [exact Hkept|].
    apply Hcopy. reflexivity.
Defined.

Lemma load_preserves_storage_witness :
  (loadFromLocalStorage ReferenceJson.parse willing_browser 5
     (<[STORAGE_KEY:="{oops"]> ∅)).2 !! STORAGE_KEY
  = (<[STORAGE_KEY:="{oops"]> ∅ : gmap string string) !! STORAGE_KEY.
Proof.
  apply load_preserves_storage. intros H. symmetry in H.
  by apply corrupted_key_fresh in H.
Defined.

Lemma load_other_version_witness :
  loadFromLocalStorage ReferenceJson.parse willing_browser 0
    (<[STORAGE_KEY:=ReferenceJson.stringify
                      (JsObject [("version", JsStr "2.0");
                                 ("cards", JsArray [card_to_js rich_card])])]>
       ∅)
  = ([], <[STORAGE_KEY:=ReferenceJson.stringify
                          (JsObject [("version", JsStr "2.0");
                                     ("cards", JsArray [card_to_js rich_card])])]>
           ∅).
Proof.
  eapply (load_other_version ReferenceJson.parse willing_browser 0).
  - reflexivity.
  - apply lookup_insert_eq.
  - vm_compute. reflexivity.
  - reflexivity.
Defined.

Lemma load_drops_invalid_entries_witness :
  let entries :=
    [card_to_js rich_card;
     JsNumber 5;
     JsObject [("id", JsStr "id-9"); ("term", JsStr "no definition")];
     card_to_js (plain_card "id-2" "book" "reading material" false)] in
  loadFromLocalStorage ReferenceJson.parse willing_browser 0
    (<[STORAGE_KEY:=ReferenceJson.stringify (envelope_of entries)]> ∅)
  = ([card_to_js rich_card;
      card_to_js (plain_card "id-2" "book" "reading material" false)],
     <[STORAGE_KEY:=ReferenceJson.stringify (envelope_of entries)]> ∅).
Proof.
  cbv zeta.
  apply (load_drops_invalid_entries ReferenceJson.parse willing_browser 0 _
           (ReferenceJson.stringify
              (envelope_of
                 [card_to_js rich_card;
                  JsNumber 5;
                  JsObject [("id", JsStr "id-9");
                            ("term", JsStr "no definition")];
                  card_to_js
                    (plain_card "id-2" "book" "reading material" false)]))
           [card_to_js rich_card;
            JsNumber 5;
            JsObject [("id", JsStr "id-9"); ("term", JsStr "no definition")];
            card_to_js (plain_card "id-2" "book" "reading material" false)]
           [("version", JsStr CURRENT_VERSION);
            ("cards",
             JsArray
               [card_to_js rich_card;
                JsNumber 5;
                JsObject [("id", JsStr "id-9");
                          ("term", JsStr "no definition")];
                card_to_js
                  (plain_card "id-2" "book" "reading material" false)]);
            ("lastModified", JsStr "2024-01-02T00:00:00.000Z")]).
  - reflexivity.
  - apply lookup_insert_eq.
  - vm_compute. discriminate.
  - vm_compute. reflexivity.
  - reflexivity.
  - reflexivity.
  - repeat constructor.
Defined.

Lemma load_null_entry_loses_all_witness :
  let entries := [card_to_js rich_card; JsNull] in
  loadFromLocalStorage ReferenceJson.parse willing_browser 0
    (<[STORAGE_KEY:=ReferenceJson.stringify (envelope_of entries)]> ∅)
  = ([], <[STORAGE_KEY:=ReferenceJson.stringify (envelope_of entries)]> ∅).
Proof.
  cbv zeta.
  eapply (load_null_entry_loses_all ReferenceJson.parse willing_browser 0).
  - reflexivity.
  - apply lookup_insert_eq.
  - vm_compute. discriminate.
  - vm_compute. reflexivity.
  - reflexivity.
  - reflexivity.
  - right. left. reflexivity.
Defined.

(** [saveToLocalStorage] touches no key but its own, whatever the outcome;
    an accepted save stores the text of the envelope, a refused one changes
    nothing, and a second accepted save replaces what the first one
    stored. *)
Theorem save_touches_only_its_key stringify browser now deck items :
  let saved := saveToLocalStorage stringify browser now deck items in
  let text := stringify (schema_to_js CURRENT_VERSION deck now) in
  (∀ key, key ≠ STORAGE_KEY → saved.2 !! key = items !! key)
  ∧ (setItem_fault browser items STORAGE_KEY text = None →
     saved = (inr (), <[STORAGE_KEY:=text]> items))
  ∧ (is_Some (setItem_fault browser items STORAGE_KEY text) →
     saved.2 = items ∧ ∃ error, saved.1 = inl error)
  ∧ (∀ now' deck',
       let text' := stringify (schema_to_js CURRENT_VERSION deck' now') in
       setItem_fault browser items STORAGE_KEY text = None →
       setItem_fault browser (<[STORAGE_KEY:=text]> items) STORAGE_KEY text'
       = None →
       saveToLocalStorage stringify browser now' deck' saved.2
       = (inr (), <[STORAGE_KEY:=text']> items)).
Proof.
  cbv zeta. unfold saveToLocalStorage, setItem.
  split; [|split; [|split]].
  - intros key Hkey.
    destruct (setItem_fault browser items STORAGE_KEY _) as [[name message]|].
    + by repeat case_match.
    + simpl. by rewrite lookup_insert_ne.
  - by intros ->.
  - intros [[name message] ->]. repeat case_match; eauto.
  - intros now' deck' -> Hsecond. simpl. rewrite Hsecond.
    by rewrite insert_insert_eq.
Qed.

Lemma save_touches_only_its_key_witness :
  let saved :=
    saveToLocalStorage ReferenceJson.stringify willing_browser
      "2024-01-02T00:00:00.000Z" [rich_card]
      (<["theme":="dark"]> (∅ : gmap string string)) in
  saved.2 !! "theme" = Some "dark"
  ∧ saveToLocalStorage ReferenceJson.stringify willing_browser
      "2024-01-03T00:00:00.000Z" [] saved.2
    = (inr (),
       <[STORAGE_KEY:=ReferenceJson.stringify
                        (schema_to_js CURRENT_VERSION []
                           "2024-01-03T00:00:00.000Z")]>
         (<["theme":="dark"]> ∅)).
Proof.
  cbv zeta.
  destruct (save_touches_only_its_key ReferenceJson.stringify willing_browser
              "2024-01-02T00:00:00.000Z" [rich_card]
              (<["theme":="dark"]> (∅ : gmap string string)))
    as (Hother & _ & _ & Hagain).
  split.
  - rewrite Hother by discriminate. apply lookup_insert_eq.
  - apply Hagain; reflexivity.
Defined.

(** [clearAllData]: without backup it removes the key (and a load then
    finds nothing); with backup it first copies the stored text under
    [flashcards-app-data-backup-<Date.now()>], and when that write is
    refused it removes nothing; when the browser refuses access it changes
    nothing at all. *)
Theorem clear_all_data_spec parse browser nowMs items :
  (getItem_fault browser = None →
   clearAllData browser nowMs false items = delete STORAGE_KEY items
   ∧ loadFromLocalStorage parse browser nowMs
       (clearAllData browser nowMs false items)
     = ([], delete STORAGE_KEY items))
  ∧ (∀ raw, getItem_fault browser = None →
       items !! STORAGE_KEY = Some raw → raw ≠ EmptyString →
       (setItem_fault browser items (backup_key nowMs) raw = None →
        clearAllData browser nowMs true items
        = delete STORAGE_KEY (<[backup_key nowMs:=raw]> items)
        ∧ clearAllData browser nowMs true items !! backup_key nowMs = Some raw
        ∧ clearAllData browser nowMs true items !! STORAGE_KEY = None)
       ∧ (is_Some (setItem_fault browser items (backup_key nowMs) raw) →
          clearAllData browser nowMs true items = items))
  ∧ (is_Some (getItem_fault browser) →
     ∀ createBackup, clearAllData browser nowMs createBackup items = items).
Proof.
  unfold clearAllData, backup_step, removeItem, getItem, setItem.
  fold (backup_key nowMs).
  split; [|split].
  - intros Hread. rewrite Hread. split; [done|].
    unfold loadFromLocalStorage, load_attempt, getItem. rewrite Hread. simpl.
    by rewrite lookup_delete_eq.
  - intros raw Hread Hraw Hne. rewrite Hread, Hraw. simpl.
    destruct raw as [|c raw]; [done|]. simpl. split.
    + intros ->. simpl. split; [done|]. split.
      * rewrite lookup_delete_ne
          by (intros H; symmetry in H; by apply backup_key_fresh in H).
        apply lookup_insert_eq.
      * apply lookup_delete_eq.
    + by intros [[name message] ->].
  - intros [[name message] ->] [|]; done.
Qed.

Lemma clear_all_data_spec_witness :
  let items : gmap string string := <[STORAGE_KEY:="{oops"]> ∅ in
  clearAllData willing_browser 7 false items = delete STORAGE_KEY items
  ∧ clearAllData full_browser 7 true items = items
  ∧ clearAllData refusing_browser 7 true items = items.
Proof.
  cbv zeta.
  destruct (clear_all_data_spec ReferenceJson.parse willing_browser 7
              (<[STORAGE_KEY:="{oops"]> ∅)) as (Hplain & _ & _).
  destruct (clear_all_data_spec ReferenceJson.parse full_browser 7
              (<[STORAGE_KEY:="{oops"]> ∅)) as (_ & Hbackup & _).
  destruct (clear_all_data_spec ReferenceJson.parse refusing_browser 7
              (<[STORAGE_KEY:="{oops"]> ∅)) as (_ & _ & Hrefused).
  split; [by apply Hplain|]. split.
  - apply (Hbackup "{oops"); [reflexivity|apply lookup_insert_eq|discriminate|].
    by eexists.
  - apply Hrefused. by eexists.
Defined.

(** [isLocalStorageAvailable] answers [true] exactly when the browser
    accepts the test write and access to the storage; it leaves every key
    but [__storage_test__] as it is, and after a [true] answer that key is
    absent. *)
Theorem storage_probe_spec browser items :
  let probe := isLocalStorageAvailable browser items in
  (probe.1 = true
   ↔ setItem_fault browser items "__storage_test__" "test" = None
     ∧ getItem_fault browser = None)
  ∧ (∀ key, key ≠ "__storage_test__" → probe.2 !! key = items !! key)
  ∧ (probe.1 = true → probe.2 !! "__storage_test__" = None)
  ∧ (is_Some (setItem_fault browser items "__storage_test__" "test") →
     probe = (false, items)).
Proof.
  cbv zeta. unfold isLocalStorageAvailable, setItem, removeItem.
  destruct (setItem_fault browser items "__storage_test__" "test")
    as [[name message]|]; simpl.
  - split; [by split; [|intros [? _]]|]. split; [done|]. split; done.
  - destruct (getItem_fault browser) as [[name message]|]; simpl.
    + split; [by split; [|intros [_ ?]]|]. split.
      * intros key Hkey. by rewrite lookup_insert_ne.
      * split; [done|]. by intros [? ?].
    + split; [done|]. split.
      * intros key Hkey. rewrite lookup_delete_ne by done.
        by rewrite lookup_insert_ne.
      * split; [intros _; apply lookup_delete_eq|]. by intros [? ?].
Qed.

Lemma storage_probe_spec_witness :
  (isLocalStorageAvailable willing_browser (<["theme":="dark"]> ∅)).2
    !! "theme" = Some "dark"
  ∧ isLocalStorageAvailable full_browser (<["theme":="dark"]> ∅)
    = (false, <["theme":="dark"]> ∅).
Proof.
  destruct (storage_probe_spec willing_browser (<["theme":="dark"]> ∅))
    as (_ & Hother & _ & _).
  destruct (storage_probe_spec full_browser (<["theme":="dark"]> ∅))
    as (_ & _ & _ & Hrefused).
  split.
  - rewrite Hother by discriminate. apply lookup_insert_eq.
  - apply Hrefused. by eexists.
Defined.

(** ** Handlers of the components *)

Lemma visible_le_cards state : len (getVisibleCards state) <= len (cards state).
Proof.
  unfold getVisibleCards. destruct (filter state); [lia|apply len_filter_le].
Qed.

Lemma navigate_inside env state target :
  0 <= target < len (getVisibleCards state) →
  cardReducer env state (NAVIGATE target)
  = {| cards := cards state; filter := filter state;
       currentCardIndex := target |}.
Proof.
  intros Htarget. pose proof (visible_le_cards state). simpl. f_equal. lia.
Qed.

Lemma handleNext_inside env cs f i :
  let state := {| cards := cs; filter := f; currentCardIndex := i |} in
  let n := len (getVisibleCards state) in
  0 <= i < n →
  dispatch env state (handleNext state)
  = {| cards := cs; filter := f; currentCardIndex := (i + 1) `mod` n |}.
Proof.
  cbv zeta. intros Hi. unfold handleNext.
  set (state := {| cards := cs; filter := f; currentCardIndex := i |}) in *.
  set (n := len (getVisibleCards state)) in *.
  destruct (Z.eqb_spec n 0); [lia|]. cbn [currentCardIndex state dispatch].
  rewrite Z.rem_mod_nonneg by lia.
  apply (navigate_inside env state). fold n. apply Z.mod_pos_bound. lia.
Qed.

Lemma handlePrevious_inside env cs f i :
  let state := {| cards := cs; filter := f; currentCardIndex := i |} in
  let n := len (getVisibleCards state) in
  0 <= i < n →
  dispatch env state (handlePrevious state)
  = {| cards := cs; filter := f;
       currentCardIndex := if i =? 0 then n - 1 else i - 1 |}.
Proof.
  cbv zeta. intros Hi. unfold handlePrevious.
  set (state := {| cards := cs; filter := f; currentCardIndex := i |}) in *.
  set (n := len (getVisibleCards state)) in *.
  destruct (Z.eqb_spec n 0); [lia|]. cbn [currentCardIndex state dispatch].
  apply (navigate_inside env state). fold n.
  destruct (Z.eqb_spec i 0); lia.
Qed.

(** Next and previous in the study view, from a cursor inside the view:
    [handleNext] moves to the following visible card and from the last one
    to the first, the cursor stays inside the view and the cards are
    untouched; [handlePrevious] undoes [handleNext] and [handleNext] undoes
    [handlePrevious]. *)
Theorem study_navigation_cycles env state :
  cursor_in_view state →
  let next := dispatch env state (handleNext state) in
  let previous := dispatch env state (handlePrevious state) in
  cursor_in_view next
  ∧ cards next = cards state
  ∧ filter next = filter state
  ∧ currentCardIndex next
    = (currentCardIndex state + 1) `mod` Z.max 1 (len (getVisibleCards state))
  ∧ dispatch env next (handlePrevious next) = state
  ∧ dispatch env previous (handleNext previous) = state.
Proof.
  destruct state as [cs f i]. intros [H0 Hlt]. cbv zeta.
  cbn [currentCardIndex] in H0, Hlt.
  set (state := {| cards := cs; filter := f; currentCardIndex := i |}) in *.
  set (n := len (getVisibleCards state)) in *.
  assert (Hn : 0 <= n) by apply len_nonneg.
  destruct (Z.eqb_spec n 0) as [Hzero|Hpos].
  { assert (Hnone : handleNext state = None ∧ handlePrevious state = None).
    { unfold handleNext, handlePrevious. fold n. by rewrite Hzero. }
    destruct Hnone as [-> ->]. cbn [dispatch].
    assert (Hnone : handleNext state = None ∧ handlePrevious state = None).
    { unfold handleNext, handlePrevious. fold n. by rewrite Hzero. }
    destruct Hnone as [-> ->]. cbn [dispatch].
    unfold cursor_in_view. fold n. cbn [currentCardIndex state].
    repeat split; try done; try lia.
    rewrite Hzero. simpl. rewrite Z.mod_1_r. lia. }
  assert (Hmax : Z.max 1 n = n) by lia. rewrite Hmax in *.
  pose proof (handleNext_inside env cs f i) as Hgo.
  pose proof (handlePrevious_inside env cs f i) as Hback.
  cbv zeta in Hgo, Hback. fold state in Hgo, Hback. fold n in Hgo, Hback.
  rewrite Hgo, Hback by lia. clear Hgo Hback.
  set (next := {| cards := cs; filter := f;
                  currentCardIndex := (i + 1) `mod` n |}).
  set (previous := {| cards := cs; filter := f;
                      currentCardIndex := if i =? 0 then n - 1 else i - 1 |}).
  assert (Hnext : 0 <= (i + 1) `mod` n < n) by (apply Z.mod_pos_bound; lia).
  assert (Hprevious : 0 <= (if i =? 0 then n - 1 else i - 1) < n)
    by (destruct (Z.eqb_spec i 0); lia).
  assert (Hview : len (getVisibleCards next) = n
                  ∧ len (getVisibleCards previous) = n) by done.
  destruct Hview as [Hvn Hvp].
  split; [unfold cursor_in_view; rewrite Hvn; cbn [currentCardIndex next]; lia|].
  split; [done|]. split; [done|]. split; [done|]. split.
  - pose proof (handlePrevious_inside env cs f ((i + 1) `mod` n)) as Hback.
    cbv zeta in Hback. fold next in Hback. rewrite Hvn in Hback.
    rewrite Hback by lia. unfold state. f_equal.
    destruct (Z.eq_dec (i + 1) n) as [Heq|Hne].
    + rewrite Heq, Z.mod_same by lia. simpl. lia.
    + rewrite Z.mod_small by lia. destruct (Z.eqb_spec (i + 1) 0); lia.
  - pose proof (handleNext_inside env cs f
                  (if i =? 0 then n - 1 else i - 1)) as Hgo.
    cbv zeta in Hgo. fold previous in Hgo. rewrite Hvp in Hgo.
    rewrite Hgo by lia. unfold state. f_equal.
    destruct (Z.eqb_spec i 0) as [->|Hi].
    + replace (n - 1 + 1) with n by lia. by rewrite Z.mod_same by lia.
    + replace (i - 1 + 1) with i by lia. apply Z.mod_small. lia.
Qed.

Lemma study_navigation_cycles_witness :
  let next := dispatch (ambient "none") review_state (handleNext review_state) in
  currentCardIndex next = 0
  ∧ dispatch (ambient "none") next (handlePrevious next) = review_state.
Proof.
  destruct (study_navigation_cycles (ambient "none") review_state)
    as (_ & _ & _ & Hcursor & Hback & _).
  - vm_compute. split; [discriminate|reflexivity].
  - split; [rewrite Hcursor; reflexivity|exact Hback].
Defined.

Lemma length_trimStart s : (String.length (trimStart s) <= String.length s)%nat.
Proof.
  induction s as [|c r IH]; simpl; [done|].
  destruct (is_white_space c); simpl; lia.
Qed.

Lemma length_trimEnd s : (String.length (trimEnd s) <= String.length s)%nat.
Proof.
  induction s as [|c r IH]; simpl; [done|].
  destruct (trimEnd r) as [|d r']; simpl in *.
  - destruct (is_white_space c); simpl; lia.
  - lia.
Qed.

Lemma length_trim s : (String.length (trim s) <= String.length s)%nat.
Proof.
  unfold trim. pose proof (length_trimEnd (trimStart s)).
  pose proof (length_trimStart s). lia.
Qed.

(** What a form that passes [validateForm] holds. *)
Lemma validateForm_true form :
  validateForm form = true →
  is_empty (trim (form_word form)) = false
  ∧ (String.length (form_word form) <= 100)%nat
  ∧ is_empty (trim (form_meaning form)) = false
  ∧ (String.length (form_meaning form) <= 500)%nat
  ∧ (is_empty (trim (form_partOfSpeech form)) = false →
     (String.length (form_partOfSpeech form) <= 50)%nat)
  ∧ Forall (λ ex, is_empty (trim ex) = false →
                  (String.length ex <= 500)%nat)
      (form_exampleSentences form).
Proof.
  unfold validateForm, form_errors.
  destruct (is_empty (trim (form_word form))) eqn:Hw; [done|].
  destruct (MAX_WORD_LENGTH <? String.length (form_word form))%nat eqn:Hwl;
    [done|].
  destruct (is_empty (trim (form_meaning form))) eqn:Hm; [done|].
  destruct (MAX_MEANING_LENGTH <? String.length (form_meaning form))%nat
    eqn:Hml; [done|].
  destruct ((0 <? String.length (trim (form_partOfSpeech form)))%nat
            && (PART_OF_SPEECH_MAX_LENGTH
                <? String.length (form_partOfSpeech form))%nat) eqn:Hp;
    [done|].
  destruct (List.find _ _) as [|] eqn:Hfind; [done|]. intros _.
  apply Nat.ltb_ge in Hwl, Hml.
  split; [done|]. split; [done|]. split; [done|]. split; [done|]. split.
  - intros Hne. rewrite nonempty_length, Hne in Hp. simpl in Hp.
    by apply Nat.ltb_ge in Hp.
  - apply Forall_forall. intros ex Hex Hne.
    apply find_none_Forall in Hfind.
    rewrite Forall_forall in Hfind. specialize (Hfind ex).
    simpl in Hfind. apply Nat.ltb_ge, Hfind.
    apply elem_of_List_filter. split; [done|].
    by rewrite nonempty_length, Hne.
Qed.

Lemma trimmed_examples_within_limits exs :
  Forall (λ ex, is_empty (trim ex) = false → (String.length ex <= 500)%nat)
    exs →
  Forall (λ ex, is_empty ex = false ∧ (String.length ex <= 500)%nat)
    (List.filter (λ ex, (0 <? String.length ex)%nat) (map trim exs)).
Proof.
  intros Hexs. apply Forall_forall. intros t [Ht Hne]%elem_of_List_filter.
  rewrite nonempty_length in Hne. apply negb_true_iff in Hne.
  split; [done|].
  change (map ?f ?l) with (f <$> l) in Ht.
  apply list_elem_of_fmap in Ht as (ex & -> & Hex).
  rewrite Forall_forall in Hexs. pose proof (Hexs ex Hex Hne).
  pose proof (length_trim ex). lia.
Qed.

Lemma filter_trim_nonblank exs :
  List.filter (λ ex, (0 <? String.length ex)%nat) (map trim exs)
  = map trim (List.filter (λ ex, negb (all_white ex)) exs).
Proof.
  induction exs as [|ex exs IH]; [done|]. simpl.
  rewrite nonempty_length, is_empty_trim, IH.
  by destruct (all_white ex).
Qed.

(** What the add form dispatches.  When [handleSubmit] dispatches, the
    payload is made of the inputs: its term and its definition are the
    trimmed inputs, it is not mastered, its part of speech is the trimmed
    input, absent when the input is blank, and its example sentences are the
    inputs that are not blank, trimmed and in their order, absent when every
    input is blank.  The payload is within the limits: term and definition
    are not empty and have at most 100 and 500 characters, the part of
    speech at most 50 and each example sentence at most 500. *)
Theorem add_form_submits_valid_payload form payload :
  handleSubmit form = Some payload →
  add_term payload = trim (form_word form)
  ∧ add_definition payload = trim (form_meaning form)
  ∧ add_mastered payload = false
  ∧ add_partOfSpeech payload
    = (if all_white (form_partOfSpeech form) then None
       else Some (trim (form_partOfSpeech form)))
  ∧ add_exampleSentences payload
    = match map trim (List.filter (λ ex, negb (all_white ex))
                        (form_exampleSentences form)) with
      | [] => None
      | example :: examples => Some (example :: examples)
      end
  ∧ within_limits (add_term payload) (add_definition payload)
      (add_partOfSpeech payload) (add_exampleSentences payload)
  ∧ (∀ exs, add_exampleSentences payload = Some exs →
       (length exs <= length (form_exampleSentences form))%nat).
Proof.
  unfold handleSubmit. destruct (validateForm form) eqn:Hvalid; [|done].
  apply validateForm_true in Hvalid as (Hw & Hwl & Hm & Hml & Hp & Hex).
  intros [= <-]. simpl.
  pose proof (length_trim (form_word form)).
  pose proof (length_trim (form_meaning form)).
  pose proof (length_trim (form_partOfSpeech form)).
  split; [done|]. split; [done|]. split; [done|].
  split; [by rewrite is_empty_trim|]. split; [|split].
  - rewrite filter_trim_nonblank. by destruct (map trim _).
  - unfold within_limits. split; [done|]. split; [lia|]. split; [done|].
    split; [lia|]. split.
    + intros p. destruct (is_empty (trim (form_partOfSpeech form))) eqn:Hpe;
        [done|]. intros [= <-]. split; [done|]. specialize (Hp eq_refl). lia.
    + intros exs. destruct (0 <? length _)%nat eqn:Hlen; [|done].
      intros [= <-]. split.
      * intros Hnil. by rewrite Hnil in Hlen.
      * by apply trimmed_examples_within_limits.
  - intros exs. destruct (0 <? length _)%nat; [|done]. intros [= <-].
    pose proof (List.filter_length_le (λ ex, (0 <? String.length ex)%nat)
                  (map trim (form_exampleSentences form))) as Hle.
    by rewrite length_map in Hle.
Qed.

Lemma add_form_submits_valid_payload_witness :
  let payload :=
    {| add_term := "eloquent"; add_definition := "fluent";
       add_mastered := false; add_partOfSpeech := Some "adjective";
       add_exampleSentences := Some ["So eloquent"; "Very eloquent"] |} in
  add_partOfSpeech payload = Some (trim "adjective ")
  ∧ add_exampleSentences payload
    = Some (map trim ["  So eloquent"; "Very eloquent "])
  ∧ within_limits (add_term payload) (add_definition payload)
      (add_partOfSpeech payload) (add_exampleSentences payload).
Proof.
  cbv zeta.
  destruct (add_form_submits_valid_payload
              {| form_word := " eloquent "; form_meaning := "fluent";
                 form_partOfSpeech := "adjective ";
                 form_exampleSentences :=
                   ["  So eloquent"; "   "; "Very eloquent "] |}
              {| add_term := "eloquent"; add_definition := "fluent";
                 add_mastered := false; add_partOfSpeech := Some "adjective";
                 add_exampleSentences :=
                   Some ["So eloquent"; "Very eloquent"] |})
    as (_ & _ & _ & Hpos & Hexamples & Hlimits & _).
  - vm_compute. reflexivity.
  - split; [exact Hpos|]. split; [exact Hexamples|exact Hlimits].
Defined.

(** The example inputs of the add form: adding and removing keep their
    number between one and five. *)
Theorem example_inputs_between_one_and_five exampleSentences index :
  (1 <= length exampleSentences <= 5)%nat →
  (1 <= length (handleAddExample exampleSentences) <= 5)%nat
  ∧ (1 <= length (handleRemoveExample exampleSentences index) <= 5)%nat
  ∧ (length exampleSentences < 5 →
     handleAddExample exampleSentences = exampleSentences ++ [EmptyString])%nat
  ∧ (length exampleSentences = 5%nat →
     handleAddExample exampleSentences = exampleSentences).
Proof.
  intros Hlen. unfold handleAddExample, handleRemoveExample,
    MAX_EXAMPLE_SENTENCES.
  split; [|split; [|split]].
  - destruct (Nat.ltb_spec (length exampleSentences) 5); [|lia].
    rewrite length_app. simpl. lia.
  - destruct (Nat.ltb_spec 1 (length exampleSentences)); [|simpl; lia].
    rewrite delete_take_drop, length_app, length_take, length_drop. lia.
  - intros Hlt. by destruct (Nat.ltb_spec (length exampleSentences) 5); [|lia].
  - intros Hfive. by destruct (Nat.ltb_spec (length exampleSentences) 5); [lia|].
Qed.

Lemma example_inputs_between_one_and_five_witness :
  handleAddExample [EmptyString] = [EmptyString; EmptyString]
  ∧ (1 <= length (handleRemoveExample [EmptyString] 0) <= 5)%nat.
Proof.
  destruct (example_inputs_between_one_and_five [EmptyString] 0)
    as (_ & Hremove & Hadd & _); [simpl; lia|].
  split; [apply Hadd; simpl; lia|exact Hremove].
Defined.

(** What [handleSaveEdit] has checked when it dispatches. *)
Lemma handleSaveEdit_dispatch editing action :
  handleSaveEdit (Some editing) = Dispatch action →
  let trimmedPartOfSpeech := trim <$> edit_partOfSpeech editing in
  let filteredExamples :=
    List.filter (λ ex, (0 <? String.length ex)%nat)
      (map trim (default [] (edit_exampleSentences editing))) in
  is_empty (trim (edit_term editing)) = false
  ∧ is_empty (trim (edit_definition editing)) = false
  ∧ (String.length (trim (edit_term editing)) <= 100)%nat
  ∧ (String.length (trim (edit_definition editing)) <= 500)%nat
  ∧ (nonempty_string trimmedPartOfSpeech = true →
     (String.length (default EmptyString trimmedPartOfSpeech) <= 50)%nat)
  ∧ Forall (λ ex, (String.length ex <= 500)%nat) filteredExamples
  ∧ action =
      UPDATE_CARD (edit_id editing)
        {| upd_term := Some (trim (edit_term editing));
           upd_definition := Some (trim (edit_definition editing));
           upd_partOfSpeech :=
             if nonempty_string trimmedPartOfSpeech
             then Some trimmedPartOfSpeech else None;
           upd_exampleSentences :=
             if (0 <? length filteredExamples)%nat
             then Some (Some filteredExamples) else None |}.
Proof.
  unfold handleSaveEdit. cbv zeta.
  destruct (is_empty (trim (edit_term editing))) eqn:Ht; [done|].
  destruct (is_empty (trim (edit_definition editing))) eqn:Hd; [done|].
  simpl orb. cbv iota.
  destruct (100 <? String.length (trim (edit_term editing)))%nat eqn:Htl;
    [done|].
  destruct (500 <? String.length (trim (edit_definition editing)))%nat
    eqn:Hdl; [done|].
  destruct (nonempty_string (trim <$> edit_partOfSpeech editing)
            && (PART_OF_SPEECH_MAX_LENGTH
                <? String.length
                     (default EmptyString
                        (trim <$> edit_partOfSpeech editing)))%nat)
    eqn:Hp; [done|].
  destruct (List.find _ _) as [|] eqn:Hfind; [done|].
  intros [= <-]. apply Nat.ltb_ge in Htl, Hdl.
  do 4 (split; [done|]). split; [|split; [|done]].
  - intros Hne. rewrite Hne in Hp. simpl in Hp. by apply Nat.ltb_ge in Hp.
  - apply find_none_Forall in Hfind.
    eapply Forall_impl; [exact Hfind|]. intros ex Hex. simpl in Hex.
    by apply Nat.ltb_ge in Hex.
Qed.

Lemma filter_nonempty_blank exs :
  Forall (λ ex, is_empty (trim ex) = true) exs →
  List.filter (λ ex, (0 <? String.length ex)%nat) (map trim exs) = [].
Proof.
  induction 1 as [|ex exs Hex _ IH]; simpl; [done|].
  by rewrite nonempty_length, Hex.
Qed.

(** Saving an edit in the card library: when [handleSaveEdit] dispatches,
    it updates the card in edit, whose term and definition become the
    trimmed inputs, not empty and within 100 and 500 characters; a part of
    speech that is not blank replaces the card's, within 50 characters.
    A part of speech left blank, or examples all left blank, do not clear
    the card's: the card keeps the ones it had. *)
Theorem save_edit_never_clears_optional_fields editing cid updates card :
  handleSaveEdit (Some editing) = Dispatch (UPDATE_CARD cid updates) →
  let card' := merge_updates card updates in
  cid = edit_id editing
  ∧ term card' = trim (edit_term editing)
  ∧ definition card' = trim (edit_definition editing)
  ∧ is_empty (term card') = false ∧ (String.length (term card') <= 100)%nat
  ∧ is_empty (definition card') = false
  ∧ (String.length (definition card') <= 500)%nat
  ∧ (∀ p, edit_partOfSpeech editing = Some p → is_empty (trim p) = false →
       partOfSpeech card' = Some (trim p)
       ∧ (String.length (trim p) <= 50)%nat)
  ∧ ((∀ p, edit_partOfSpeech editing = Some p → is_empty (trim p) = true) →
     partOfSpeech card' = partOfSpeech card)
  ∧ (Forall (λ ex, is_empty (trim ex) = true)
       (default [] (edit_exampleSentences editing)) →
     exampleSentences card' = exampleSentences card).
Proof.
  intros Hsave.
  apply handleSaveEdit_dispatch in Hsave
    as (Ht & Hd & Htl & Hdl & Hp & _ & Haction).
  cbv zeta in Haction, Hp. injection Haction as -> ->. cbv zeta.
  unfold merge_updates. simpl.
  do 7 (split; [done|]). split; [|split].
  - intros p Hpos Hne. rewrite Hpos in Hp |- *.
    change (trim <$> Some p) with (Some (trim p)) in Hp |- *.
    rewrite nonempty_string_Some, Hne in Hp |- *. simpl.
    split; [done|]. by apply Hp.
  - intros Hblank. destruct (edit_partOfSpeech editing) as [p|]; [|done].
    change (trim <$> Some p) with (Some (trim p)).
    by rewrite nonempty_string_Some, (Hblank p eq_refl).
  - intros Hblank. by rewrite (filter_nonempty_blank _ Hblank).
Qed.

Lemma save_edit_never_clears_optional_fields_witness :
  partOfSpeech
    (merge_updates rich_card
       {| upd_term := Some "ornate"; upd_definition := Some "decorated";
          upd_partOfSpeech := None; upd_exampleSentences := None |})
  = partOfSpeech rich_card.
Proof.
  destruct (save_edit_never_clears_optional_fields
              {| edit_id := id rich_card; edit_term := " ornate";
                 edit_definition := "decorated ";
                 edit_partOfSpeech := Some "  ";
                 edit_exampleSentences := Some [EmptyString] |}
              (id rich_card)
              {| upd_term := Some "ornate";
                 upd_definition := Some "decorated";
                 upd_partOfSpeech := None; upd_exampleSentences := None |}
              rich_card)
    as (_ & _ & _ & _ & _ & _ & _ & _ & Hkeeps & _).
  - vm_compute. reflexivity.
  - apply Hkeeps. intros p [= <-]. vm_compute. reflexivity.
Defined.

Lemma map_trim_trimmed exs :
  Forall (λ ex, trim ex = ex) exs → map trim exs = exs.
Proof. induction 1 as [|ex exs Hex _ IH]; simpl; by f_equal. Qed.

(** Opening a card in the editor of the library and saving it unchanged
    changes nothing: for a card whose texts are trimmed and within the
    limits, [handleSaveEdit] after [handleStartEdit] dispatches an update
    that gives the card back, and the reducer gives back every state in
    which no other card has the card's id. *)
Theorem edit_without_change_is_noop card :
  trimmed_card card →
  within_limits (term card) (definition card) (partOfSpeech card)
    (exampleSentences card) →
  ∃ updates,
    handleSaveEdit (Some (handleStartEdit card))
    = Dispatch (UPDATE_CARD (id card) updates)
    ∧ merge_updates card updates = card
    ∧ ∀ env state,
        (∀ other, other ∈ cards state → id other = id card → other = card) →
        cardReducer env state (UPDATE_CARD (id card) updates) = state.
Proof.
  destruct card as [cid t d m created pos examples].
  unfold trimmed_card, within_limits. simpl.
  intros (Htt & Htd & Htp & Hte) (Ht & Htl & Hd & Hdl & Hp & Hex).
  assert (Hpos : nonempty_string (trim <$> pos)
                 && (PART_OF_SPEECH_MAX_LENGTH
                     <? String.length (default EmptyString (trim <$> pos)))%nat
                 = false).
  { destruct pos as [p|]; [|done].
    change (trim <$> Some p) with (Some (trim p)).
    rewrite (Htp p eq_refl), nonempty_string_Some.
    destruct (Hp p eq_refl) as [-> Hlen]. simpl.
    by apply Nat.ltb_ge. }
  assert (Hposu : (if nonempty_string (trim <$> pos)
                   then Some (trim <$> pos) else None) = None
                  ∧ pos = None
                  ∨ (if nonempty_string (trim <$> pos)
                     then Some (trim <$> pos) else None) = Some pos).
  { destruct pos as [p|]; [right|by left].
    change (trim <$> Some p) with (Some (trim p)).
    rewrite (Htp p eq_refl), nonempty_string_Some.
    by destruct (Hp p eq_refl) as [-> _]. }
  set (shown := match examples with
                | Some exs => if (0 <? length exs)%nat then Some exs
                              else Some [EmptyString]
                | None => Some [EmptyString]
                end).
  set (filteredExamples :=
         List.filter (λ ex, (0 <? String.length ex)%nat)
           (map trim (default [] shown))).
  assert (Hfiltered : filteredExamples = default [] examples).
  { subst filteredExamples shown. destruct examples as [exs|]; [|done].
    destruct (Hex exs eq_refl) as [Hnil Hall].
    destruct exs as [|ex exs]; [done|].
    change (List.filter (λ ex, (0 <? String.length ex)%nat)
              (map trim (ex :: exs)) = ex :: exs).
    rewrite (map_trim_trimmed _ (Hte _ eq_refl)).
    apply List_filter_all. intros x Hx.
    rewrite Forall_forall in Hall. destruct (Hall x Hx) as [Hne _].
    by rewrite nonempty_length, Hne. }
  assert (Hfind : List.find
                    (λ example,
                       (EXAMPLE_SENTENCE_MAX_LENGTH
                        <? String.length example)%nat)
                    filteredExamples = None).
  { rewrite Hfiltered. destruct examples as [exs|]; [|done]. simpl.
    destruct (Hex exs eq_refl) as [_ Hall].
    destruct (List.find _ exs) as [x|] eqn:Hfound; [|done].
    apply List.find_some in Hfound as [Hx Hlong].
    apply list_elem_of_In in Hx. rewrite Forall_forall in Hall.
    destruct (Hall x Hx) as [_ Hlen]. apply Nat.ltb_lt in Hlong.
    unfold EXAMPLE_SENTENCE_MAX_LENGTH in Hlong. lia. }
  assert (Hexu : (if (0 <? length filteredExamples)%nat
                  then Some (Some filteredExamples) else None) = None
                 ∧ examples = None
                 ∨ (if (0 <? length filteredExamples)%nat
                    then Some (Some filteredExamples) else None)
                   = Some examples).
  { rewrite Hfiltered. destruct examples as [exs|]; [right|by left].
    destruct (Hex exs eq_refl) as [Hnil _]. by destruct exs. }
  eexists. split; [|split].
  - unfold handleSaveEdit, handleStartEdit. cbv zeta.
    cbn [edit_id edit_term edit_definition edit_partOfSpeech
         edit_exampleSentences Flashcards.id term definition partOfSpeech
         exampleSentences].
    rewrite Htt, Htd, Ht, Hd. cbn [orb].
    apply Nat.ltb_ge in Htl, Hdl. rewrite Htl, Hdl, Hpos.
    fold shown. fold filteredExamples. rewrite Hfind. reflexivity.
  - unfold merge_updates. simpl. fold shown. fold filteredExamples.
    destruct Hposu as [[-> ->]| ->], Hexu as [[-> ->]| ->]; reflexivity.
  - intros env state Hunique. destruct state as [cs f i]. simpl in *.
    f_equal. fold shown. fold filteredExamples.
    rewrite <- (map_id cs) at 2. apply map_ext_in. intros other Hother.
    apply list_elem_of_In in Hother.
    destruct (String.eqb_spec (id other) cid) as [Hid|]; [|done].
    rewrite (Hunique other Hother Hid). unfold merge_updates. simpl.
    destruct Hposu as [[-> ->]| ->], Hexu as [[-> ->]| ->]; reflexivity.
Qed.

Lemma edit_without_change_is_noop_witness :
  ∃ updates,
    handleSaveEdit (Some (handleStartEdit rich_card))
    = Dispatch (UPDATE_CARD (id rich_card) updates)
    ∧ merge_updates rich_card updates = rich_card.
Proof.
  destruct (edit_without_change_is_noop rich_card)
    as (updates & Hsave & Hsame & _).
  - unfold trimmed_card. simpl.
    split; [reflexivity|]. split; [reflexivity|]. split.
    + intros p [= <-]. reflexivity.
    + intros exs [= <-].
      repeat (constructor; [reflexivity|]). constructor.
  - unfold within_limits. simpl.
    split; [reflexivity|]. split; [lia|]. split; [reflexivity|].
    split; [lia|]. split.
    + intros p [= <-]. split; [reflexivity|simpl; lia].
    + intros exs [= <-]. split; [discriminate|].
      repeat (constructor; [split; [reflexivity|simpl; lia]|]).
      constructor.
  - exists updates. split; [exact Hsave|exact Hsame].
Defined.
